(** * The local MCP client bridge of mai: framing, transport, supervisor, registry

    A shallow embedding of [electron/mcp-types.js] (classes [Client] and
    [StdioClientTransport], and [parseJsonRpcResponse]), of the bridge
    functions [resolveMCPPath], [spawnMCPProcess], [getOrCreateClient] and
    [cleanupClients], and of the main-process functions
    [handleFetchMCPCapabilities], [handleMCPExecute], [spawnMCPServer],
    [cleanupServers], [decodeHTMLEntities] and [htmlToText], followed by the
    theorems that settle the properties stated about them. *)

From Stdlib Require Import String Ascii.
From Stdlib Require Import List ZArith NArith Bool Lia.
Open Scope list_scope.
Import ListNotations.

Set Implicit Arguments.

(* ================================================================== *)
(** * JavaScript strings *)

(** A JavaScript string is a sequence of UTF-16 code units. *)
Definition jsstring := list N.

(** Literals of this development: the code units of an ASCII text, where the
    apostrophe stands for the double quote (code unit 34). *)
Definition js_unit (a : ascii) : N :=
  let n := N_of_ascii a in if N.eqb n 39 then 34%N else n.

Fixpoint js (s : string) : jsstring :=
  match s with
  | EmptyString => []
  | String a r => js_unit a :: js r
  end.

Fixpoint jsstring_eqb (a b : jsstring) : bool :=
  match a, b with
  | [], [] => true
  | x :: a', y :: b' => N.eqb x y && jsstring_eqb a' b'
  | _, _ => false
  end.

(** [String.prototype.includes]. *)
Fixpoint starts_with (p s : jsstring) : bool :=
  match p, s with
  | [], _ => true
  | x :: p', y :: s' => N.eqb x y && starts_with p' s'
  | _ :: _, [] => false
  end.

Fixpoint includes (s p : jsstring) : bool :=
  starts_with p s ||
  match s with
  | [] => false
  | _ :: r => includes r p
  end.

(** White space and line terminators removed by [String.prototype.trim]. *)
Definition is_js_space (c : N) : bool :=
  ((9 <=? c) && (c <=? 13) || (c =? 32) || (c =? 160) || (c =? 5760)
   || (8192 <=? c) && (c <=? 8202) || (c =? 8232) || (c =? 8233)
   || (c =? 8239) || (c =? 8287) || (c =? 12288) || (c =? 65279))%N.

Fixpoint trim_start (s : jsstring) : jsstring :=
  match s with
  | [] => []
  | c :: r => if is_js_space c then trim_start r else s
  end.

Definition trim (s : jsstring) : jsstring :=
  rev (trim_start (rev (trim_start s))).

(** [s.substring(0, n)] and [s.substring(n)] for [0 <= n]. *)
Definition substring_to (n : nat) (s : jsstring) : jsstring := firstn n s.
Definition substring_from (n : nat) (s : jsstring) : jsstring := skipn n s.

(* ================================================================== *)
(** * JSON values and the runtime's [JSON.parse] *)

(** A number of the runtime is a double.  [JNum m e] is the finite double of
    value [m * 10^e], written in normal form: [e <= 0], and [m] is not a
    multiple of ten unless [e = 0]; an integer [n] is [JNum n 0].  [JInf] is
    one of the two infinities, which [JSON.parse] returns for a literal
    beyond the range of the doubles.  Negative zero is kept as [JNum 0 0]:
    the code compares, tests and prints it as zero. *)
#[warnings="-register-all"] Inductive json : Type :=
| JNull
| JBool (b : bool)
| JNum (m e : Z)
| JInf (negative : bool)
| JStr (s : jsstring)
| JArr (items : list json)
| JObj (members : list (jsstring * json)).

Module JSON.

Definition is_ws (c : N) : bool :=
  ((c =? 32) || (c =? 9) || (c =? 10) || (c =? 13))%N.

Fixpoint skip_ws (s : jsstring) : jsstring :=
  match s with
  | [] => []
  | c :: r => if is_ws c then skip_ws r else s
  end.

Definition is_digit (c : N) : bool := ((48 <=? c) && (c <=? 57))%N.

Definition hex_val (c : N) : option N :=
  if is_digit c then Some (c - 48)%N
  else if ((97 <=? c) && (c <=? 102))%N then Some (c - 87)%N
  else if ((65 <=? c) && (c <=? 70))%N then Some (c - 55)%N
  else None.

Definition hex4 (a b c d : N) : option N :=
  match hex_val a, hex_val b, hex_val c, hex_val d with
  | Some x, Some y, Some z, Some w => Some (((x * 16 + y) * 16 + z) * 16 + w)%N
  | _, _, _, _ => None
  end.

(** The character denoted by a one-letter escape. *)
Definition unescape (e : N) : option N :=
  if (e =? 34)%N then Some 34%N          (* quote *)
  else if (e =? 92)%N then Some 92%N     (* backslash *)
  else if (e =? 47)%N then Some 47%N     (* slash *)
  else if (e =? 98)%N then Some 8%N      (* b: backspace *)
  else if (e =? 102)%N then Some 12%N    (* f: form feed *)
  else if (e =? 110)%N then Some 10%N    (* n: line feed *)
  else if (e =? 114)%N then Some 13%N    (* r: carriage return *)
  else if (e =? 116)%N then Some 9%N     (* t: tab *)
  else None.

(** The characters of a string literal after its opening quote; returns
    the decoded string and the text after the closing quote. *)
Fixpoint string_chars (s acc : jsstring) : option (jsstring * jsstring) :=
  match s with
  | [] => None
  | c :: r =>
      if (c =? 34)%N then Some (rev acc, r)
      else if (c =? 92)%N then
        match r with
        | [] => None
        | e :: r1 =>
            if (e =? 117)%N then
              match r1 with
              | h1 :: h2 :: h3 :: h4 :: r2 =>
                  match hex4 h1 h2 h3 h4 with
                  | Some u => string_chars r2 (u :: acc)
                  | None => None
                  end
              | _ => None
              end
            else
              match unescape e with
              | Some u => string_chars r1 (u :: acc)
              | None => None
              end
        end
      else if (c <? 32)%N then None
      else string_chars r (c :: acc)
  end.

Fixpoint take_digits (s : jsstring) : jsstring * jsstring :=
  match s with
  | [] => ([], [])
  | c :: r =>
      if is_digit c then let (d, r') := take_digits r in (c :: d, r')
      else ([], s)
  end.

Definition digits_value (d : jsstring) : Z :=
  fold_left (fun a c => 10 * a + Z.of_N (c - 48))%Z d 0%Z.

Fixpoint strip_zeros (k : nat) (m e : Z) : Z * Z :=
  match k with
  | O => (m, e)
  | S k' =>
      if ((e <? 0) && (m mod 10 =? 0))%Z
      then strip_zeros k' (m / 10)%Z (e + 1)%Z
      else (m, e)
  end.

Definition normalize (m e : Z) : Z * Z :=
  if (m =? 0)%Z then (0, 0)%Z
  else if (0 <=? e)%Z then (m * 10 ^ e, 0)%Z
  else strip_zeros (Z.to_nat (- e)) m e.

(** The integer nearest to [a / b] for [0 <= a] and [0 < b]; of the two
    nearest ones the even one. *)
Definition round_half_even (a b : Z) : Z :=
  let q := (a / b)%Z in
  match (2 * (a mod b) ?= b)%Z with
  | Lt => q
  | Gt => (q + 1)%Z
  | Eq => if Z.even q then q else (q + 1)%Z
  end.

(** The double nearest to [n / d] for [0 <= n] and [0 < d], ties to the even
    significand, with the sign [neg].  [lg] is the integer part of the binary
    logarithm of [n / d]; the double is [s * 2^q] with a significand [s] of
    53 bits, or of fewer bits at the least exponent -1074; the largest
    finite double is [(2^53 - 1) * 2^971], and what rounds beyond it is an
    infinity.  [s * 2^q] is [s * 5^(-q) * 10^q] when [q < 0]. *)
Definition nearest_double (neg : bool) (n d : Z) : json :=
  if (n =? 0)%Z then JNum 0 0
  else
    let k := (Z.log2 n - Z.log2 d)%Z in
    let lg := if (n * 2 ^ Z.max 0 (- k) <? d * 2 ^ Z.max 0 k)%Z
              then (k - 1)%Z else k in
    let q := Z.max (lg - 52) (-1074) in
    let s := round_half_even (n * 2 ^ Z.max 0 (- q)) (d * 2 ^ Z.max 0 q) in
    if ((971 <? q) || ((q =? 971) && (s =? 2 ^ 53)))%Z then JInf neg
    else
      let (m, e) := if (0 <=? q)%Z then ((s * 2 ^ q)%Z, 0%Z)
                    else normalize (s * 5 ^ (- q)) q in
      JNum (if neg then - m else m)%Z e.

(** The value of a literal: the double nearest to the decimal that it
    writes, [digits * 10^(exp - length frac)]. *)
Definition number_of (neg : bool) (int frac : jsstring) (exp : Z) : json :=
  let d := digits_value (int ++ frac) in
  let e := (exp - Z.of_nat (length frac))%Z in
  if (0 <=? e)%Z then nearest_double neg (d * 10 ^ e) 1
  else nearest_double neg d (10 ^ (- e)).

(** A number literal: an optional minus sign, an integer part without a
    superfluous leading zero, an optional fraction (a dot and at least one
    digit) and an optional exponent (e or E, an optional sign, at least one
    digit).  Each part returns what it has read and the text after it. *)
Definition sign (s : jsstring) : bool * jsstring :=
  match s with
  | c :: r => if (c =? 45)%N then (true, r) else (false, s)
  | [] => (false, s)
  end.

Definition int_part (s : jsstring) : option (jsstring * jsstring) :=
  let (d, r) := take_digits s in
  match d with
  | [] => None
  | d0 :: ds =>
      if ((d0 =? 48)%N && negb (Nat.eqb (length ds) 0)) then None
      else Some (d, r)
  end.

Definition frac_part (s : jsstring) : option (jsstring * jsstring) :=
  match s with
  | c :: r =>
      if (c =? 46)%N then
        let (f, r') := take_digits r in
        match f with [] => None | _ :: _ => Some (f, r') end
      else Some ([], s)
  | [] => Some ([], s)
  end.

Definition exp_part (s : jsstring) : option (Z * jsstring) :=
  match s with
  | c :: r =>
      if ((c =? 101) || (c =? 69))%N then
        let (eneg, r1) :=
          match r with
          | c1 :: r' =>
              if (c1 =? 45)%N then (true, r')
              else if (c1 =? 43)%N then (false, r')
              else (false, r)
          | [] => (false, r)
          end in
        let (ed, r2) := take_digits r1 in
        match ed with
        | [] => None
        | _ :: _ =>
            let x := digits_value ed in
            Some ((if eneg then - x else x)%Z, r2)
        end
      else Some (0%Z, s)
  | [] => Some (0%Z, s)
  end.

Definition number (s : jsstring) : option (json * jsstring) :=
  let (neg, s1) := sign s in
  match int_part s1 with
  | None => None
  | Some (int, s2) =>
      match frac_part s2 with
      | None => None
      | Some (frac, s3) =>
          match exp_part s3 with
          | None => None
          | Some (e, s4) => Some (number_of neg int frac e, s4)
          end
      end
  end.

Definition keyword (s : jsstring) : option (json * jsstring) :=
  if starts_with (js "true") s then Some (JBool true, skipn 4 s)
  else if starts_with (js "false") s then Some (JBool false, skipn 5 s)
  else if starts_with (js "null") s then Some (JNull, skipn 4 s)
  else None.

(** Recursive descent over the grammar of ECMA-404.  From one recursive
    call to the next at least one character is consumed, except from
    [elements] to the [value] of an element, which comes right after the call
    that consumed the bracket or the comma; so a fuel above twice the length
    of the text is never exhausted. *)
Fixpoint value (fuel : nat) (s : jsstring) : option (json * jsstring) :=
  match fuel with
  | O => None
  | S f =>
      match skip_ws s with
      | [] => None
      | c :: r =>
          if (c =? 123)%N then
            match skip_ws r with
            | [] => None
            | c2 :: r2 =>
                if (c2 =? 125)%N then Some (JObj [], r2)
                else members f (c2 :: r2) []
            end
          else if (c =? 91)%N then
            match skip_ws r with
            | [] => None
            | c2 :: r2 =>
                if (c2 =? 93)%N then Some (JArr [], r2)
                else elements f (c2 :: r2) []
            end
          else if (c =? 34)%N then
            match string_chars r [] with
            | Some (str, r1) => Some (JStr str, r1)
            | None => None
            end
          else if ((c =? 116) || (c =? 102) || (c =? 110))%N then keyword (c :: r)
          else number (c :: r)
      end
  end
with members (fuel : nat) (s : jsstring) (acc : list (jsstring * json))
  : option (json * jsstring) :=
  match fuel with
  | O => None
  | S f =>
      match skip_ws s with
      | [] => None
      | c :: r =>
          if (c =? 34)%N then
            match string_chars r [] with
            | None => None
            | Some (k, r1) =>
                match skip_ws r1 with
                | [] => None
                | c1 :: r2 =>
                    if (c1 =? 58)%N then
                      match value f r2 with
                      | None => None
                      | Some (v, r3) =>
                          match skip_ws r3 with
                          | [] => None
                          | c3 :: r4 =>
                              if (c3 =? 44)%N then members f r4 ((k, v) :: acc)
                              else if (c3 =? 125)%N
                                   then Some (JObj (rev ((k, v) :: acc)), r4)
                                   else None
                          end
                      end
                    else None
                end
            end
          else None
      end
  end
with elements (fuel : nat) (s : jsstring) (acc : list json)
  : option (json * jsstring) :=
  match fuel with
  | O => None
  | S f =>
      match value f s with
      | None => None
      | Some (v, r1) =>
          match skip_ws r1 with
          | [] => None
          | c :: r2 =>
              if (c =? 44)%N then elements f r2 (v :: acc)
              else if (c =? 93)%N then Some (JArr (rev (v :: acc)), r2)
              else None
          end
      end
  end.

(** [JSON.parse(text)]: [None] stands for the thrown [SyntaxError]. *)
Definition parse (text : jsstring) : option json :=
  match value (S (2 * length text)) text with
  | Some (v, r) => match skip_ws r with [] => Some v | _ :: _ => None end
  | None => None
  end.

End JSON.

(** Values of the language that reach the code: the parsed JSON values, and
    [undefined], which is [None] in an [option json]. *)
Definition truthy (v : json) : bool :=
  match v with
  | JNull => false
  | JBool b => b
  | JNum m _ => negb (m =? 0)%Z
  | JInf _ => true
  | JStr s => match s with [] => false | _ => true end
  | JArr _ | JObj _ => true
  end.

Definition truthy_opt (v : option json) : bool :=
  match v with Some x => truthy x | None => false end.

(** The value of a property of a parsed object: with duplicate names the
    last member wins. *)
Fixpoint lookup_member (k : jsstring) (l : list (jsstring * json)) : option json :=
  match l with
  | [] => None
  | (k', v) :: r =>
      match lookup_member k r with
      | Some w => Some w
      | None => if jsstring_eqb k k' then Some v else None
      end
  end.

(** [v.k] for the property names the code reads ([id], [error], [result],
    [message], [tools], [prompts]): no prototype defines them, so they are
    [undefined] on anything but an object that has them.  Reading a property
    of [null] throws a [TypeError], the outer [None]. *)
Definition get_prop (v : json) (k : jsstring) : option (option json) :=
  match v with
  | JNull => None
  | JObj l => Some (lookup_member k l)
  | _ => Some None
  end.

(* ================================================================== *)
(** * The message framer: [StdioClientTransport._parseJsonResponses] *)

(** The [for] loop that looks for the end of the first brace-balanced span:
    the result is [endPos], [None] for [-1]. *)
Fixpoint scan_braces (s : jsstring) (i openBrackets closeBrackets : nat) : option nat :=
  match s with
  | [] => None
  | c :: r =>
      let openBrackets := if (c =? 123)%N then S openBrackets else openBrackets in
      if (c =? 125)%N then
        let closeBrackets := S closeBrackets in
        if Nat.eqb openBrackets closeBrackets then Some (S i)
        else scan_braces r (S i) openBrackets closeBrackets
      else scan_braces r (S i) openBrackets closeBrackets
  end.

Definition find_end (remaining : jsstring) : option nat :=
  scan_braces remaining 0 0 0.

(** The [while (remaining.length > 0)] loop; the result is what the loop
    pushes onto [responses] from this point on.  [remaining] gets shorter in
    every iteration that does not leave the loop. *)
Fixpoint parse_loop (fuel : nat) (remaining : jsstring) : list json :=
  match fuel with
  | O => []
  | S f =>
      match remaining with
      | [] => []
      | _ :: _ =>
          match JSON.parse remaining with
          | Some parsedObj => [parsedObj]
          | None =>
              match find_end remaining with
              | None => []
              | Some endPos =>
                  match JSON.parse (substring_to endPos remaining) with
                  | Some parsedObj =>
                      parsedObj :: parse_loop f (trim (substring_from endPos remaining))
                  | None => parse_loop f (trim (substring_from 1 remaining))
                  end
              end
          end
      end
  end.

Definition _parseJsonResponses (text : jsstring) : list json :=
  let remaining := trim text in
  parse_loop (S (length remaining)) remaining.

(* ================================================================== *)
(** * The runtime's [Map] *)

(** A [Map] keeps its entries in insertion order and holds a key at most
    once: [set] on a key that is present replaces the value in place. *)
Class Eqb (K : Type) : Type := eqb : K -> K -> bool.

(** The comparison decides equality of keys. *)
Class EqbSpec (K : Type) `{Eqb K} : Prop :=
  eqb_eq : forall a b : K, eqb a b = true <-> a = b.

Module Map.
Section Ops.
Context {K V : Type} `{Eqb K}.

Definition t := list (K * V).

Fixpoint get (k : K) (m : t) : option V :=
  match m with
  | [] => None
  | (k', v) :: r => if eqb k k' then Some v else get k r
  end.

Definition has (k : K) (m : t) : bool :=
  match get k m with Some _ => true | None => false end.

Fixpoint set (k : K) (v : V) (m : t) : t :=
  match m with
  | [] => [(k, v)]
  | (k', v') :: r => if eqb k k' then (k, v) :: r else (k', v') :: set k v r
  end.

Fixpoint delete (k : K) (m : t) : t :=
  match m with
  | [] => []
  | (k', v') :: r => if eqb k k' then delete k r else (k', v') :: delete k r
  end.

Definition keys (m : t) : list K := map fst m.
End Ops.
Arguments t : clear implicits.
End Map.

(* ================================================================== *)
(** * Request ids, promises and errors *)

(** A request id is an integer or a string. *)
Inductive rpc_id : Type :=
| IdNum (n : Z)
| IdStr (s : jsstring).

Definition rpc_id_eqb (a b : rpc_id) : bool :=
  match a, b with
  | IdNum x, IdNum y => (x =? y)%Z
  | IdStr x, IdStr y => jsstring_eqb x y
  | _, _ => false
  end.

#[export] Instance rpc_id_Eqb : Eqb rpc_id := rpc_id_eqb.
#[export] Instance jsstring_Eqb : Eqb jsstring := jsstring_eqb.

(** Truthiness of an id: [0] and the empty string are falsy. *)
Definition id_truthy (i : rpc_id) : bool :=
  match i with
  | IdNum n => negb (n =? 0)%Z
  | IdStr s => match s with [] => false | _ :: _ => true end
  end.

(** The key of [responseHandlers] that a parsed value is the same value as
    (the comparison of [Map.prototype.has]): an integer or a string is the
    key of that value, and nothing else equals an integer or string key. *)
Definition id_of_json (v : json) : option rpc_id :=
  match v with
  | JNum n 0%Z => Some (IdNum n)
  | JStr s => Some (IdStr s)
  | _ => None
  end.

(** [new Error(message)].  [Error] holds a message that is a string;
    [ErrorOf x] is [new Error(x)] for a value [x] that is not a string,
    whose message is the string conversion of [x]. *)
Inductive js_error : Type :=
| Error (message : jsstring)
| ErrorOf (x : json).

Definition new_Error (x : json) : js_error :=
  match x with
  | JStr s => Error s
  | _ => ErrorOf x
  end.

(** The outcome of a call that may throw [new Error(message)]. *)
Inductive result (A : Type) : Type :=
| Ok (a : A)
| Throw (message : jsstring).
Arguments Ok {A} a.
Arguments Throw {A} message.

(** A promise is named by its creation rank. *)
Definition promise := nat.

Inductive settlement : Type :=
| Resolved (value : option json)
| Rejected (reason : js_error).

(* ================================================================== *)
(** * Child processes *)

(** The child process object as the bridge sees it.  [kill_error] is what
    the operating system makes of a [kill()]: [Some message] when the call
    throws.  [stdin] holds what was written to the child, a line per
    request: the serialization of the request object with [jsonrpc: "2.0"],
    of which the id, the method and the params are kept. *)
Record ChildProcess : Type := mkChild {
  killed : bool;
  exited : bool;
  kill_error : option jsstring;
  stdin : list (rpc_id * jsstring * option json)
}.

(** [process.kill()]: the [killed] flag is set when the signal is delivered,
    which it is not to a process that has exited. *)
Definition kill (c : ChildProcess) : result ChildProcess :=
  match kill_error c with
  | Some message => Throw message
  | None =>
      Ok (if exited c then c
          else mkChild true (exited c) (kill_error c) (stdin c))
  end.

Definition stdin_write (line : rpc_id * jsstring * option json) (c : ChildProcess)
  : ChildProcess :=
  mkChild (killed c) (exited c) (kill_error c) (stdin c ++ [line]).

(* ================================================================== *)
(** * [StdioClientTransport] *)

(** [process] is the handle of the child process object. *)
Record StdioClientTransport : Type := mkTransport {
  process : nat;
  responseHandlers : Map.t rpc_id promise;
  lastRequestId : Z
}.

(** The request object given to [sendRequest]. *)
Record requestObj : Type := mkRequest {
  req_id : option rpc_id;
  req_method : jsstring;
  req_params : option json
}.

(** One transport on the event loop: the transport, the process object its
    [process] field refers to, the clock in milliseconds, the timers set by
    [setTimeout] and not yet run (due time, and the [requestId] and promise
    their callback has captured), the callbacks of [stdin.write] not yet
    called, the promises settled so far in the order of their settlement,
    and the number of promises created. *)
Record Loop : Type := mkLoop {
  transport : StdioClientTransport;
  child : ChildProcess;
  clock : N;
  timers : list (N * (rpc_id * promise));
  writes : list (rpc_id * promise);
  settled : list (promise * settlement);
  promises : nat
}.

Definition handlers (L : Loop) : Map.t rpc_id promise :=
  responseHandlers (transport L).

Definition with_handlers (h : Map.t rpc_id promise) (L : Loop) : Loop :=
  mkLoop (mkTransport (process (transport L)) h (lastRequestId (transport L)))
         (child L) (clock L) (timers L) (writes L) (settled L) (promises L).

Fixpoint settlement_of (p : promise) (l : list (promise * settlement))
  : option settlement :=
  match l with
  | [] => None
  | (q, s) :: r => if Nat.eqb p q then Some s else settlement_of p r
  end.

(** [resolve] and [reject] of a promise: only the first call settles it. *)
Definition settle (p : promise) (s : settlement) (L : Loop) : Loop :=
  match settlement_of p (settled L) with
  | Some _ => L
  | None =>
      mkLoop (transport L) (child L) (clock L) (timers L) (writes L)
             (settled L ++ [(p, s)]) (promises L)
  end.

Definition timeout_error : js_error :=
  Error (js "Request timed out after 30 seconds").

(** [requestObj.id || ++this.lastRequestId]: the id of the request and the
    counter afterwards. *)
Definition next_request_id (requestObj : requestObj) (lastRequestId : Z) : rpc_id * Z :=
  match req_id requestObj with
  | Some i =>
      if id_truthy i then (i, lastRequestId)
      else (IdNum (lastRequestId + 1), (lastRequestId + 1)%Z)
  | None => (IdNum (lastRequestId + 1), (lastRequestId + 1)%Z)
  end.

(** [sendRequest(requestObj)].  The function is [async]: the promise it
    returns is rejected when the body throws. *)
Definition sendRequest (requestObj : requestObj) (L : Loop) : Loop * promise :=
  let p := promises L in
  if killed (child L) then
    (settle p (Rejected (Error (js "Process not available")))
            (mkLoop (transport L) (child L) (clock L) (timers L) (writes L)
                    (settled L) (S p)),
     p)
  else
    let t := transport L in
    let (requestId, last) := next_request_id requestObj (lastRequestId t) in
    (mkLoop (mkTransport (process t)
                         (Map.set requestId p (responseHandlers t)) last)
            (stdin_write (requestId, req_method requestObj, req_params requestObj)
                         (child L))
            (clock L)
            (timers L ++ [((clock L + 30000)%N, (requestId, p))])
            (writes L ++ [(requestId, p)])
            (settled L) (S p),
     p).

(** The callback given to [stdin.write], called with [err]. *)
Definition write_callback (requestId : rpc_id) (p : promise)
    (err : option jsstring) (L : Loop) : Loop :=
  match err with
  | Some message =>
      settle p (Rejected (Error (js "Failed to write to process: " ++ message)))
             (with_handlers (Map.delete requestId (handlers L)) L)
  | None => L
  end.

(** The callback given to [setTimeout]. *)
Definition timeout_callback (requestId : rpc_id) (p : promise) (L : Loop) : Loop :=
  if Map.has requestId (handlers L) then
    settle p (Rejected timeout_error)
           (with_handlers (Map.delete requestId (handlers L)) L)
  else L.

(** [v.k] for a value [v] that is not [null]. *)
Definition member (v : json) (k : jsstring) : option json :=
  match get_prop v k with
  | Some x => x
  | None => None
  end.

(** [new Error(message || 'Unknown error')]. *)
Definition error_or_unknown (message : option json) : js_error :=
  match message with
  | Some m => if truthy m then new_Error m else Error (js "Unknown error")
  | None => Error (js "Unknown error")
  end.

(** What the handler of a matched response is called with:
    [if (response.error) reject(...) else resolve(response.result)]. *)
Definition settlement_for (response : json) : settlement :=
  match member response (js "error") with
  | Some error =>
      if truthy error
      then Rejected (error_or_unknown (member error (js "message")))
      else Resolved (member response (js "result"))
  | None => Resolved (member response (js "result"))
  end.

(** The body of the [for] loop of [_handleProcessOutput] for one response;
    [None] when it throws (reading [id] of [null]). *)
Definition dispatch (response : json) (L : Loop) : option Loop :=
  match get_prop response (js "id") with
  | None => None
  | Some id =>
      match id with
      | Some v =>
          if truthy v then
            match id_of_json v with
            | Some key =>
                match Map.get key (handlers L) with
                | Some p =>
                    Some (settle p (settlement_for response)
                            (with_handlers (Map.delete key (handlers L)) L))
                | None => Some L
                end
            | None => Some L
            end
          else Some L
      | None => Some L
      end
  end.

(** The [for] loop inside the [try] of [_handleProcessOutput]: an exception
    leaves the loop and is caught and logged. *)
Fixpoint dispatch_all (responses : list json) (L : Loop) : Loop :=
  match responses with
  | [] => L
  | response :: rest =>
      match dispatch response L with
      | Some L' => dispatch_all rest L'
      | None => L
      end
  end.

(** [_handleProcessOutput(data)]: the chunk is framed on its own; nothing of
    it is kept for the next call. *)
Definition _handleProcessOutput (data : jsstring) (L : Loop) : Loop :=
  dispatch_all (_parseJsonResponses data) L.

(** [close()]. *)
Definition close_process (c : ChildProcess) : result ChildProcess :=
  if killed c then Ok c else kill c.

(** ** The event loop *)

Inductive event : Type :=
| Send (request : requestObj)                 (* a caller calls [sendRequest] *)
| Stdout (data : jsstring)                    (* ['data'] on the child's stdout *)
| WriteDone (k : nat) (err : option jsstring) (* the k-th outstanding write calls back *)
| Elapse (ms : N)                             (* time passes, due timers run *)
| Close.                                      (* a caller calls [close] *)

Definition is_due (now : N) (t : N * (rpc_id * promise)) : bool :=
  (fst t <=? now)%N.

Definition run_timers (due : list (N * (rpc_id * promise))) (L : Loop) : Loop :=
  fold_left (fun L t => timeout_callback (fst (snd t)) (snd (snd t)) L) due L.

Definition elapse (ms : N) (L : Loop) : Loop :=
  let now := (clock L + ms)%N in
  run_timers (filter (is_due now) (timers L))
    (mkLoop (transport L) (child L) now
            (filter (fun t => negb (is_due now t)) (timers L))
            (writes L) (settled L) (promises L)).

Fixpoint remove_nth {A} (k : nat) (l : list A) : list A :=
  match l, k with
  | [], _ => []
  | _ :: r, O => r
  | x :: r, S k' => x :: remove_nth k' r
  end.

Definition step (L : Loop) (e : event) : Loop :=
  match e with
  | Send request => fst (sendRequest request L)
  | Stdout data => _handleProcessOutput data L
  | WriteDone k err =>
      match nth_error (writes L) k with
      | Some (requestId, p) =>
          write_callback requestId p err
            (mkLoop (transport L) (child L) (clock L) (timers L)
                    (remove_nth k (writes L)) (settled L) (promises L))
      | None => L
      end
  | Elapse ms => elapse ms L
  | Close =>
      match close_process (child L) with
      | Ok c => mkLoop (transport L) c (clock L) (timers L) (writes L)
                       (settled L) (promises L)
      | Throw _ => L
      end
  end.

Definition run (L : Loop) (events : list event) : Loop :=
  fold_left step events L.

(** The transport that [new StdioClientTransport({process})] builds over a
    process that was handed to it. *)
Definition new_transport (handle : nat) : StdioClientTransport :=
  mkTransport handle [] 0.

Definition fresh_child : ChildProcess := mkChild false false None [].

Definition new_loop : Loop :=
  mkLoop (new_transport 0) fresh_child 0 [] [] [] 0.

(* ================================================================== *)
(** * [Client] *)

Record Client : Type := mkClient {
  clientInfo_name : jsstring;
  isConnected : bool;
  client_transport : option StdioClientTransport
}.

(** [new Client(clientInfo)]. *)
Definition new_Client (name : jsstring) : Client := mkClient name false None.

(** [connect(transport)]: it sets the two fields and returns [true]; it has
    no failing path. *)
Definition Client_connect (c : Client) (t : StdioClientTransport)
  : result (Client * bool) :=
  Ok (mkClient (clientInfo_name c) true (Some t), true).

(** [request(requestObj)]; [reply] is what the promise of
    [transport.sendRequest(requestObj)] settles to. *)
Definition Client_request (c : Client) (reply : settlement) : settlement :=
  match isConnected c, client_transport c with
  | true, Some _ => reply
  | _, _ => Rejected (Error (js "Client not connected"))
  end.

(* ================================================================== *)
(** * The bridge's module state *)

Record connection : Type := mkConnection {
  conn_ref : nat;                       (* identity of the object *)
  client : Client;
  conn_transport : StdioClientTransport
}.

(** [procs] holds every child process object created so far, a handle being
    an index into it; [activeClients] and [activeProcesses] are the two
    module-level maps; [console_error] collects what the [catch] blocks
    log, as (server id, message). *)
Record World : Type := mkWorld {
  procs : list ChildProcess;
  activeClients : Map.t jsstring connection;
  activeProcesses : Map.t jsstring nat;
  objects : nat;
  console_error : list (jsstring * jsstring)
}.

Definition empty_world : World := mkWorld [] [] [] 0 [].

Definition M (A : Type) : Type := World -> World * result A.

Definition ret {A} (a : A) : M A := fun w => (w, Ok a).
Definition throw {A} (message : jsstring) : M A := fun w => (w, Throw message).
Definition bind {A B} (c : M A) (k : A -> M B) : M B :=
  fun w => match c w with
           | (w', Ok a) => k a w'
           | (w', Throw message) => (w', Throw message)
           end.
Definition try_catch {A} (c : M A) (handler : jsstring -> M A) : M A :=
  fun w => match c w with
           | (w', Ok a) => (w', Ok a)
           | (w', Throw message) => handler message w'
           end.

Notation "x <- c ;; k" := (bind c (fun x => k))
  (at level 61, c at next level, right associativity).
Notation "c ;;; k" := (bind c (fun _ => k))
  (at level 61, right associativity).

Fixpoint update_nth {A} (k : nat) (a : A) (l : list A) : list A :=
  match l, k with
  | [], _ => []
  | _ :: r, O => a :: r
  | x :: r, S k' => x :: update_nth k' a r
  end.

Definition set_proc (h : nat) (c : ChildProcess) : M unit :=
  fun w => (mkWorld (update_nth h c (procs w)) (activeClients w)
                    (activeProcesses w) (objects w) (console_error w), Ok tt).

Definition log_error (serverId message : jsstring) : M unit :=
  fun w => (mkWorld (procs w) (activeClients w) (activeProcesses w) (objects w)
                    (console_error w ++ [(serverId, message)]), Ok tt).

(** [transport.close()]: [if (this.process && !this.process.killed)
    this.process.kill()]. *)
Definition Transport_close (t : StdioClientTransport) : M unit :=
  fun w => match nth_error (procs w) (process t) with
           | None => (w, Ok tt)
           | Some c =>
               match close_process c with
               | Ok c' => set_proc (process t) c' w
               | Throw message => (w, Throw message)
               end
           end.

(* ================================================================== *)
(** * The process supervisor: [spawnMCPProcess] *)

(** What the child does during the 500 ms that follow [spawn]. *)
Inductive child_event : Type :=
| OnError (message : jsstring)      (* ['error'] on the process *)
| OnExit (code : option Z)          (* ['exit'], [None] for a [null] code *)
| OnStdout (data : jsstring)
| OnStderr (data : jsstring).

(** How a spawn goes: [spawn_throws] when [spawn] itself throws, else the
    events of the grace window in their order, and what a later [kill()] of
    this process will do. *)
Record behaviour : Type := mkBehaviour {
  spawn_throws : option jsstring;
  grace_events : list child_event;
  kill_throws : option jsstring
}.

(** The state of the promise that [spawnMCPProcess] returns. *)
Record startup : Type := mkStartup {
  startupErrorReceived : bool;
  spawn_settled : option (result unit);
  stdoutBuffer : jsstring;
  stderrBuffer : jsstring
}.

Definition settle_spawn (r : result unit) (s : startup) : startup :=
  match spawn_settled s with
  | Some _ => s
  | None => mkStartup (startupErrorReceived s) (Some r) (stdoutBuffer s) (stderrBuffer s)
  end.

Definition set_flag (s : startup) : startup :=
  mkStartup true (spawn_settled s) (stdoutBuffer s) (stderrBuffer s).

Fixpoint digits_of (fuel : nat) (n : N) (acc : jsstring) : jsstring :=
  match fuel with
  | O => acc
  | S f =>
      let acc' := (48 + n mod 10)%N :: acc in
      if (n / 10 =? 0)%N then acc' else digits_of f (n / 10)%N acc'
  end.

(** The string conversion of an integer, as a template literal does it. *)
Definition Z_to_js (z : Z) : jsstring :=
  let n := Z.abs_N z in
  let d := digits_of (S (N.to_nat (N.log2 n))) n [] in
  if (z <? 0)%Z then 45%N :: d else d.

Definition is_fatal_stderr (output : jsstring) : bool :=
  includes output (js "ENOENT")
  || includes output (js "command not found")
  || includes output (js "Error: Cannot find module").

(** The four event handlers that the promise executor installs. *)
Definition on_child_event (e : child_event) (s : startup) : startup :=
  match e with
  | OnError message => settle_spawn (Throw message) (set_flag s)
  | OnExit code =>
      match code with
      | Some c =>
          if negb (c =? 0)%Z then
            if startupErrorReceived s then s
            else set_flag (settle_spawn
                             (Throw (js "Process exited with code " ++ Z_to_js c)) s)
          else s
      | None => s
      end
  | OnStdout output =>
      mkStartup (startupErrorReceived s) (spawn_settled s)
                (stdoutBuffer s ++ output) (stderrBuffer s)
  | OnStderr output =>
      let s1 := mkStartup (startupErrorReceived s) (spawn_settled s)
                          (stdoutBuffer s) (stderrBuffer s ++ output) in
      if is_fatal_stderr output then
        if startupErrorReceived s1 then s1
        else set_flag (settle_spawn
                         (Throw (js "Process startup error: " ++ trim output)) s1)
      else s1
  end.

(** The callback of [setTimeout(..., 500)]. *)
Definition grace_timer (process_killed : bool) (s : startup) : startup :=
  if process_killed then
    settle_spawn (Throw (js "Process was killed during startup")) s
  else if startupErrorReceived s then s
  else settle_spawn (Ok tt) s.

Definition startup0 : startup := mkStartup false None [] [].

Definition after_grace (events : list child_event) : startup :=
  grace_timer false (fold_left (fun s e => on_child_event e s) events startup0).

Definition has_stopped (e : child_event) : bool :=
  match e with
  | OnError _ | OnExit _ => true
  | OnStdout _ | OnStderr _ => false
  end.

(** The process object that [spawn] returned, as it stands when the grace
    timer has run: nothing has called [kill] on it. *)
Definition spawned_child (b : behaviour) : ChildProcess :=
  mkChild false (existsb has_stopped (grace_events b)) (kill_throws b) [].

Definition alloc_proc (c : ChildProcess) : M nat :=
  fun w => (mkWorld (procs w ++ [c]) (activeClients w) (activeProcesses w)
                    (objects w) (console_error w), Ok (length (procs w))).

(** [spawnMCPProcess(command, args)].  The resolution of the script paths in
    [args], the environment and the working directory decide what is handed
    to [spawn]; none of it can throw out of its [try] blocks, and what the
    child then does is the [behaviour]. *)
Definition spawnMCPProcess (command : jsstring) (args : list jsstring)
    (b : behaviour) : M nat :=
  match command with
  | [] => throw (js "No command specified for MCP process")
  | _ :: _ =>
      match spawn_throws b with
      | Some message => throw message
      | None =>
          mcpProcess <- alloc_proc (spawned_child b) ;;
          match spawn_settled (after_grace (grace_events b)) with
          | Some (Ok _) => ret mcpProcess
          | Some (Throw message) => throw message
          | None => throw []
          end
      end
  end.

(* ================================================================== *)
(** * The connection registry: [getOrCreateClient] and [cleanupClients] *)

Definition set_activeProcess (key : jsstring) (h : nat) : M unit :=
  fun w => (mkWorld (procs w) (activeClients w)
                    (Map.set key h (activeProcesses w)) (objects w)
                    (console_error w), Ok tt).

Definition set_activeClient (key : jsstring) (c : connection) : M unit :=
  fun w => (mkWorld (procs w) (Map.set key c (activeClients w))
                    (activeProcesses w) (objects w) (console_error w), Ok tt).

Definition new_object : M nat :=
  fun w => (mkWorld (procs w) (activeClients w) (activeProcesses w)
                    (S (objects w)) (console_error w), Ok (objects w)).

(** [serverId || serverCommand], where an omitted [serverId] defaults to
    [serverCommand]. *)
Definition clientKey_of (serverCommand : jsstring) (serverId : option jsstring)
  : jsstring :=
  match serverId with
  | Some (c :: r) => c :: r
  | Some [] | None => serverCommand
  end.

(** [new StdioClientTransport({process, ...})] with a process handed in: the
    constructor installs its listeners on it. *)
Definition new_StdioClientTransport (processToUse : nat) : M StdioClientTransport :=
  ret (new_transport processToUse).

(** The part of [getOrCreateClient] from the creation of the transport to
    its end. *)
Definition connect_and_store (clientKey : jsstring) (processToUse : nat) : M connection :=
  transport <-
    try_catch (new_StdioClientTransport processToUse)
      (fun message => throw (js "Failed to create MCP transport: " ++ message)) ;;
  let client0 := new_Client (js "mcp-client-" ++ clientKey) in
  try_catch
    (match Client_connect client0 transport with
     | Ok (connected, _) =>
         ref <- new_object ;;
         let connection := mkConnection ref connected transport in
         set_activeClient clientKey connection ;;;
         ret connection
     | Throw message => throw message
     end)
    (fun message =>
       try_catch (Transport_close transport)
                 (fun closeError => log_error clientKey closeError) ;;;
       throw message).

Definition getOrCreateClient (serverCommand : jsstring) (serverArgs : list jsstring)
    (serverId : option jsstring) (b : behaviour) : M connection :=
  let clientKey := clientKey_of serverCommand serverId in
  fun w =>
    match Map.get clientKey (activeClients w) with
    | Some cached => (w, Ok cached)
    | None =>
        (processToUse <-
           try_catch
             (fun w1 =>
                match Map.get clientKey (activeProcesses w1) with
                | Some existing => (w1, Ok existing)
                | None =>
                    (spawned <- spawnMCPProcess serverCommand serverArgs b ;;
                     set_activeProcess clientKey spawned ;;;
                     ret spawned) w1
                end)
             (fun message => throw (js "Failed to create MCP process: " ++ message)) ;;
         connect_and_store clientKey processToUse) w
    end.

(** The call as the event loop runs it.  [getOrCreateClient] suspends at
    [await spawnMCPProcess(...)] for the grace window: [begin] is what runs
    at the call, up to that point, and [resume] what runs once the promise
    of the spawn has settled; other calls may run in between. *)
Inductive started : Type :=
| Cached (c : connection)           (* the stored connection is returned *)
| Reusing (existing : nat)          (* a stored process is taken *)
| Awaiting (spawn : result nat).    (* what the promise of the spawn settles to *)

Definition getOrCreateClient_begin (serverCommand : jsstring)
    (serverArgs : list jsstring) (serverId : option jsstring) (b : behaviour)
  : World -> World * started :=
  let clientKey := clientKey_of serverCommand serverId in
  fun w =>
    match Map.get clientKey (activeClients w) with
    | Some cached => (w, Cached cached)
    | None =>
        match Map.get clientKey (activeProcesses w) with
        | Some existing => (w, Reusing existing)
        | None =>
            let (w1, spawn) := spawnMCPProcess serverCommand serverArgs b w in
            (w1, Awaiting spawn)
        end
    end.

Definition getOrCreateClient_resume (serverCommand : jsstring)
    (serverId : option jsstring) (s : started) : M connection :=
  let clientKey := clientKey_of serverCommand serverId in
  match s with
  | Cached cached => ret cached
  | Reusing existing => connect_and_store clientKey existing
  | Awaiting (Ok spawned) =>
      set_activeProcess clientKey spawned ;;;
      connect_and_store clientKey spawned
  | Awaiting (Throw message) =>
      throw (js "Failed to create MCP process: " ++ message)
  end.

(** The first loop of [cleanupClients]. *)
Fixpoint close_transports (entries : list (jsstring * connection)) : M unit :=
  match entries with
  | [] => ret tt
  | (serverId, connection) :: rest =>
      try_catch (Transport_close (conn_transport connection))
                (fun message => log_error serverId message) ;;;
      close_transports rest
  end.

(** The second loop: [if (process && !process.killed) process.kill()]. *)
Definition kill_handle (h : nat) : M unit :=
  fun w => match nth_error (procs w) h with
           | None => (w, Ok tt)
           | Some c =>
               if killed c then (w, Ok tt)
               else match kill c with
                    | Ok c' => set_proc h c' w
                    | Throw message => (w, Throw message)
                    end
           end.

Fixpoint kill_processes (entries : list (jsstring * nat)) : M unit :=
  match entries with
  | [] => ret tt
  | (serverId, h) :: rest =>
      try_catch (kill_handle h) (fun message => log_error serverId message) ;;;
      kill_processes rest
  end.

Definition clear_activeClients : M unit :=
  fun w => (mkWorld (procs w) [] (activeProcesses w) (objects w)
                    (console_error w), Ok tt).

Definition clear_activeProcesses : M unit :=
  fun w => (mkWorld (procs w) (activeClients w) [] (objects w)
                    (console_error w), Ok tt).

Definition cleanupClients : M unit :=
  fun w =>
    (close_transports (activeClients w) ;;;
     clear_activeClients ;;;
     (fun w1 => kill_processes (activeProcesses w1) w1) ;;;
     clear_activeProcesses) w.

(* ================================================================== *)
(** * The bridge facade: [handleFetchMCPCapabilities] *)

Definition is_array (v : json) : bool :=
  match v with JArr _ => true | _ => false end.

(** An array index: a canonical numeric string denoting at most 2^32 - 2. *)
Definition array_index (k : jsstring) : option N :=
  match k with
  | [] => None
  | c :: r =>
      if forallb JSON.is_digit (c :: r)
         && ((negb (c =? 48)%N) || Nat.eqb (length r) 0)
         && Nat.leb (length (c :: r)) 10
      then
        let n := Z.to_N (JSON.digits_value (c :: r)) in
        if (n <=? 4294967294)%N then Some n else None
      else None
  end.

Fixpoint own_keys (ms : list (jsstring * json)) (seen : list jsstring) : list jsstring :=
  match ms with
  | [] => []
  | (k, _) :: r =>
      if existsb (jsstring_eqb k) seen then own_keys r seen
      else k :: own_keys r (k :: seen)
  end.

Fixpoint insert_index (n : N) (k : jsstring) (l : list (N * jsstring))
  : list (N * jsstring) :=
  match l with
  | [] => [(n, k)]
  | (m, k') :: r =>
      if (n <? m)%N then (n, k) :: l else (m, k') :: insert_index n k r
  end.

(** The own property names of a parsed object in enumeration order: array
    indices in ascending order, then the other names in order of creation. *)
Definition ordered_keys (ms : list (jsstring * json)) : list jsstring :=
  let ks := own_keys ms [] in
  let idx := fold_left (fun acc k => match array_index k with
                                     | Some n => insert_index n k acc
                                     | None => acc
                                     end) ks [] in
  map snd idx
  ++ filter (fun k => match array_index k with Some _ => false | None => true end) ks.

(** [Object.values(v)] for a parsed object. *)
Definition Object_values (ms : list (jsstring * json)) : list json :=
  flat_map (fun k => match lookup_member k ms with
                     | Some v => [v]
                     | None => []
                     end) (ordered_keys ms).

(** The shape handling applied to the reply of [tools/list] and
    [prompts/list]; [name] is [tools] or [prompts]. *)
Definition list_of_response (name : jsstring) (response : option json) : list json :=
  match response with
  | None => []
  | Some v =>
      if truthy v then
        match v with
        | JArr l => l
        | _ =>
            match get_prop v name with
            | Some (Some (JArr l)) => l
            | _ =>
                match v with
                | JObj ms =>
                    match find is_array (Object_values ms) with
                    | Some (JArr l) => l
                    | _ => []
                    end
                | _ => []
                end
            end
        end
      else []
  end.

(** One [try { await client.request(...) ... } catch { }] block: a rejected
    request leaves the initial empty array. *)
Definition fetch_list (name : jsstring) (c : Client) (reply : settlement) : list json :=
  match Client_request c reply with
  | Resolved response => list_of_response name response
  | Rejected _ => []
  end.

Record capabilities : Type := mkCapabilities {
  tools : list json;
  prompts : list json;
  error : option jsstring;            (* [None] is [null], else [error.message] *)
  serverId_of : option jsstring
}.

(** [handleFetchMCPCapabilities(event, {command, args, serverId})];
    [tools_reply] and [prompts_reply] are what the two requests settle to. *)
Definition handleFetchMCPCapabilities (command : jsstring) (args : list jsstring)
    (serverId : option jsstring) (b : behaviour)
    (tools_reply prompts_reply : settlement) : M capabilities :=
  try_catch
    (match command with
     | [] => throw (js "Command is required to fetch MCP capabilities")
     | _ :: _ =>
         try_catch
           (connection <- getOrCreateClient command args serverId b ;;
            let client := client connection in
            let tools := fetch_list (js "tools") client tools_reply in
            let prompts := fetch_list (js "prompts") client prompts_reply in
            ret (mkCapabilities tools prompts None serverId))
           (fun bridgeError => throw bridgeError)
     end)
    (fun message =>
       ret (mkCapabilities [] [] (Some (match message with
                                        | [] => js "Unknown error"
                                        | _ :: _ => message
                                        end)) None)).

(* ================================================================== *)
(** * The second framer of [mcp-types.js]: [parseJsonRpcResponse] *)

(** [s.substring(a, b)] for [0 <= a <= b]. *)
Definition substring (a b : nat) (s : jsstring) : jsstring :=
  firstn (b - a) (skipn a s).

(** The [for] loop of [findJsonObjects(str)] from the index [i] on, where
    [rest] is what is left of [str]; the result is what the loop pushes onto
    [objects] from there.  [depth] goes below zero on a closing brace that
    nothing has opened; [start] is [None] for [-1]. *)
Fixpoint find_objects_from (str rest : jsstring) (i : nat) (depth : Z)
    (start : option nat) : list json :=
  match rest with
  | [] => []
  | c :: r =>
      if (c =? 123)%N then
        find_objects_from str r (S i) (depth + 1)
          (if (depth =? 0)%Z then Some i else start)
      else if (c =? 125)%N then
        let depth := (depth - 1)%Z in
        match (depth =? 0)%Z, start with
        | true, Some start =>
            let jsonCandidate := substring start (S i) str in
            match JSON.parse jsonCandidate with
            | Some parsed => parsed :: find_objects_from str r (S i) depth None
            | None => find_objects_from str r (S i) depth None
            end
        | _, _ => find_objects_from str r (S i) depth start
        end
      else find_objects_from str r (S i) depth start
  end.

Definition findJsonObjects (str : jsstring) : list json :=
  find_objects_from str str 0 0 None.

Definition is_defined (v : option json) : bool :=
  match v with Some _ => true | None => false end.

(** [obj && (obj.jsonrpc === "2.0" || obj.id !== undefined
    || obj.result !== undefined || obj.error !== undefined)]. *)
Definition is_rpc_response (obj : json) : bool :=
  truthy obj
  && (match member obj (js "jsonrpc") with
      | Some (JStr s) => jsstring_eqb s (js "2.0")
      | _ => false
      end
      || is_defined (member obj (js "id"))
      || is_defined (member obj (js "result"))
      || is_defined (member obj (js "error"))).

Definition parseJsonRpcResponse (text : jsstring) : list json :=
  let remaining := trim text in
  filter is_rpc_response (findJsonObjects remaining).

(* ================================================================== *)
(** * [Client] on the event loop of its transport *)

(** [request(requestObj)], where [L] is the event loop of the transport of
    the client.  The [async] function rejects with the error it throws when
    the client is not connected, and settles as the promise of
    [sendRequest] does otherwise. *)
Definition Client_request_on (c : Client) (requestObj : requestObj) (L : Loop)
  : Loop * result promise :=
  match isConnected c, client_transport c with
  | true, Some _ =>
      let (L', p) := sendRequest requestObj L in (L', Ok p)
  | _, _ => (L, Throw (js "Client not connected"))
  end.

(** A member that [JSON.stringify] writes when its value is not
    [undefined]. *)
Definition optional_member (k : jsstring) (v : option json)
  : list (jsstring * json) :=
  match v with Some x => [(k, x)] | None => [] end.

(** The [params] of [callTool(options)] as they are written; [now] is
    [Date.now()]. *)
Definition callTool_params (name arguments : option json) (now : Z) : json :=
  JObj (optional_member (js "name") name
        ++ optional_member (js "arguments") arguments
        ++ [(js "_meta", JObj [(js "progressToken", JStr (Z_to_js now))])]).

(** [callTool(options)]. *)
Definition Client_callTool (c : Client) (name arguments : option json) (now : Z)
    (L : Loop) : Loop * result promise :=
  match isConnected c, client_transport c with
  | true, Some _ =>
      Client_request_on c
        (mkRequest None (js "tools/call")
                   (Some (callTool_params name arguments now))) L
  | _, _ => (L, Throw (js "Client not connected"))
  end.

(** [disconnect()]: [if (this.transport) await this.transport.close();
    this.isConnected = false].  When [close] throws the flag is left as it
    is. *)
Definition Client_disconnect (c : Client) (L : Loop) : Loop * result Client :=
  match client_transport c with
  | Some t =>
      match close_process (child L) with
      | Ok c' =>
          (mkLoop (transport L) c' (clock L) (timers L) (writes L)
                  (settled L) (promises L),
           Ok (mkClient (clientInfo_name c) false (Some t)))
      | Throw message => (L, Throw message)
      end
  | None => (L, Ok (mkClient (clientInfo_name c) false None))
  end.

(* ================================================================== *)
(** * The text helpers of [main.mjs] *)

(** [text.replace(/p1|p2|.../g, match => ...)] for literal alternatives: from
    left to right, at each position the first alternative that matches there
    is replaced, and the scan goes on behind the match.  [skip] counts the
    characters of the current match that are still to be passed. *)
Fixpoint first_match (alternatives : list (jsstring * jsstring)) (s : jsstring)
  : option (jsstring * jsstring) :=
  match alternatives with
  | [] => None
  | (pattern, replacement) :: rest =>
      if starts_with pattern s then Some (pattern, replacement)
      else first_match rest s
  end.

Fixpoint replace_literals (alternatives : list (jsstring * jsstring))
    (s : jsstring) (skip : nat) : jsstring :=
  match s with
  | [] => []
  | c :: r =>
      match skip with
      | S k => replace_literals alternatives r k
      | O =>
          match first_match alternatives s with
          | Some (pattern, replacement) =>
              replacement ++ replace_literals alternatives r (length pattern - 1)
          | None => c :: replace_literals alternatives r 0
          end
      end
  end.

(** The table [entities], in the order of the alternatives of the regular
    expression. *)
Definition entities : list (jsstring * jsstring) :=
  [(js "&amp;", js "&"); (js "&lt;", js "<"); (js "&gt;", js ">");
   (js "&quot;", [34%N]); (js "&#39;", [39%N]); (js "&nbsp;", js " ")].

Definition bold_tags : list (jsstring * jsstring) :=
  [(js "<b>", []); (js "</b>", [])].

(** [decodeHTMLEntities(text)]; [text] is [None] for [undefined].  Every
    value of the table is truthy, so [entities[match] || match] is the
    entry. *)
Definition decodeHTMLEntities (text : option json) : jsstring :=
  match text with
  | Some (JStr s) => replace_literals entities (replace_literals bold_tags s 0) 0
  | _ => []
  end.

(** A pattern character, which is an ASCII character here, matches under
    the flag [i] itself and, when it is a lower-case letter, its upper-case
    form; no character outside ASCII is brought to an ASCII letter. *)
Definition ci_eqb (p c : N) : bool :=
  ((p =? c) || ((97 <=? p) && (p <=? 122) && (c =? p - 32)))%N.

Fixpoint ci_starts_with (p s : jsstring) : bool :=
  match p, s with
  | [], _ => true
  | x :: p', y :: s' => ci_eqb x y && ci_starts_with p' s'
  | _ :: _, [] => false
  end.

(** The index of the first place in [s] where [p] matches. *)
Fixpoint ci_index_of (p s : jsstring) : option nat :=
  if ci_starts_with p s then Some 0
  else match s with
       | [] => None
       | _ :: r => option_map S (ci_index_of p r)
       end.

(** [s.replace(/opening[\s\S]*?closing/gi, '')]: a match goes from a place
    where [opening] stands to the end of the first [closing] behind it. *)
Fixpoint remove_blocks (opening closing : jsstring) (s : jsstring) (skip : nat)
  : jsstring :=
  match s with
  | [] => []
  | c :: r =>
      match skip with
      | S k => remove_blocks opening closing r k
      | O =>
          if ci_starts_with opening s then
            match ci_index_of closing (skipn (length opening) s) with
            | Some j =>
                remove_blocks opening closing r
                  (length opening + j + length closing - 1)
            | None => c :: remove_blocks opening closing r 0
            end
          else c :: remove_blocks opening closing r 0
      end
  end.

Fixpoint index_of (c : N) (s : jsstring) : option nat :=
  match s with
  | [] => None
  | x :: r => if (x =? c)%N then Some 0 else option_map S (index_of c r)
  end.

(** [s.replace(/<[^>]+>/g, ' ')]: a match is an opening angle bracket, one
    character or more that are not closing brackets, and a closing one. *)
Fixpoint replace_tags (s : jsstring) (skip : nat) : jsstring :=
  match s with
  | [] => []
  | c :: r =>
      match skip with
      | S k => replace_tags r k
      | O =>
          if (c =? 60)%N then
            match index_of 62 r with
            | Some (S j) => 32%N :: replace_tags r (S (S j))
            | _ => c :: replace_tags r 0
            end
          else c :: replace_tags r 0
      end
  end.

(** [s.replace(/\s{2,}/g, ' ')]: [in_run] holds inside a run of white space
    that is being replaced. *)
Fixpoint squeeze_spaces (s : jsstring) (in_run : bool) : jsstring :=
  match s with
  | [] => []
  | c :: r =>
      if is_js_space c then
        if in_run then squeeze_spaces r true
        else match r with
             | c2 :: _ =>
                 if is_js_space c2 then 32%N :: squeeze_spaces r true
                 else c :: squeeze_spaces r false
             | [] => [c]
             end
      else c :: squeeze_spaces r false
  end.

(** [htmlToText(html)]. *)
Definition htmlToText (html : jsstring) : jsstring :=
  let s1 := remove_blocks (js "<head") (js "</head>") html 0 in
  let s2 := remove_blocks (js "<style") (js "</style>") s1 0 in
  let s3 := remove_blocks (js "<script") (js "</script>") s2 0 in
  let s4 := replace_tags s3 0 in
  let s5 := squeeze_spaces s4 false in
  trim s5.

(* ================================================================== *)
(** * The execution handler of [main.mjs]: [handleMCPExecute] *)

(** [serverConfig.args] as it arrives: an array of strings, another value,
    or nothing. *)
Inductive config_args : Type :=
| ArgsArray (l : list jsstring)
| ArgsValue (v : jsstring)
| ArgsMissing.

(** The fields of [serverConfig] that the handler reads; [None] is
    [undefined]. *)
Record serverConfig : Type := mkServerConfig {
  cfg_id : option jsstring;
  cfg_name : option jsstring;
  cfg_command : option jsstring;
  cfg_args : config_args
}.

(** [serverConfig.args] after [if (!serverConfig.args ||
    !Array.isArray(serverConfig.args)) serverConfig.args =
    serverConfig.args ? [serverConfig.args] : []]. *)
Definition args_array (a : config_args) : list jsstring :=
  match a with
  | ArgsArray l => l
  | ArgsValue [] => []
  | ArgsValue (c :: r) => [c :: r]
  | ArgsMissing => []
  end.

(** A value in a template literal. *)
Definition template_text (s : option jsstring) : jsstring :=
  match s with Some x => x | None => js "undefined" end.

(** [l.join(sep)] for strings. *)
Fixpoint join (sep : jsstring) (l : list jsstring) : jsstring :=
  match l with
  | [] => []
  | x :: r => match r with [] => x | _ :: _ => x ++ sep ++ join sep r end
  end.

(** [s.replace(/^with\s+/, '')]. *)
Definition strip_with (s : jsstring) : jsstring :=
  if starts_with (js "with") s then
    match skipn 4 s with
    | c :: r => if is_js_space c then trim_start r else s
    | [] => s
    end
  else s.

(** [argumentsForServer] for the tool [toolName] and its arguments. *)
Definition format_arguments (toolName : option jsstring) (toolArgs : list jsstring)
  : json :=
  match toolArgs with
  | [] => JObj []
  | first :: others =>
      let name := match toolName with Some n => n | None => [] end in
      if jsstring_eqb name (js "mcp_eth_getCode")
         || jsstring_eqb name (js "mcp_eth_getBalance") then
        JObj ((js "address", JStr first)
              :: match others with
                 | second :: _ => [(js "blockParameter", JStr second)]
                 | [] => []
                 end)
      else if jsstring_eqb name (js "mcp_eth_gasPrice") then
        JObj [(js "random_string", JStr (js "dummy"))]
      else if jsstring_eqb name (js "mcp_rust_docs_lookup_crate_docs") then
        JObj [(js "crateName", JStr (strip_with (join (js " ") toolArgs)))]
      else
        match others with
        | [] =>
            match JSON.parse first with
            | Some parsed => parsed
            | None => JStr first
            end
        | _ :: _ => JObj [(js "args", JArr (map JStr toolArgs))]
        end
  end.

(** The [text] of the one item of [output]: [result.content],
    [JSON.stringify(result)] or [String(result)]. *)
Inductive output_text : Type :=
| TextContent (content : json)
| TextStringify (result : json)
| TextString (result : option json).

Definition format_result (result : option json) : output_text :=
  match result with
  | Some (JObj ms) =>
      match lookup_member (js "content") ms with
      | Some content =>
          if truthy content then TextContent content
          else TextStringify (JObj ms)
      | None => TextStringify (JObj ms)
      end
  | Some (JArr items) => TextStringify (JArr items)
  | other => TextString other
  end.

(** What the handler returns: [output] is [None] for [null], else the texts
    of its items of type [text]; [exec_error] is [None] for [null], else
    [error.message]. *)
Record execution : Type := mkExecution {
  exec_output : option (list output_text);
  exec_error : option jsstring;
  exec_serverId : option jsstring
}.

(** [client.request(requestObj)] with what the promise of the transport
    settles to: its value, or the message of the error it is rejected
    with. *)
Definition Client_request_outcome (c : Client) (reply : result (option json))
  : result (option json) :=
  match isConnected c, client_transport c with
  | true, Some _ => reply
  | _, _ => Throw (js "Client not connected")
  end.

(** The message of the [TypeError] of the runtime for a property read of
    [undefined]. *)
Definition cannot_read (property : jsstring) : jsstring :=
  js "Cannot read properties of undefined (reading " ++ [39%N] ++ property
  ++ [39%N] ++ js ")".

(** [handleMCPExecute(event, serverConfig, userArgs)].  [serverConfig] and
    [userArgs] are [None] when the caller passed [undefined]; [now] is
    [Date.now()]; [reply] is what the server makes of a request.  The read
    of [serverConfig.name] stands before the [try]. *)
Definition handleMCPExecute (serverConfig : option serverConfig)
    (userArgs : option (list jsstring)) (now : Z) (b : behaviour)
    (reply : requestObj -> result (option json)) : M execution :=
  match serverConfig with
  | None => throw (cannot_read (js "name"))
  | Some config =>
      let serverName := cfg_name config in
      let serverId := cfg_id config in
      try_catch
        (match cfg_command config with
         | None | Some [] =>
             throw (js "Invalid server configuration received for server: "
                    ++ template_text serverName)
         | Some (c :: r) =>
             let args := args_array (cfg_args config) in
             connection <-
               try_catch (getOrCreateClient (c :: r) args serverId b)
                 (fun message =>
                    throw (js "Failed to connect to MCP server: " ++ message)) ;;
             let client := client connection in
             match userArgs with
             | None => throw (cannot_read (js "0"))
             | Some userArgs =>
                 let toolName := hd_error userArgs in
                 let toolArgs := tl userArgs in
                 let argumentsForServer := format_arguments toolName toolArgs in
                 let request :=
                   mkRequest None (js "tools/call")
                     (Some (callTool_params (option_map JStr toolName)
                                            (Some argumentsForServer) now)) in
                 match Client_request_outcome client (reply request) with
                 | Ok result =>
                     ret (mkExecution (Some [format_result result]) None serverId)
                 | Throw message =>
                     throw (js "Tool execution error: " ++ message)
                 end
             end
         end)
        (fun message =>
           ret (mkExecution None
                  (Some (match message with
                         | [] => js "Unknown error during MCP execution via SDK Client"
                         | _ :: _ => message
                         end))
                  serverId))
  end.

(* ================================================================== *)
(** * The server processes of [main.mjs]: [spawnMCPServer], [cleanupServers] *)

(** The main process holds the module state of the bridge and a map of its
    own, [serverProcesses], from keys to process objects. *)
Record MainState : Type := mkMain {
  bridge : World;
  serverProcesses : Map.t jsstring nat
}.

(** [spawnMCPServer(serverConfig, serverId)] for a configuration with a
    name, a command and an array of arguments. *)
Definition spawnMCPServer (name command : jsstring) (args : list jsstring)
    (serverId : option jsstring) (b : behaviour) (s : MainState)
  : MainState * result nat :=
  let uniqueKey := match serverId with
                   | Some (c :: r) => c :: r
                   | Some [] | None => name
                   end in
  match Map.get uniqueKey (serverProcesses s) with
  | Some existing => (s, Ok existing)
  | None =>
      match spawnMCPProcess command args b (bridge s) with
      | (w, Ok serverProcess) =>
          (mkMain w (Map.set uniqueKey serverProcess (serverProcesses s)),
           Ok serverProcess)
      | (w, Throw message) => (mkMain w (serverProcesses s), Throw message)
      end
  end.

(** The handler of ['exit'] that [spawnMCPServer] installs. *)
Definition on_server_exit (uniqueKey : jsstring) (s : MainState) : MainState :=
  mkMain (bridge s) (Map.delete uniqueKey (serverProcesses s)).

(** The loop of [cleanupServers]: [if (!process.killed) process.kill()] for
    every entry; nothing catches what [kill] throws. *)
Fixpoint kill_servers (entries : list (jsstring * nat)) : M unit :=
  match entries with
  | [] => ret tt
  | (key, process) :: rest => kill_handle process ;;; kill_servers rest
  end.

(** [cleanupServers()]: the map is cleared when the loop has come to its
    end. *)
Definition cleanupServers (s : MainState) : MainState * result unit :=
  match kill_servers (serverProcesses s) (bridge s) with
  | (w, Ok _) => (mkMain w [], Ok tt)
  | (w, Throw message) => (mkMain w (serverProcesses s), Throw message)
  end.

(** The listener of ['will-quit']: [try { await cleanupServers() } catch (e)
    { console.error(...) } finally { app.exit() }]; the result is the state
    in which the application exits. *)
Definition will_quit (s : MainState) : MainState := fst (cleanupServers s).

(** The two handlers that [main.mjs] registers with [ipcMain.handle], as
    calls on the state of the main process; both work on the bridge. *)
Inductive ipc_call : Type :=
| FetchCapabilities (command : jsstring) (args : list jsstring)
    (serverId : option jsstring) (b : behaviour)
    (tools_reply prompts_reply : settlement)
| Execute (serverConfig : option serverConfig)
    (userArgs : option (list jsstring)) (now : Z) (b : behaviour)
    (reply : requestObj -> result (option json)).

Definition ipc_handle (s : MainState) (call : ipc_call) : MainState :=
  match call with
  | FetchCapabilities command args serverId b tools_reply prompts_reply =>
      mkMain (fst (handleFetchMCPCapabilities command args serverId b
                     tools_reply prompts_reply (bridge s)))
             (serverProcesses s)
  | Execute serverConfig userArgs now b reply =>
      mkMain (fst (handleMCPExecute serverConfig userArgs now b reply (bridge s)))
             (serverProcesses s)
  end.

(** The state in which the main process starts. *)
Definition main_start : MainState := mkMain empty_world [].

(* ================================================================== *)
(** * Path resolution: [resolveMCPPath] and the arguments of [spawnMCPProcess] *)

(** What [fs.statSync(path)] tells of a path that exists. *)
Inductive file_kind : Type :=
| IsFile
| IsDirectory
| IsOther.

(** What the file system answers for a path: [existsSync] is false, or it
    is true and [statSync] returns or throws. *)
Inductive fs_answer : Type :=
| Missing
| Present (kind : file_kind)
| StatThrows (message : jsstring).

(** What the bridge asks of its surroundings: the file system, the [path]
    module, the directories of the process and of the application, and
    [require('os').homedir()], which throws where [require] is not
    defined. *)
Record Env : Type := mkEnv {
  isDev : bool;
  fs : jsstring -> fs_answer;
  path_isAbsolute : jsstring -> bool;
  path_resolve : list jsstring -> jsstring;
  path_dirname : jsstring -> jsstring;
  cwd : jsstring;
  module_dir : jsstring;
  homedir : result jsstring;
  appPath : jsstring;
  userData : jsstring
}.

(** The loops that look for the first existing file: a path that does not
    exist, is no file, or whose [statSync] throws, is passed over. *)
Fixpoint first_file (env : Env) (paths : list jsstring) : option jsstring :=
  match paths with
  | [] => None
  | checkPath :: rest =>
      match fs env checkPath with
      | Present IsFile => Some checkPath
      | _ => first_file env rest
      end
  end.

Definition looks_like_path (s : jsstring) : bool :=
  includes s (js "/") || includes s [92%N].

(** [resolveMCPPath(scriptPath)] for a string. *)
Definition resolveMCPPath (env : Env) (scriptPath : jsstring) : result jsstring :=
  match scriptPath with
  | [] => Ok scriptPath
  | _ :: _ =>
      if negb (looks_like_path scriptPath) then Ok scriptPath
      else if path_isAbsolute env scriptPath then
        (* a file, a directory, missing or not to be checked: in each case *)
        Ok scriptPath
      else if isDev env then
        match homedir env with
        | Throw message => Throw message
        | Ok home =>
            let devPaths :=
              [path_resolve env [cwd env; scriptPath];
               path_resolve env [cwd env; js ".."; scriptPath];
               path_resolve env [module_dir env; js ".."; scriptPath];
               path_resolve env [home; scriptPath]] in
            match first_file env devPaths with
            | Some checkPath => Ok checkPath
            | None => Ok scriptPath
            end
        end
      else
        let resourcesPath := path_dirname env (appPath env) in
        match homedir env with
        | Throw message => Throw message
        | Ok homePath =>
            let potentialPaths :=
              [path_resolve env [homePath; scriptPath];
               path_resolve env [userData env; scriptPath];
               path_resolve env [cwd env; scriptPath];
               path_resolve env [resourcesPath; js "mcp"; scriptPath];
               path_resolve env [resourcesPath; scriptPath];
               path_resolve env [appPath env; scriptPath];
               path_resolve env [resourcesPath; js "extraResources"; scriptPath];
               path_resolve env [resourcesPath; js "extraResources"; js "mcp";
                                 scriptPath];
               (if starts_with (js "./") scriptPath
                then path_resolve env [cwd env; scriptPath] else scriptPath);
               (if starts_with (js "../") scriptPath
                then path_resolve env [cwd env; scriptPath] else scriptPath);
               path_resolve env [js "/"; scriptPath];
               scriptPath] in
            match first_file env potentialPaths with
            | Some checkPath => Ok checkPath
            | None => Ok scriptPath
            end
        end
  end.

Definition ends_with (suffix s : jsstring) : bool :=
  starts_with (rev suffix) (rev s).

Definition isLikelyScript (arg : jsstring) : bool :=
  ends_with (js ".js") arg || ends_with (js ".mjs") arg
  || ends_with (js ".cjs") arg || ends_with (js ".py") arg
  || ends_with (js ".sh") arg.

(** The check of [spawnMCPProcess] that the resolved path is no directory:
    what it throws is caught by the [catch] right behind it. *)
Definition directory_check (env : Env) (resolvedPath : jsstring) : result unit :=
  match fs env resolvedPath with
  | Present IsDirectory =>
      Throw (js "Resolved path is a directory, not a file: " ++ resolvedPath)
  | StatThrows message => Throw message
  | _ => Ok tt
  end.

(** One turn of the loop over [args] in [spawnMCPProcess]: what is pushed
    onto [resolvedArgs] for the argument [arg] at the index [i]. *)
Definition resolve_arg (env : Env) (i : nat) (arg : jsstring) : jsstring :=
  match arg with
  | [] => arg
  | _ :: _ =>
      if Nat.eqb i 0 || looks_like_path arg then
        if isLikelyScript arg then
          match resolveMCPPath env arg with
          | Ok resolvedPath =>
              match directory_check env resolvedPath with
              | Ok _ => resolvedPath
              | Throw _ => resolvedPath
              end
          | Throw _ => arg
          end
        else
          match resolveMCPPath env arg with
          | Ok resolvedPath => resolvedPath
          | Throw _ => arg
          end
      else arg
  end.

Fixpoint resolve_args (env : Env) (i : nat) (args : list jsstring)
  : list jsstring :=
  match args with
  | [] => []
  | arg :: rest => resolve_arg env i arg :: resolve_args env (S i) rest
  end.

(** [resolvedArgs] of [spawnMCPProcess(command, args)]. *)
Definition resolvedArgs (env : Env) (args : list jsstring) : list jsstring :=
  resolve_args env 0 args.

(* ================================================================== *)
(** * Vocabulary of the properties *)

(** ** Framing *)

Definition count (c : N) (s : jsstring) : nat := length (filter (N.eqb c) s).

(** [e] is a balance point of [s]: the character before position [e] is a
    closing brace, and the first [e] characters hold as many opening as
    closing braces, wherever they stand. *)
Definition balanced_at (s : jsstring) (e : nat) : bool :=
  (nth (e - 1) s 0 =? 125)%N
  && Nat.eqb (count 123 (firstn e s)) (count 125 (firstn e s)).

Definition first_balance (s : jsstring) : option nat :=
  hd_error (filter (balanced_at s) (seq 1 (length s))).

(** [stream t vs]: the trimmed text [t] is a stream of the JSON values [vs]:
    each value but the last is written as a text that parses and whose first
    balance point is its end, what follows a value is not empty once
    trimmed, and no tail of two or more values is one JSON text. *)
Inductive stream : jsstring -> list json -> Prop :=
| stream_nil : stream [] []
| stream_last t v :
    t <> [] -> JSON.parse t = Some v -> stream t [v]
| stream_cons s gap rest v vs :
    JSON.parse s = Some v ->
    first_balance s = Some (length s) ->
    trim (gap ++ rest) = rest ->
    rest <> [] ->
    JSON.parse (s ++ gap ++ rest) = None ->
    stream rest vs ->
    stream (s ++ gap ++ rest) (v :: vs).

(** The objects the output handler obtains when the chunks arrive in this
    order: each call of [_handleProcessOutput] frames its own chunk. *)
Definition framed_by_chunks (chunks : list jsstring) : list json :=
  flat_map _parseJsonResponses chunks.

Definition is_proper_prefix (p s : jsstring) : Prop :=
  exists rest, rest <> [] /\ s = p ++ rest.

(** ** Transport *)

(** The key under which a response is looked up in [responseHandlers]:
    there is one when [response.id] is truthy and an integer or a string. *)
Definition response_key (response : json) : option rpc_id :=
  match member response (js "id") with
  | Some v => if truthy v then id_of_json v else None
  | None => None
  end.

(** A handler is removed and its promise settled. *)
Definition retire (key : rpc_id) (p : promise) (s : settlement) (L : Loop) : Loop :=
  settle p s (with_handlers (Map.delete key (handlers L)) L).

(** The promise [p] belongs to the request of id [k]. *)
Definition tied (L : Loop) (k : rpc_id) (p : promise) : Prop :=
  p < promises L /\ forall k', In (k', p) (handlers L) -> k' = k.

(** The invariant of the event loop of a transport. *)
Record wf (L : Loop) : Prop := mkWf {
  wf_keys : NoDup (Map.keys (handlers L));
  wf_pending : forall k p, In (k, p) (handlers L) ->
                 settlement_of p (settled L) = None /\ p < promises L;
  wf_values : forall k k' p, In (k, p) (handlers L) -> In (k', p) (handlers L) ->
                 k = k';
  wf_settled : forall p s, In (p, s) (settled L) -> p < promises L;
  wf_timers : forall d k p, In (d, (k, p)) (timers L) ->
                 (clock L < d)%N /\ tied L k p;
  wf_writes : forall k p, In (k, p) (writes L) -> tied L k p
}.

(** The settlements of [L'] extend those of [L]. *)
Definition grows (L L' : Loop) : Prop :=
  exists extra, settled L' = settled L ++ extra.

(** The id written on the wire with a request. *)
Definition wire_id (line : rpc_id * jsstring * option json) : rpc_id :=
  fst (fst line).

(** The event [e], met in the state [L], leaves the id [i] alone: it does
    not deliver a response under it, does not send a request under it, and
    does not fail the write of a request under it. *)
Definition leaves_alone (i : rpc_id) (L : Loop) (e : event) : bool :=
  match e with
  | Send request =>
      killed (child L)
      || negb (rpc_id_eqb
                 (fst (next_request_id request (lastRequestId (transport L)))) i)
  | Stdout data =>
      forallb (fun r => match response_key r with
                        | Some k => negb (rpc_id_eqb k i)
                        | None => true
                        end) (_parseJsonResponses data)
  | WriteDone k err =>
      match nth_error (writes L) k, err with
      | Some (j, _), Some _ => negb (rpc_id_eqb j i)
      | _, _ => true
      end
  | Elapse _ | Close => true
  end.

Fixpoint undisturbed (i : rpc_id) (L : Loop) (events : list event) : bool :=
  match events with
  | [] => true
  | e :: rest => leaves_alone i L e && undisturbed i (step L e) rest
  end.

(** No timer and no write callback of an earlier request under the id [i]
    is outstanding. *)
Definition fresh_id (i : rpc_id) (L : Loop) : bool :=
  forallb (fun t => negb (rpc_id_eqb (fst (snd t)) i)) (timers L)
  && forallb (fun w => negb (rpc_id_eqb (fst w) i)) (writes L).

(** The request of id [i] and promise [p] is pending, its timer, due at [d],
    is the only one under this id, and so is its write callback. *)
Definition armed (i : rpc_id) (p : promise) (d : N) (L : Loop) : Prop :=
  Map.get i (handlers L) = Some p
  /\ In (d, (i, p)) (timers L)
  /\ (forall t, In t (timers L) -> fst (snd t) = i -> t = (d, (i, p)))
  /\ (forall w, In w (writes L) -> fst w = i -> w = (i, p)).

Definition timed_out (i : rpc_id) (p : promise) (L : Loop) : Prop :=
  Map.has i (handlers L) = false
  /\ settlement_of p (settled L) = Some (Rejected timeout_error)
  /\ (forall t, In t (timers L) -> fst (snd t) <> i).

(** The state in which the timers that are due at [now] run. *)
Definition at_time (now : N) (L : Loop) : Loop :=
  mkLoop (transport L) (child L) now
         (filter (fun t => negb (is_due now t)) (timers L))
         (writes L) (settled L) (promises L).

(** ** Supervisor and registry *)

(** The rejection that an event of the grace window causes when the promise
    of the spawn is still unsettled. *)
Definition startup_failure (e : child_event) : option jsstring :=
  match e with
  | OnError message => Some message
  | OnExit (Some c) =>
      if (c =? 0)%Z then None
      else Some (js "Process exited with code " ++ Z_to_js c)
  | OnExit None => None
  | OnStdout _ => None
  | OnStderr output =>
      if is_fatal_stderr output
      then Some (js "Process startup error: " ++ trim output)
      else None
  end.

Fixpoint first_failure (events : list child_event) : option jsstring :=
  match events with
  | [] => None
  | e :: rest =>
      match startup_failure e with
      | Some message => Some message
      | None => first_failure rest
      end
  end.

(** The state of the promise when the given events have been handled and
    the grace timer has not run yet. *)
Definition before_grace (events : list child_event) : startup :=
  fold_left (fun s e => on_child_event e s) events startup0.

(** The child process is no longer running: it was killed, or it has
    stopped by itself. *)
Definition terminated (c : ChildProcess) : bool := killed c || exited c.

(** The connection that [getOrCreateClient] builds over the process of
    handle [h], and the module state in which it is stored. *)
Definition connection_over (key : jsstring) (ref h : nat) : connection :=
  mkConnection ref
    (mkClient (js "mcp-client-" ++ key) true (Some (new_transport h)))
    (new_transport h).

Definition stored (key : jsstring) (h : nat) (w : World) : World :=
  mkWorld (procs w)
          (Map.set key (connection_over key (objects w) h) (activeClients w))
          (activeProcesses w) (S (objects w)) (console_error w).

(** [c'] is [c], or [c] after a [kill()] that went through. *)
Definition after_kills (c c' : ChildProcess) : Prop :=
  c' = c
  \/ (kill_error c = None /\ exited c = false
      /\ c' = mkChild true false None (stdin c)).

(** From [w] to [w']: the log has grown, and every process object is as it
    was or has been killed. *)
Definition settles (w w' : World) : Prop :=
  (exists extra, console_error w' = console_error w ++ extra)
  /\ forall n c, nth_error (procs w) n = Some c ->
       exists c', nth_error (procs w') n = Some c' /\ after_kills c c'.

(** The same, with the two maps untouched. *)
Definition evolves (w w' : World) : Prop :=
  activeClients w' = activeClients w
  /\ activeProcesses w' = activeProcesses w
  /\ objects w' = objects w
  /\ settles w w'.

(** The best effort on the process of handle [h], logged under [key]: in
    [w'] it is terminated, or its [kill()] threw and the error is in the
    log. *)
Definition dealt_with (key : jsstring) (h : nat) (w w' : World) : Prop :=
  forall c, nth_error (procs w) h = Some c ->
    exists c', nth_error (procs w') h = Some c'
      /\ (terminated c' = true
          \/ exists message, kill_error c = Some message
                             /\ In (key, message) (console_error w')).

(** The event is not a request under an id of the caller's. *)
Definition counter_event (e : event) : Prop :=
  match e with
  | Send request => req_id request = None
  | _ => True
  end.

(** Every outstanding timer and write callback belongs to an id that the
    counter has assigned. *)
Definition ids_below (L : Loop) : Prop :=
  (0 <= lastRequestId (transport L))%Z
  /\ (forall t, In t (timers L) ->
        exists k, fst (snd t) = IdNum k /\ (k <= lastRequestId (transport L))%Z)
  /\ (forall w, In w (writes L) ->
        exists k, fst w = IdNum k /\ (k <= lastRequestId (transport L))%Z).

(** ** JSON texts *)

Definition is_number (v : json) : bool :=
  match v with JNum _ _ | JInf _ => true | _ => false end.

(* ================================================================== *)
(** * Vocabulary of the further properties *)

(** ** Streams of objects *)

Definition all_space (s : jsstring) : bool := forallb is_js_space s.

(** [object_stream t vs]: the text [t] is the texts of the objects [vs] one
    after the other, each followed by white space or by nothing.  The text of
    an object opens with a brace and its first balance point is its end: no
    string inside it holds a brace that upsets the count. *)
Inductive object_stream : jsstring -> list json -> Prop :=
| object_stream_nil : object_stream [] []
| object_stream_cons s gap rest v vs :
    hd_error s = Some 123%N ->
    JSON.parse s = Some v ->
    first_balance s = Some (length s) ->
    all_space gap = true ->
    object_stream rest vs ->
    object_stream (s ++ gap ++ rest) (v :: vs).

(** A piece of a stream of objects, cut out between two objects: white
    space, then an object stream. *)
Definition object_chunk (chunk : jsstring) (vs : list json) : Prop :=
  exists lead body,
    chunk = lead ++ body /\ all_space lead = true /\ object_stream body vs.

(** ** Objects without a brace in a string *)

Definition is_brace (c : N) : bool := ((c =? 123) || (c =? 125))%N.

Definition no_brace (s : jsstring) : bool :=
  forallb (fun c => negb (is_brace c)) s.

(** No string of [v], the names of its members included, holds a brace. *)
Fixpoint braceless (v : json) : bool :=
  match v with
  | JStr s => no_brace s
  | JArr items => forallb braceless items
  | JObj ms => forallb (fun kv => match kv with
                                  | (k, w) => no_brace k && braceless w
                                  end) ms
  | _ => true
  end.

(** The braces of [t] are nested: each closing brace closes a brace opened
    before it, and none is left open. *)
Inductive nested : jsstring -> Prop :=
| nested_nil : nested []
| nested_char c t : is_brace c = false -> nested t -> nested (c :: t)
| nested_braces t u : nested t -> nested u -> nested (123%N :: t ++ 125%N :: u).

(** The scan of [findJsonObjects] with the candidate text carried along
    instead of the index where it starts. *)
Fixpoint scan_objects (rest : jsstring) (depth : Z) (candidate : option jsstring)
  : list json :=
  match rest with
  | [] => []
  | c :: r =>
      let grown := option_map (fun text => text ++ [c]) candidate in
      if (c =? 123)%N then
        scan_objects r (depth + 1) (if (depth =? 0)%Z then Some [c] else grown)
      else if (c =? 125)%N then
        match (depth - 1 =? 0)%Z, grown with
        | true, Some text =>
            match JSON.parse text with
            | Some parsed => parsed :: scan_objects r (depth - 1) None
            | None => scan_objects r (depth - 1) None
            end
        | _, _ => scan_objects r (depth - 1) grown
        end
      else scan_objects r depth grown
  end.

(** The depth and the candidate with which the scan leaves a text. *)
Fixpoint scan_state (rest : jsstring) (depth : Z) (candidate : option jsstring)
  : Z * option jsstring :=
  match rest with
  | [] => (depth, candidate)
  | c :: r =>
      let grown := option_map (fun text => text ++ [c]) candidate in
      if (c =? 123)%N then
        scan_state r (depth + 1) (if (depth =? 0)%Z then Some [c] else grown)
      else if (c =? 125)%N then
        match (depth - 1 =? 0)%Z, grown with
        | true, Some _ => scan_state r (depth - 1) None
        | _, _ => scan_state r (depth - 1) grown
        end
      else scan_state r depth grown
  end.

(** Nowhere in [t] are two braces open at once. *)
Definition never_nested (t : jsstring) : Prop :=
  forall n, count 123 (firstn n t) <= S (count 125 (firstn n t)).

(** [v] is an object that has the member [k]. *)
Definition has_member (k : jsstring) (v : json) : Prop :=
  exists ms w, v = JObj ms /\ lookup_member k ms = Some w.

(** Nothing that [trim] removes stands at either end of [m]. *)
Definition tight (m : jsstring) : Prop :=
  m = []
  \/ ((exists a m', m = a :: m' /\ is_js_space a = false)
      /\ (exists m' b, m = m' ++ [b] /\ is_js_space b = false)).

(** ** Requests that nothing can answer *)

(** The promise [p] is unsettled and no handler holds it: no response can
    reach it, and of the timers only the one due at [d] holds it. *)
Definition orphaned (p : promise) (d : N) (L : Loop) : Prop :=
  settlement_of p (settled L) = None
  /\ p < promises L
  /\ (forall k, ~ In (k, p) (handlers L))
  /\ (forall d' k, In (d', (k, p)) (timers L) -> d' = d).

(** The event is not the failure of a write. *)
Definition write_succeeds (e : event) : Prop :=
  match e with
  | WriteDone _ (Some _) => False
  | _ => True
  end.

(** ** The registry *)

(** The two maps agree: the connection stored under a key is a connected
    client over the process stored under the same key, and every stored
    process is one that was created. *)
Definition registry_ok (w : World) : Prop :=
  (forall key conn,
      Map.get key (activeClients w) = Some conn ->
      Map.get key (activeProcesses w) = Some (process (conn_transport conn))
      /\ isConnected (client conn) = true
      /\ client_transport (client conn) = Some (conn_transport conn))
  /\ (forall key h,
        Map.get key (activeProcesses w) = Some h -> h < length (procs w)).

(** ** Texts *)

(** The escaping of the characters that mark up HTML. *)
Definition escape_char (c : N) : jsstring :=
  if (c =? 38)%N then js "&amp;"
  else if (c =? 60)%N then js "&lt;"
  else if (c =? 62)%N then js "&gt;"
  else if (c =? 34)%N then js "&quot;"
  else if (c =? 39)%N then js "&#39;"
  else [c].

Definition escape_html (s : jsstring) : jsstring := flat_map escape_char s.

(** No two characters of white space stand side by side. *)
Fixpoint single_spaced (s : jsstring) : bool :=
  match s with
  | [] => true
  | c :: r =>
      match r with
      | [] => true
      | c2 :: _ => negb (is_js_space c && is_js_space c2) && single_spaced r
      end
  end.

(** ** Requests that are settled in time *)

(** The promise [p] is settled. *)
Definition answered (p : promise) (L : Loop) : Prop :=
  exists s, settlement_of p (settled L) = Some s.

(** The event, met in the state [L], is not a request that takes the
    id [i]. *)
Definition send_elsewhere (i : rpc_id) (L : Loop) (e : event) : Prop :=
  match e with
  | Send request =>
      killed (child L) = true
      \/ fst (next_request_id request (lastRequestId (transport L))) <> i
  | _ => True
  end.

(* ================================================================== *)
(** * Decidable equality of strings and ids *)

Lemma jsstring_eqb_spec (a b : jsstring) : reflect (a = b) (jsstring_eqb a b).
Proof.
  revert b; induction a as [|x a IH]; intros [|y b]; simpl;
    try (constructor; congruence).
  destruct (N.eqb_spec x y) as [->|Hxy]; simpl.
  - destruct (IH b) as [->|Hab]; constructor; congruence.
  - constructor; congruence.
Qed.


Lemma rpc_id_eqb_spec (a b : rpc_id) : reflect (a = b) (rpc_id_eqb a b).
Proof.
  destruct a as [x|x], b as [y|y]; simpl; try (constructor; congruence).
  - destruct (Z.eqb_spec x y); constructor; congruence.
  - destruct (jsstring_eqb_spec x y); constructor; congruence.
Qed.


#[export] Instance rpc_id_EqbSpec : @EqbSpec rpc_id _.
Proof.
  intros a b; unfold eqb, rpc_id_Eqb.
  destruct (rpc_id_eqb_spec a b); split; congruence.
Qed.

#[export] Instance jsstring_EqbSpec : @EqbSpec jsstring _.
Proof.
  intros a b; unfold eqb, jsstring_Eqb.
  destruct (jsstring_eqb_spec a b); split; congruence.
Qed.

(* ================================================================== *)
(** * Facts about [Map] *)

Module MapFacts.
Section Facts.
Context {K V : Type} {HK : Eqb K} {HKS : @EqbSpec K HK}.
Implicit Types (k : K) (v : V) (m : Map.t K V).

Lemma eqb_spec (a b : K) : reflect (a = b) (eqb a b).
Proof. apply iff_reflect; symmetry; apply eqb_eq. Qed.

Lemma eqb_refl k : eqb k k = true.
Proof. destruct (eqb_spec k k); congruence. Qed.

Lemma eqb_neq k k' : k <> k' -> eqb k k' = false.
Proof. destruct (eqb_spec k k'); congruence. Qed.

Lemma get_set_same k v m : Map.get k (Map.set k v m) = Some v.
Proof.
  induction m as [|[k' v'] m IH]; simpl.
  - now rewrite eqb_refl.
  - destruct (eqb_spec k k') as [->|Hn]; simpl.
    + now rewrite eqb_refl.
    + now rewrite (eqb_neq Hn).
Qed.

Lemma get_set_other k k' v m :
  k <> k' -> Map.get k' (Map.set k v m) = Map.get k' m.
Proof.
  intros Hn; induction m as [|[k0 v0] m IH]; simpl.
  - rewrite eqb_neq; auto.
  - destruct (eqb_spec k k0) as [->|Hk]; simpl.
    + rewrite !eqb_neq; auto.
    + now rewrite IH.
Qed.

Lemma get_delete_same k m : Map.get k (Map.delete k m) = None.
Proof.
  induction m as [|[k' v'] m IH]; simpl; auto.
  destruct (eqb_spec k k') as [->|Hn]; simpl; auto.
  now rewrite (eqb_neq Hn).
Qed.

Lemma get_delete_other k k' m :
  k <> k' -> Map.get k' (Map.delete k m) = Map.get k' m.
Proof.
  intros Hn; induction m as [|[k0 v0] m IH]; simpl; auto.
  destruct (eqb_spec k k0) as [->|Hk]; simpl.
  - rewrite IH, eqb_neq; auto.
  - now rewrite IH.
Qed.

Lemma has_delete_same k m : Map.has k (Map.delete k m) = false.
Proof. unfold Map.has; now rewrite get_delete_same. Qed.

Lemma in_delete k k' v' m :
  In (k', v') (Map.delete k m) -> In (k', v') m /\ k' <> k.
Proof.
  induction m as [|[k0 v0] m IH]; simpl; [tauto|].
  destruct (eqb_spec k k0) as [->|Hk]; simpl.
  - intros Hin; destruct (IH Hin); auto.
  - intros [Heq|Hin].
    + inversion Heq; subst; auto.
    + destruct (IH Hin); auto.
Qed.

Lemma in_set k v k' v' m :
  In (k', v') (Map.set k v m) -> (k' = k /\ v' = v) \/ In (k', v') m.
Proof.
  induction m as [|[k0 v0] m IH]; simpl.
  - intros [Heq|[]]; inversion Heq; auto.
  - destruct (eqb_spec k k0) as [->|Hk]; simpl.
    + intros [Heq|Hin]; [inversion Heq; auto|auto].
    + intros [Heq|Hin]; auto.
      destruct (IH Hin) as [?|?]; auto.
Qed.

Lemma in_keys_delete k k' m :
  In k' (Map.keys (Map.delete k m)) -> In k' (Map.keys m).
Proof.
  unfold Map.keys; rewrite !in_map_iff.
  intros [[k0 v0] [Heq Hin]]; simpl in Heq; subst.
  apply in_delete in Hin; exists (k', v0); tauto.
Qed.

Lemma NoDup_keys_delete k m :
  NoDup (Map.keys m) -> NoDup (Map.keys (Map.delete k m)).
Proof.
  induction m as [|[k0 v0] m IH]; simpl; auto.
  intros Hnd; inversion Hnd as [|? ? Hnin Hnd']; subst.
  destruct (eqb k k0); simpl; auto.
  constructor; auto.
  intros Hin; apply Hnin; eapply in_keys_delete; eauto.
Qed.

Lemma in_keys_set k v k' m :
  In k' (Map.keys (Map.set k v m)) -> k' = k \/ In k' (Map.keys m).
Proof.
  unfold Map.keys; rewrite !in_map_iff.
  intros [[k0 v0] [Heq Hin]]; simpl in Heq; subst.
  apply in_set in Hin; destruct Hin as [[? ?]|?]; auto.
  right; exists (k', v0); auto.
Qed.

Lemma NoDup_keys_set k v m :
  NoDup (Map.keys m) -> NoDup (Map.keys (Map.set k v m)).
Proof.
  induction m as [|[k0 v0] m IH]; simpl.
  - intros _; repeat constructor; simpl; tauto.
  - intros Hnd; inversion Hnd as [|? ? Hnin Hnd']; subst.
    destruct (eqb_spec k k0) as [->|Hk]; simpl.
    + constructor; auto.
    + constructor; auto.
      intros Hin; apply in_keys_set in Hin; destruct Hin; auto.
Qed.

Lemma get_in k v m : Map.get k m = Some v -> In (k, v) m.
Proof.
  induction m as [|[k0 v0] m IH]; simpl; [discriminate|].
  destruct (eqb_spec k k0) as [->|Hk].
  - intros Heq; inversion Heq; auto.
  - auto.
Qed.

Lemma in_get k v m : NoDup (Map.keys m) -> In (k, v) m -> Map.get k m = Some v.
Proof.
  induction m as [|[k0 v0] m IH]; simpl; [tauto|].
  intros Hnd; inversion Hnd as [|? ? Hnin Hnd']; subst.
  intros [Heq|Hin].
  - inversion Heq; subst; now rewrite eqb_refl.
  - destruct (eqb_spec k k0) as [->|Hk]; auto.
    exfalso; apply Hnin; unfold Map.keys; apply in_map_iff.
    exists (k0, v); auto.
Qed.

Lemma has_true k m : Map.has k m = true <-> exists v, Map.get k m = Some v.
Proof.
  unfold Map.has; destruct (Map.get k m); split; eauto; try discriminate.
  intros [? ?]; discriminate.
Qed.
End Facts.
End MapFacts.
(* ================================================================== *)
(** * The JSON reader: more fuel and more text *)

Module JSONFacts.
Import JSON.

Lemma skip_ws_app s t c r :
  skip_ws s = c :: r -> skip_ws (s ++ t) = c :: r ++ t.
Proof.
  induction s as [|x s IH]; simpl; [discriminate|].
  destruct (is_ws x); auto.
  intros [= -> ->]; reflexivity.
Qed.

Lemma skip_ws_app_nil s t : skip_ws s = [] -> skip_ws (s ++ t) = skip_ws t.
Proof.
  induction s as [|x s IH]; simpl; auto.
  destruct (is_ws x); auto; discriminate.
Qed.

Lemma is_ws_js_space c : is_ws c = true -> is_js_space c = true.
Proof.
  unfold is_ws; rewrite !orb_true_iff, !N.eqb_eq.
  intros [[[->| ->]| ->]| ->]; reflexivity.
Qed.

Lemma skip_ws_nil_trim s : skip_ws s = [] -> trim s = [].
Proof.
  intros Hs. assert (Ht : trim_start s = []).
  { induction s as [|x s IH]; simpl in *; auto.
    destruct (is_ws x) eqn:Hx; [|discriminate].
    rewrite (is_ws_js_space _ Hx); auto. }
  unfold trim; now rewrite Ht.
Qed.

Lemma string_chars_app t n : forall s acc str r,
  length s <= n ->
  string_chars s acc = Some (str, r) ->
  string_chars (s ++ t) acc = Some (str, r ++ t).
Proof.
  induction n as [|n IH]; intros s acc str r Hlen.
  - destruct s; simpl in *; [discriminate|lia].
  - destruct s as [|c s]; [discriminate|]. cbn [app string_chars].
    destruct (c =? 34)%N; [intros [= <- <-]; reflexivity|].
    destruct (c =? 92)%N.
    + destruct s as [|e s1]; [discriminate|]. cbn [app].
      destruct (e =? 117)%N.
      * destruct s1 as [|h1 [|h2 [|h3 [|h4 r2]]]]; try discriminate. cbn [app].
        destruct (hex4 h1 h2 h3 h4); [|discriminate].
        apply IH. simpl in Hlen; lia.
      * destruct (unescape e); [|discriminate].
        apply IH. simpl in Hlen; lia.
    + destruct (c <? 32)%N; [discriminate|].
      apply IH. simpl in Hlen; lia.
Qed.

Lemma take_digits_app s t : forall d r,
  take_digits s = (d, r) -> r <> [] -> take_digits (s ++ t) = (d, r ++ t).
Proof.
  induction s as [|c s IH]; intros d r; cbn [app take_digits].
  - intros [= <- <-]; congruence.
  - destruct (is_digit c).
    + destruct (take_digits s) as [d' r'] eqn:Hd. intros [= <- <-] Hr.
      now rewrite (IH d' r' eq_refl Hr).
    + intros [= <- <-] _; reflexivity.
Qed.

Lemma sign_app s t neg r :
  sign s = (neg, r) -> r <> [] -> sign (s ++ t) = (neg, r ++ t).
Proof.
  destruct s as [|c s]; cbn [app sign].
  - intros [= <- <-]; congruence.
  - destruct (c =? 45)%N; intros [= <- <-] Hr; [|reflexivity].
    destruct s; [congruence|reflexivity].
Qed.

Lemma int_part_app s t d r :
  int_part s = Some (d, r) -> r <> [] -> int_part (s ++ t) = Some (d, r ++ t).
Proof.
  unfold int_part. destruct (take_digits s) as [d' r'] eqn:Hd.
  destruct d' as [|d0 ds]; [discriminate|].
  destruct ((d0 =? 48)%N && negb (Nat.eqb (length ds) 0)) eqn:Hz; [discriminate|].
  intros [= <- <-] Hr. rewrite (take_digits_app _ t Hd Hr). now rewrite Hz.
Qed.

Lemma frac_part_app s t d r :
  frac_part s = Some (d, r) -> r <> [] -> frac_part (s ++ t) = Some (d, r ++ t).
Proof.
  destruct s as [|c s]; cbn [app frac_part].
  - intros [= <- <-]; congruence.
  - destruct (c =? 46)%N.
    + destruct (take_digits s) as [f r'] eqn:Hd.
      destruct f as [|f0 fs]; [discriminate|].
      intros [= <- <-] Hr. now rewrite (take_digits_app _ t Hd Hr).
    + intros [= <- <-] _; reflexivity.
Qed.

Lemma exp_part_app s t e r :
  exp_part s = Some (e, r) -> r <> [] -> exp_part (s ++ t) = Some (e, r ++ t).
Proof.
  destruct s as [|c s]; cbn [app exp_part].
  - intros [= <- <-]; congruence.
  - destruct ((c =? 101) || (c =? 69))%N; [|intros [= <- <-] _; reflexivity].
    destruct s as [|c1 s']; cbn [app].
    + simpl. discriminate.
    + destruct (c1 =? 45)%N.
      * destruct (take_digits s') as [ed r2] eqn:Hd.
        destruct ed as [|e0 es]; [discriminate|].
        intros [= <- <-] Hr. now rewrite (take_digits_app _ t Hd Hr).
      * destruct (c1 =? 43)%N.
        -- destruct (take_digits s') as [ed r2] eqn:Hd.
           destruct ed as [|e0 es]; [discriminate|].
           intros [= <- <-] Hr. now rewrite (take_digits_app _ t Hd Hr).
        -- destruct (take_digits (c1 :: s')) as [ed r2] eqn:Hd.
           destruct ed as [|e0 es]; [discriminate|].
           intros [= <- <-] Hr.
           change (c1 :: s' ++ t) with ((c1 :: s') ++ t).
           now rewrite (take_digits_app _ t Hd Hr).
Qed.

Lemma stage_rest_nonempty {A} (f : jsstring -> option (A * jsstring)) s x r :
  f [] = None \/ (exists y, f [] = Some (y, [])) ->
  f s = Some (x, r) -> r <> [] -> s <> [].
Proof.
  intros Hnil Hf Hr ->. destruct Hnil as [Hn|[y Hy]]; congruence.
Qed.

Lemma number_app s t v r :
  number s = Some (v, r) -> r <> [] -> number (s ++ t) = Some (v, r ++ t).
Proof.
  unfold number. destruct (sign s) as [neg s1] eqn:Hsign.
  destruct (int_part s1) as [[int s2]|] eqn:Hint; [|discriminate].
  destruct (frac_part s2) as [[frac s3]|] eqn:Hfrac; [|discriminate].
  destruct (exp_part s3) as [[e s4]|] eqn:Hexp; [|discriminate].
  intros [= <- <-] Hr.
  assert (H3 : s3 <> []).
  { intros ->; simpl in Hexp; injection Hexp as _ <-; congruence. }
  assert (H2 : s2 <> []).
  { intros ->; simpl in Hfrac; injection Hfrac as _ <-; congruence. }
  assert (H1 : s1 <> []).
  { intros ->; discriminate Hint. }
  rewrite (sign_app _ t Hsign H1), (int_part_app _ t Hint H2),
          (frac_part_app _ t Hfrac H3), (exp_part_app _ t Hexp Hr).
  reflexivity.
Qed.

Lemma nearest_double_is_number neg n d : is_number (nearest_double neg n d) = true.
Proof.
  unfold nearest_double. destruct (n =? 0)%Z; [reflexivity|]. cbv zeta.
  destruct (_ || _); [reflexivity|].
  destruct (if (0 <=? _)%Z then _ else _); reflexivity.
Qed.

Lemma number_is_number s v r : number s = Some (v, r) -> is_number v = true.
Proof.
  unfold number. destruct (sign s) as [neg s1].
  destruct (int_part s1) as [[int s2]|]; [|discriminate].
  destruct (frac_part s2) as [[frac s3]|]; [|discriminate].
  destruct (exp_part s3) as [[e s4]|]; [|discriminate].
  intros [= <- _]. unfold number_of.
  destruct (0 <=? _)%Z; apply nearest_double_is_number.
Qed.

Lemma starts_with_app p s t : starts_with p s = true -> starts_with p (s ++ t) = true.
Proof.
  revert s; induction p as [|x p IH]; intros [|y s]; simpl; auto; try discriminate.
  rewrite !andb_true_iff; intros [-> H]; auto.
Qed.

Lemma starts_with_length p s : starts_with p s = true -> length p <= length s.
Proof.
  revert s; induction p as [|x p IH]; intros [|y s]; simpl; try lia; try discriminate.
  rewrite andb_true_iff; intros [_ H]; apply IH in H; lia.
Qed.

Lemma starts_with_head c p s :
  starts_with (c :: p) s = true -> exists r, s = c :: r.
Proof.
  destruct s as [|y s]; simpl; [discriminate|].
  rewrite andb_true_iff, N.eqb_eq. intros [-> _]; eauto.
Qed.

Lemma starts_with_other c d p r :
  c <> d -> starts_with (d :: p) (c :: r) = false.
Proof.
  intros Hn; simpl. destruct (N.eqb_spec d c); [congruence|reflexivity].
Qed.

Lemma skipn_app_short {A} n (s t : list A) :
  n <= length s -> skipn n (s ++ t) = skipn n s ++ t.
Proof.
  intros Hn. rewrite skipn_app. replace (n - length s) with 0 by lia. reflexivity.
Qed.

Lemma keyword_app s t v r :
  keyword s = Some (v, r) ->
  keyword (s ++ t) = Some (v, r ++ t) /\ is_number v = false.
Proof.
  unfold keyword.
  destruct (starts_with (js "true") s) eqn:H1.
  { intros [= <- <-]. rewrite (starts_with_app _ _ t H1).
    apply starts_with_length in H1.
    rewrite skipn_app_short by exact H1. auto. }
  destruct (starts_with (js "false") s) eqn:H2.
  { intros [= <- <-].
    destruct (starts_with_head _ _ _ H2) as [r0 ->].
    assert (E : starts_with (js "true") ((js_unit "f" :: r0) ++ t) = false)
      by (apply (@starts_with_other (js_unit "f") (js_unit "t") (js "rue"));
          discriminate).
    rewrite E.
    rewrite (starts_with_app _ _ t H2).
    apply starts_with_length in H2.
    rewrite skipn_app_short by exact H2. auto. }
  destruct (starts_with (js "null") s) eqn:H3; [|discriminate].
  intros [= <- <-].
  destruct (starts_with_head _ _ _ H3) as [r0 ->].
  assert (E1 : starts_with (js "true") ((js_unit "n" :: r0) ++ t) = false)
    by (apply (@starts_with_other (js_unit "n") (js_unit "t") (js "rue"));
        discriminate).
  assert (E2 : starts_with (js "false") ((js_unit "n" :: r0) ++ t) = false)
    by (apply (@starts_with_other (js_unit "n") (js_unit "f") (js "alse"));
        discriminate).
  rewrite E1, E2.
  rewrite (starts_with_app _ _ t H3).
  apply starts_with_length in H3.
  rewrite skipn_app_short by exact H3. auto.
Qed.

(** More fuel changes no result. *)
Lemma value_mono : forall f,
  (forall f' s x, f <= f' -> value f s = Some x -> value f' s = Some x)
  /\ (forall f' s acc x, f <= f' ->
        members f s acc = Some x -> members f' s acc = Some x)
  /\ (forall f' s acc x, f <= f' ->
        elements f s acc = Some x -> elements f' s acc = Some x).
Proof.
  induction f as [|f (IHv & IHm & IHe)].
  - repeat split; intros; discriminate.
  - repeat split.
    + intros [|f'] s x Hle; [lia|]. simpl.
      destruct (skip_ws s) as [|c r]; [discriminate|].
      destruct (c =? 123)%N.
      { destruct (skip_ws r) as [|c2 r2]; [discriminate|].
        destruct (c2 =? 125)%N; [auto|]. apply IHm; lia. }
      destruct (c =? 91)%N; [|auto].
      destruct (skip_ws r) as [|c2 r2]; [discriminate|].
      destruct (c2 =? 93)%N; [auto|]. apply IHe; lia.
    + intros [|f'] s acc x Hle; [lia|]. simpl.
      destruct (skip_ws s) as [|c r]; [discriminate|].
      destruct (c =? 34)%N; [|auto].
      destruct (string_chars r []) as [[k r1]|]; [|auto].
      destruct (skip_ws r1) as [|c1 r2]; [discriminate|].
      destruct (c1 =? 58)%N; [|auto].
      destruct (value f r2) as [[v r3]|] eqn:Hv; [|discriminate].
      rewrite (IHv f' r2 _ ltac:(lia) Hv).
      destruct (skip_ws r3) as [|c3 r4]; [discriminate|].
      destruct (c3 =? 44)%N; [|auto]. apply IHm; lia.
    + intros [|f'] s acc x Hle; [lia|]. simpl.
      destruct (value f s) as [[v r1]|] eqn:Hv; [|discriminate].
      rewrite (IHv f' s _ ltac:(lia) Hv).
      destruct (skip_ws r1) as [|c r2]; [discriminate|].
      destruct (c =? 44)%N; [|auto]. apply IHe; lia.
Qed.

Lemma skip_ws_nonempty s c r : skip_ws s = c :: r -> s <> [].
Proof. intros H ->; discriminate. Qed.

(** Text after a value does not change how the value is read, provided the
    value does not end where the text ends as a number would go on. *)
Lemma value_app t : forall f,
  (forall s v r, value f s = Some (v, r) ->
     r <> [] \/ is_number v = false ->
     value f (s ++ t) = Some (v, r ++ t))
  /\ (forall s acc v r, members f s acc = Some (v, r) ->
        members f (s ++ t) acc = Some (v, r ++ t))
  /\ (forall s acc v r, elements f s acc = Some (v, r) ->
        elements f (s ++ t) acc = Some (v, r ++ t)).
Proof.
  induction f as [|f (IHv & IHm & IHe)].
  - repeat split; intros; discriminate.
  - repeat split.
    + intros s v r. simpl.
      destruct (skip_ws s) as [|c r0] eqn:Hs; [discriminate|].
      rewrite (skip_ws_app _ t Hs).
      destruct (c =? 123)%N.
      { destruct (skip_ws r0) as [|c2 r2] eqn:H2; [discriminate|].
        rewrite (skip_ws_app _ t H2).
        destruct (c2 =? 125)%N; [intros [= <- <-] _; reflexivity|].
        intros H _. apply (IHm _ _ _ _ H). }
      destruct (c =? 91)%N.
      { destruct (skip_ws r0) as [|c2 r2] eqn:H2; [discriminate|].
        rewrite (skip_ws_app _ t H2).
        destruct (c2 =? 93)%N; [intros [= <- <-] _; reflexivity|].
        intros H _. apply (IHe _ _ _ _ H). }
      destruct (c =? 34)%N.
      { destruct (string_chars r0 []) as [[str r1]|] eqn:Hstr; [|discriminate].
        intros [= <- <-] _.
        now rewrite (@string_chars_app t _ _ _ _ _ (Nat.le_refl _) Hstr). }
      destruct ((c =? 116) || (c =? 102) || (c =? 110))%N.
      { intros H _. apply (keyword_app _ t H). }
      intros H Hr. apply (number_app _ t H).
      destruct Hr as [Hr|Hr]; [exact Hr|].
      rewrite (number_is_number _ H) in Hr; discriminate.
    + intros s acc v r. simpl.
      destruct (skip_ws s) as [|c r0] eqn:Hs; [discriminate|].
      rewrite (skip_ws_app _ t Hs).
      destruct (c =? 34)%N; [|discriminate].
      destruct (string_chars r0 []) as [[k r1]|] eqn:Hstr; [|discriminate].
      rewrite (@string_chars_app t _ _ _ _ _ (Nat.le_refl _) Hstr).
      destruct (skip_ws r1) as [|c1 r2] eqn:H1; [discriminate|].
      rewrite (skip_ws_app _ t H1).
      destruct (c1 =? 58)%N; [|discriminate].
      destruct (value f r2) as [[v' r3]|] eqn:Hv; [|discriminate].
      destruct (skip_ws r3) as [|c3 r4] eqn:H3; [discriminate|].
      rewrite (IHv _ _ _ Hv (or_introl (skip_ws_nonempty H3))).
      rewrite (skip_ws_app _ t H3).
      destruct (c3 =? 44)%N; [apply IHm|].
      destruct (c3 =? 125)%N; [|discriminate].
      intros [= <- <-]; reflexivity.
    + intros s acc v r. simpl.
      destruct (value f s) as [[v' r1]|] eqn:Hv; [|discriminate].
      destruct (skip_ws r1) as [|c r2] eqn:H1; [discriminate|].
      rewrite (IHv _ _ _ Hv (or_introl (skip_ws_nonempty H1))).
      rewrite (skip_ws_app _ t H1).
      destruct (c =? 44)%N; [apply IHe|].
      destruct (c =? 93)%N; [|discriminate].
      intros [= <- <-]; reflexivity.
Qed.

(** What [members] returns is an object, and so is the value of a text that
    opens with a brace. *)
Lemma members_object : forall f s acc v r,
  members f s acc = Some (v, r) -> exists ms, v = JObj ms.
Proof.
  induction f as [|f IH]; intros s acc v r; simpl; [discriminate|].
  destruct (skip_ws s) as [|c r0]; [discriminate|].
  destruct (c =? 34)%N; [|discriminate].
  destruct (string_chars r0 []) as [[k r1]|]; [|discriminate].
  destruct (skip_ws r1) as [|c1 r2]; [discriminate|].
  destruct (c1 =? 58)%N; [|discriminate].
  destruct (value f r2) as [[v' r3]|]; [|discriminate].
  destruct (skip_ws r3) as [|c3 r4]; [discriminate|].
  destruct (c3 =? 44)%N; [apply IH|].
  destruct (c3 =? 125)%N; [|discriminate].
  intros [= <- _]; eauto.
Qed.

Lemma parse_brace_object s v :
  parse (123%N :: s) = Some v -> exists ms, v = JObj ms.
Proof.
  unfold parse. generalize (2 * length (123%N :: s)); intros n. simpl.
  destruct (skip_ws s) as [|c2 r2]; [discriminate|].
  destruct (c2 =? 125)%N.
  - destruct (skip_ws r2); [|discriminate]. intros [= <-]; eauto.
  - destruct (members n (c2 :: r2) []) as [[v' r]|] eqn:Hm; [|discriminate].
    destruct (skip_ws r); [|discriminate]. intros [= <-].
    eapply members_object; eauto.
Qed.

(** A text that is a JSON value other than a number is no JSON text any more
    when something that is not white space follows it. *)
Lemma parse_app_none s t v :
  parse s = Some v -> is_number v = false -> skip_ws t <> [] ->
  parse (s ++ t) = None.
Proof.
  unfold parse. intros H Hv Ht.
  destruct (value (S (2 * length s)) s) as [[v' r]|] eqn:Hval; [|discriminate].
  destruct (skip_ws r) eqn:Hr; [|discriminate]. injection H as ->.
  assert (Hle : S (2 * length s) <= S (2 * length (s ++ t)))
    by (rewrite length_app; lia).
  apply (proj1 (value_mono _) _ _ _ Hle) in Hval.
  rewrite (proj1 (value_app t _) _ _ _ Hval (or_intror Hv)).
  rewrite (skip_ws_app_nil _ t Hr).
  destruct (skip_ws t); congruence.
Qed.

End JSONFacts.
(* ================================================================== *)
(** * Numbers of a JSON text *)

Lemma strip_zeros_power j : forall m,
  (m <> 0)%Z ->
  JSON.strip_zeros j (m * 10 ^ Z.of_nat j) (- Z.of_nat j) = (m, 0%Z).
Proof.
  induction j as [|j IH]; intros m Hm.
  - simpl. now rewrite Z.mul_1_r.
  - cbn [JSON.strip_zeros].
    replace (Z.of_nat (S j)) with (Z.of_nat j + 1)%Z by lia.
    rewrite Z.pow_add_r, Z.pow_1_r by lia.
    replace (m * (10 ^ Z.of_nat j * 10))%Z with ((m * 10 ^ Z.of_nat j) * 10)%Z by ring.
    rewrite Z.mod_mul, Z.div_mul by lia.
    replace (- (Z.of_nat j + 1) <? 0)%Z with true by (symmetry; apply Z.ltb_lt; lia).
    cbn [andb Z.eqb].
    replace (- (Z.of_nat j + 1) + 1)%Z with (- Z.of_nat j)%Z by lia.
    now apply IH.
Qed.

Lemma round_half_even_whole a : JSON.round_half_even a 1 = a.
Proof.
  unfold JSON.round_half_even. rewrite Z.mod_1_r, Z.div_1_r. reflexivity.
Qed.

(** An integer of at most 53 bits is a double: it is read as it is
    written. *)
Lemma nearest_double_integer neg n :
  (0 < n <= 2 ^ 53)%Z ->
  JSON.nearest_double neg n 1 = JNum (if neg then - n else n)%Z 0.
Proof.
  intros Hn. unfold JSON.nearest_double.
  replace (n =? 0)%Z with false by (symmetry; apply Z.eqb_neq; lia).
  change (Z.log2 1) with 0%Z. rewrite Z.sub_0_r.
  pose proof (Z.log2_nonneg n) as Hk0.
  destruct (Z.log2_spec n ltac:(lia)) as [Hlo Hhi].
  set (k := Z.log2 n) in *.
  cbv zeta.
  replace (Z.max 0 (- k)) with 0%Z by lia.
  replace (Z.max 0 k) with k by lia.
  rewrite Z.pow_0_r, Z.mul_1_r, Z.mul_1_l.
  replace (n <? 2 ^ k)%Z with false by (symmetry; apply Z.ltb_ge; lia).
  assert (Hk : (k <= 53)%Z).
  { destruct (Z_le_gt_dec k 53) as [|Hgt]; [assumption|exfalso].
    assert (2 ^ 54 <= 2 ^ k)%Z by (apply Z.pow_le_mono_r; lia).
    assert (2 ^ 53 < 2 ^ 54)%Z by (apply Z.pow_lt_mono_r; lia). lia. }
  replace (Z.max (k - 52) (-1074)) with (k - 52)%Z by lia.
  destruct (Z.eq_dec k 53) as [E|E].
  - assert (n = 2 ^ 53)%Z by (rewrite E in Hlo; lia). subst n. rewrite E.
    vm_compute. destruct neg; reflexivity.
  - replace (Z.max 0 (- (k - 52))) with (52 - k)%Z by lia.
    replace (Z.max 0 (k - 52)) with 0%Z by lia.
    rewrite Z.pow_0_r, Z.mul_1_l, round_half_even_whole.
    replace (971 <? k - 52)%Z with false by (symmetry; apply Z.ltb_ge; lia).
    replace (k - 52 =? 971)%Z with false by (symmetry; apply Z.eqb_neq; lia).
    cbn [orb andb].
    destruct (Z.eq_dec k 52) as [E2|E2].
    + rewrite E2. change (52 - 52)%Z with 0%Z. cbn [Z.leb Z.compare].
      change (0 <=? 0)%Z with true. cbv iota.
      now rewrite !Z.pow_0_r, !Z.mul_1_r.
    + replace (0 <=? k - 52)%Z with false by (symmetry; apply Z.leb_gt; lia).
      replace (- (k - 52))%Z with (52 - k)%Z by lia.
      unfold JSON.normalize.
      assert (Hpos : (0 < 2 ^ (52 - k))%Z) by (apply Z.pow_pos_nonneg; lia).
      assert (Hpos5 : (0 < 5 ^ (52 - k))%Z) by (apply Z.pow_pos_nonneg; lia).
      replace (n * 2 ^ (52 - k) * 5 ^ (52 - k) =? 0)%Z with false
        by (symmetry; apply Z.eqb_neq; nia).
      replace (0 <=? k - 52)%Z with false by (symmetry; apply Z.leb_gt; lia).
      replace (n * 2 ^ (52 - k) * 5 ^ (52 - k))%Z
        with (n * 10 ^ Z.of_nat (Z.to_nat (52 - k)))%Z.
      2:{ rewrite Z2Nat.id by lia. change 10%Z with (2 * 5)%Z.
          rewrite Z.pow_mul_l. ring. }
      replace (k - 52)%Z with (- Z.of_nat (Z.to_nat (52 - k)))%Z at 2
        by (rewrite Z2Nat.id; lia).
      replace (Z.to_nat (- (k - 52))) with (Z.to_nat (52 - k)) by (f_equal; lia).
      rewrite strip_zeros_power by lia. reflexivity.
Qed.

(** Literals that no double equals are read as the nearest double, and as
    an infinity beyond the range. *)
Lemma literals_are_rounded :
  JSON.parse (js "1.00000000000000000000001") = Some (JNum 1 0)
  /\ JSON.parse (js "1e-400") = Some (JNum 0 0)
  /\ JSON.parse (js "9007199254740993") = Some (JNum 9007199254740992 0)
  /\ JSON.parse (js "0.5") = Some (JNum 5 (-1))
  /\ JSON.parse (js "-2.5e3") = Some (JNum (-2500) 0)
  /\ JSON.parse (js "1e400") = Some (JInf false)
  /\ JSON.parse (js "-0") = Some (JNum 0 0).
Proof. vm_compute. repeat split; reflexivity. Qed.

Lemma integer_literal_is_exact neg int :
  (0 < JSON.digits_value int <= 2 ^ 53)%Z ->
  JSON.number_of neg int [] 0
  = JNum (if neg then - JSON.digits_value int else JSON.digits_value int)%Z 0.
Proof.
  intros Hd. unfold JSON.number_of. rewrite app_nil_r. cbn [length].
  change (0 - Z.of_nat 0)%Z with 0%Z. change (0 <=? 0)%Z with true. cbv iota.
  rewrite Z.pow_0_r, Z.mul_1_r. now apply nearest_double_integer.
Qed.
(* ================================================================== *)
(** * The framer *)

Section FramerFacts.

Lemma trim_start_length s : length (trim_start s) <= length s.
Proof.
  induction s as [|c r IH]; simpl; auto.
  destruct (is_js_space c); simpl; lia.
Qed.

Lemma trim_length s : length (trim s) <= length s.
Proof.
  unfold trim. rewrite length_rev.
  etransitivity; [apply trim_start_length|].
  rewrite length_rev. apply trim_start_length.
Qed.

Lemma count_cons c x s :
  count c (x :: s) = (if N.eqb c x then 1 else 0) + count c s.
Proof. unfold count; simpl; destruct (N.eqb c x); reflexivity. Qed.

(** The scan computes the first balance point, counting from its
    accumulators. *)
Lemma scan_braces_spec s : forall i o c,
  scan_braces s i o c =
  hd_error (filter (fun e =>
              (nth (e - 1 - i) s 0 =? 125)%N
              && Nat.eqb (o + count 123 (firstn (e - i) s))
                         (c + count 125 (firstn (e - i) s)))
           (seq (S i) (length s))).
Proof.
  induction s as [|x r IH]; intros i o c; [reflexivity|].
  cbn [scan_braces length seq filter].
  replace (S i - 1 - i) with 0 by lia.
  replace (S i - i) with 1 by lia.
  cbn [nth firstn]. rewrite !count_cons. unfold count at 1 2; cbn [filter length].
  assert (Hrest : forall o' c',
    o' = (if (123 =? x)%N then 1 else 0) + o ->
    c' = (if (125 =? x)%N then 1 else 0) + c ->
    scan_braces r (S i) o' c' =
    hd_error (filter (fun e =>
                (nth (e - 1 - i) (x :: r) 0 =? 125)%N
                && Nat.eqb (o + count 123 (firstn (e - i) (x :: r)))
                           (c + count 125 (firstn (e - i) (x :: r))))
             (seq (S (S i)) (length r)))).
  { intros o' c' -> ->. rewrite IH. f_equal. apply filter_ext_in.
    intros e He. apply in_seq in He.
    replace (e - 1 - i) with (S (e - 1 - S i)) by lia.
    replace (e - i) with (S (e - S i)) by lia.
    cbn [nth firstn]. rewrite !count_cons. f_equal.
    apply Bool.eq_true_iff_eq. rewrite !Nat.eqb_eq. lia. }
  destruct (N.eqb_spec x 125) as [->|Hx].
  - change ((125 =? 125)%N) with true. change ((123 =? 125)%N) with false.
    cbn [andb]. change ((125 =? 123)%N) with false. cbv iota.
    replace (o + (0 + 0)) with o by lia. replace (c + (1 + 0)) with (S c) by lia.
    destruct (Nat.eqb o (S c)); [reflexivity|].
    apply Hrest; reflexivity.
  - cbn [andb].
    assert (H125 : (125 =? x)%N = false) by (apply N.eqb_neq; congruence).
    destruct (N.eqb_spec x 123) as [->|Hx3].
    + apply Hrest; [reflexivity|rewrite H125; reflexivity].
    + assert (H123 : (123 =? x)%N = false) by (apply N.eqb_neq; congruence).
      apply Hrest; [rewrite H123|rewrite H125]; reflexivity.
Qed.

Lemma find_end_first_balance s : find_end s = first_balance s.
Proof.
  unfold find_end, first_balance. rewrite scan_braces_spec.
  f_equal. apply filter_ext. intros e. unfold balanced_at.
  now rewrite !Nat.sub_0_r.
Qed.

Lemma scan_braces_app s t : forall i o c e,
  scan_braces s i o c = Some e -> scan_braces (s ++ t) i o c = Some e.
Proof.
  induction s as [|x r IH]; intros i o c e; simpl; [discriminate|].
  destruct (x =? 125)%N.
  - destruct (Nat.eqb _ _); auto.
  - auto.
Qed.

Lemma scan_braces_bounds s : forall i o c e,
  scan_braces s i o c = Some e -> i < e <= i + length s.
Proof.
  induction s as [|x r IH]; intros i o c e; simpl; [discriminate|].
  destruct (x =? 125)%N.
  - destruct (Nat.eqb _ _).
    + intros [= <-]; lia.
    + intros Hs; apply IH in Hs; lia.
  - intros Hs; apply IH in Hs; lia.
Qed.

Lemma find_end_app s t e : find_end s = Some e -> find_end (s ++ t) = Some e.
Proof. apply scan_braces_app. Qed.

Lemma find_end_bounds s e : find_end s = Some e -> 1 <= e <= length s.
Proof. intros Hs; apply scan_braces_bounds in Hs; lia. Qed.

(** Once the fuel exceeds the length of [remaining] its amount does not
    matter: the loop ends by itself. *)
Lemma parse_loop_fuel : forall fuel fuel' remaining,
  length remaining < fuel -> length remaining < fuel' ->
  parse_loop fuel remaining = parse_loop fuel' remaining.
Proof.
  induction fuel as [|f IH]; intros fuel' remaining Hf Hf'; [lia|].
  destruct fuel' as [|f']; [lia|].
  destruct remaining as [|x r]; [reflexivity|].
  cbn [parse_loop].
  destruct (JSON.parse (x :: r)); [reflexivity|].
  destruct (find_end (x :: r)) as [endPos|] eqn:He; [|reflexivity].
  apply find_end_bounds in He.
  assert (Hlen : forall k, 1 <= k ->
            length (trim (substring_from k (x :: r))) < S (length r)).
  { intros k Hk. unfold substring_from.
    pose proof (trim_length (skipn k (x :: r))) as Ht.
    rewrite length_skipn in Ht. cbn [length] in Ht. lia. }
  simpl in Hf, Hf'.
  destruct (JSON.parse (substring_to endPos (x :: r))).
  - f_equal. apply IH; [specialize (Hlen endPos)|specialize (Hlen endPos)]; lia.
  - apply IH; specialize (Hlen 1); lia.
Qed.

Lemma parseJsonResponses_loop text fuel :
  length (trim text) < fuel ->
  _parseJsonResponses text = parse_loop fuel (trim text).
Proof. intros Hf; unfold _parseJsonResponses; apply parse_loop_fuel; lia. Qed.

Lemma trim_nil : trim [] = [].
Proof. reflexivity. Qed.

(** One chunk holding a stream is framed into the values of the stream. *)
Lemma parse_loop_stream t vs :
  stream t vs -> forall fuel, length t < fuel -> parse_loop fuel t = vs.
Proof.
  induction 1 as [|t v Hne Hp|s gap rest v vs Hp Hb Htrim Hne Hwhole Hst IH];
    intros fuel Hf.
  - destruct fuel; reflexivity.
  - destruct fuel as [|f]; [lia|].
    destruct t as [|x r]; [congruence|].
    cbn [parse_loop]. now rewrite Hp.
  - destruct fuel as [|f]; [lia|].
    rewrite <- find_end_first_balance in Hb.
    pose proof (find_end_bounds _ Hb) as Hlen.
    destruct (s ++ gap ++ rest) as [|x r] eqn:Ht.
    { destruct s; simpl in *; [lia|discriminate]. }
    cbn [parse_loop]. rewrite <- Ht in *. rewrite Hwhole.
    rewrite (find_end_app _ (gap ++ rest) Hb).
    unfold substring_to, substring_from.
    rewrite firstn_app, Nat.sub_diag, firstn_all, firstn_O, app_nil_r, Hp.
    rewrite skipn_app, Nat.sub_diag, skipn_all, skipn_O, app_nil_l, Htrim.
    f_equal. apply IH.
    rewrite !length_app in Hf. lia.
Qed.

Lemma parseJsonResponses_stream text vs :
  stream (trim text) vs -> _parseJsonResponses text = vs.
Proof. intros Hs; unfold _parseJsonResponses; eapply parse_loop_stream; eauto. Qed.

(** Without a balance point and without being a JSON text, nothing is
    framed. *)
Lemma parse_loop_nothing fuel t :
  JSON.parse t = None -> first_balance t = None -> parse_loop fuel t = [].
Proof.
  intros Hp Hb. destruct fuel as [|f]; [reflexivity|].
  destruct t as [|x r]; [reflexivity|].
  cbn [parse_loop]. now rewrite Hp, find_end_first_balance, Hb.
Qed.

End FramerFacts.
(* ================================================================== *)
(** * The transport: invariant of the event loop *)

Section TransportFacts.

Import MapFacts.

Lemma settlement_of_none p l :
  (forall s, ~ In (p, s) l) -> settlement_of p l = None.
Proof.
  induction l as [|[q s] l IH]; intros Hn; simpl; auto.
  destruct (Nat.eqb_spec p q) as [->|Hpq].
  - exfalso; apply (Hn s); simpl; auto.
  - apply IH; intros s' Hin; apply (Hn s'); simpl; auto.
Qed.

Lemma settlement_of_in p s l : settlement_of p l = Some s -> In (p, s) l.
Proof.
  induction l as [|[q s'] l IH]; simpl; [discriminate|].
  destruct (Nat.eqb_spec p q) as [->|Hpq].
  - intros [= ->]; auto.
  - auto.
Qed.

Lemma settlement_of_app p l l' :
  settlement_of p (l ++ l') =
  match settlement_of p l with
  | Some s => Some s
  | None => settlement_of p l'
  end.
Proof.
  induction l as [|[q s] l IH]; simpl; auto.
  destruct (Nat.eqb p q); auto.
Qed.

Lemma settlement_of_app_some p s l l' :
  settlement_of p l = Some s -> settlement_of p (l ++ l') = Some s.
Proof. intros Hs; now rewrite settlement_of_app, Hs. Qed.

(** ** [settle] and [retire] *)

Lemma settle_fields p s L :
  transport (settle p s L) = transport L /\ child (settle p s L) = child L
  /\ clock (settle p s L) = clock L /\ timers (settle p s L) = timers L
  /\ writes (settle p s L) = writes L /\ promises (settle p s L) = promises L.
Proof. unfold settle; destruct (settlement_of p (settled L)); simpl; auto 10. Qed.

Lemma settle_settled p s L :
  settled (settle p s L) =
  match settlement_of p (settled L) with
  | Some _ => settled L
  | None => settled L ++ [(p, s)]
  end.
Proof. unfold settle; destruct (settlement_of p (settled L)); reflexivity. Qed.

Lemma settle_grows p s L : exists extra, settled (settle p s L) = settled L ++ extra.
Proof.
  rewrite settle_settled; destruct (settlement_of p (settled L)).
  - exists []; now rewrite app_nil_r.
  - eauto.
Qed.

Lemma settle_unsettled p s L :
  settlement_of p (settled L) = None ->
  settlement_of p (settled (settle p s L)) = Some s.
Proof.
  intros Hn; rewrite settle_settled, Hn, settlement_of_app, Hn; simpl.
  now rewrite Nat.eqb_refl.
Qed.

Lemma settle_other p q s L :
  p <> q ->
  settlement_of q (settled (settle p s L)) = settlement_of q (settled L).
Proof.
  intros Hpq; rewrite settle_settled; destruct (settlement_of p (settled L)); auto.
  rewrite settlement_of_app; destruct (settlement_of q (settled L)); auto.
  simpl. destruct (Nat.eqb_spec q p); congruence.
Qed.

Lemma handlers_settle p s L : handlers (settle p s L) = handlers L.
Proof. unfold handlers; now destruct (settle_fields p s L) as [-> _]. Qed.

Lemma retire_handlers key p s L :
  handlers (retire key p s L) = Map.delete key (handlers L).
Proof. unfold retire; now rewrite handlers_settle. Qed.

Lemma retire_fields key p s L :
  child (retire key p s L) = child L /\ clock (retire key p s L) = clock L
  /\ timers (retire key p s L) = timers L /\ writes (retire key p s L) = writes L
  /\ promises (retire key p s L) = promises L
  /\ lastRequestId (transport (retire key p s L)) = lastRequestId (transport L).
Proof.
  unfold retire.
  destruct (settle_fields p s (with_handlers (Map.delete key (handlers L)) L))
    as (Ht & -> & -> & -> & -> & ->).
  rewrite Ht; simpl; auto 10.
Qed.

Lemma retire_settled key p s L :
  settled (retire key p s L) =
  match settlement_of p (settled L) with
  | Some _ => settled L
  | None => settled L ++ [(p, s)]
  end.
Proof. unfold retire; now rewrite settle_settled. Qed.

Lemma retire_tied key p s L k2 p2 :
  tied L k2 p2 -> tied (retire key p s L) k2 p2.
Proof.
  intros [Hlt Hk]; split.
  - now destruct (retire_fields key p s L) as (_ & _ & _ & _ & -> & _).
  - intros k' Hin; rewrite retire_handlers in Hin.
    apply in_delete in Hin; apply Hk; tauto.
Qed.

Lemma retire_wf key p s L : wf L -> tied L key p -> wf (retire key p s L).
Proof.
  intros [Hk Hp Hv Hs Ht Hw] [Hlt Htied].
  destruct (retire_fields key p s L) as (Ec & Ek & Et & Ew & En & _).
  assert (Hgone : forall k', ~ In (k', p) (Map.delete key (handlers L))).
  { intros k' Hin; apply in_delete in Hin; destruct Hin as [Hin Hne].
    apply Hne, Htied, Hin. }
  constructor; rewrite ?retire_handlers, ?Ek, ?Et, ?Ew, ?En.
  - now apply NoDup_keys_delete.
  - intros k q Hin. pose proof (Hgone k) as Hg.
    apply in_delete in Hin as Hin'; destruct Hin' as [Hin' _].
    destruct (Hp _ _ Hin') as [Hu Hq]; split; auto.
    unfold retire; rewrite settle_other; auto.
    intros ->; auto.
  - intros k k' q H1 H2; apply in_delete in H1, H2.
    destruct H1, H2; eapply Hv; eauto.
  - intros q s' Hin; rewrite retire_settled in Hin.
    destruct (settlement_of p (settled L)); eauto.
    apply in_app_iff in Hin; destruct Hin as [Hin|[[= <- <-]|[]]]; eauto.
  - intros d k q Hin; destruct (Ht _ _ _ Hin); split; auto.
    now apply retire_tied.
  - intros k q Hin; apply retire_tied; auto.
Qed.

Lemma settle_wf p s L :
  wf L -> p < promises L -> (forall k, ~ In (k, p) (handlers L)) ->
  wf (settle p s L).
Proof.
  intros [Hk Hp Hv Hs Ht Hw] Hlt Hfree.
  destruct (settle_fields p s L) as (Etr & Ec & Ek & Et & Ew & En).
  assert (Eh : handlers (settle p s L) = handlers L) by apply handlers_settle.
  assert (Htied : forall k q, tied L k q -> tied (settle p s L) k q).
  { intros k q [H1 H2]; split; rewrite ?En, ?Eh; auto. }
  constructor; rewrite ?Eh, ?Ek, ?Et, ?Ew, ?En; auto.
  - intros k q Hin; destruct (Hp _ _ Hin) as [Hu Hq]; split; auto.
    rewrite settle_other; auto. intros ->; eapply Hfree; eauto.
  - intros q s' Hin; rewrite settle_settled in Hin.
    destruct (settlement_of p (settled L)); eauto.
    apply in_app_iff in Hin; destruct Hin as [Hin|[[= <- <-]|[]]]; eauto.
  - intros d k q Hin; destruct (Ht _ _ _ Hin); auto.
Qed.

Lemma timeout_callback_wf k p L :
  wf L -> tied L k p -> wf (timeout_callback k p L).
Proof.
  intros Hwf Ht; unfold timeout_callback.
  destruct (Map.has k (handlers L)); auto.
  now apply retire_wf.
Qed.

Lemma timeout_callback_tied k p L k2 p2 :
  tied L k2 p2 -> tied (timeout_callback k p L) k2 p2.
Proof.
  intros Ht; unfold timeout_callback.
  destruct (Map.has k (handlers L)); auto.
  now apply retire_tied.
Qed.

Lemma write_callback_wf k p err L :
  wf L -> tied L k p -> wf (write_callback k p err L).
Proof.
  intros Hwf Ht; destruct err as [message|]; simpl; auto.
  now apply retire_wf.
Qed.

Lemma get_tied L key p :
  wf L -> Map.get key (handlers L) = Some p -> tied L key p.
Proof.
  intros Hwf Hg; apply get_in in Hg; split.
  - now destruct (wf_pending Hwf _ _ Hg).
  - intros k' Hin; eapply wf_values; eauto.
Qed.

(** What [dispatch] does, by cases on the key of the response. *)
Lemma dispatch_cases (response : json) (L : Loop) :
  (response = JNull /\ dispatch response L = None)
  \/ (response <> JNull /\
      dispatch response L =
      Some (match response_key response with
            | Some key =>
                match Map.get key (handlers L) with
                | Some p => retire key p (settlement_for response) L
                | None => L
                end
            | None => L
            end)).
Proof.
  destruct response; [left; auto|right; split; try discriminate..].
  all: unfold dispatch, response_key, member; cbn [get_prop]; try reflexivity.
  destruct (lookup_member (js "id") members) as [v|]; [|reflexivity].
  destruct (truthy v); [|reflexivity].
  destruct (id_of_json v) as [key|]; [|reflexivity].
  destruct (Map.get key (handlers L)); reflexivity.
Qed.

Lemma dispatch_wf response L L' :
  wf L -> dispatch response L = Some L' -> wf L'.
Proof.
  intros Hwf Hd.
  destruct (dispatch_cases response L) as [[_ Hn]|[_ Hs]]; [congruence|].
  rewrite Hs in Hd; injection Hd as <-.
  destruct (response_key response) as [key|]; auto.
  destruct (Map.get key (handlers L)) as [p|] eqn:Hg; auto.
  apply retire_wf; auto. now apply get_tied.
Qed.

Lemma dispatch_all_wf responses : forall L, wf L -> wf (dispatch_all responses L).
Proof.
  induction responses as [|r rest IH]; intros L Hwf; simpl; auto.
  destruct (dispatch r L) as [L'|] eqn:Hd; auto.
  apply IH; eapply dispatch_wf; eauto.
Qed.

Lemma run_timers_wf due : forall L,
  wf L -> (forall t, In t due -> tied L (fst (snd t)) (snd (snd t))) ->
  wf (run_timers due L).
Proof.
  unfold run_timers.
  induction due as [|t due IH]; intros L Hwf Ht; simpl; auto.
  apply IH.
  - apply timeout_callback_wf; auto. apply Ht; simpl; auto.
  - intros t' Hin; apply timeout_callback_tied; apply Ht; simpl; auto.
Qed.

Lemma elapse_wf ms L : wf L -> wf (elapse ms L).
Proof.
  intros Hwf; unfold elapse.
  apply run_timers_wf.
  - destruct Hwf as [Hk Hp Hv Hs Ht Hw].
    constructor; simpl; auto.
    intros d k p Hin; apply filter_In in Hin; destruct Hin as [Hin Hdue].
    destruct (Ht _ _ _ Hin) as [_ Htied]; split; auto.
    unfold is_due in Hdue; simpl in Hdue.
    apply negb_true_iff, N.leb_gt in Hdue; exact Hdue.
  - intros [d [k p]] Hin; apply filter_In in Hin; destruct Hin as [Hin _].
    destruct (wf_timers Hwf _ _ _ Hin) as [_ Htied]; exact Htied.
Qed.

Lemma settled_below L p :
  wf L -> promises L <= p -> settlement_of p (settled L) = None.
Proof.
  intros Hwf Hle; apply settlement_of_none; intros s Hin.
  apply (wf_settled Hwf) in Hin; lia.
Qed.

Lemma sendRequest_wf request L : wf L -> wf (fst (sendRequest request L)).
Proof.
  intros Hwf; unfold sendRequest.
  destruct (killed (child L)).
  - cbn [fst]. apply settle_wf; simpl; auto.
    + destruct Hwf as [Hk Hp Hv Hs Ht Hw]; constructor; unfold tied; simpl.
      * exact Hk.
      * intros k p Hin; destruct (Hp _ _ Hin); split; auto.
      * exact Hv.
      * intros p s Hin; apply Hs in Hin; auto.
      * intros d k p Hin; destruct (Ht _ _ _ Hin) as [? [? ?]].
        split; auto.
      * intros k p Hin; destruct (Hw _ _ Hin) as [? ?]; split; auto.
    + intros k Hin; apply (wf_pending Hwf) in Hin; destruct Hin; lia.
  - destruct (next_request_id request (lastRequestId (transport L)))
      as [requestId last].
    cbn [fst]. set (p := promises L).
    pose proof Hwf as [Hk Hp Hv Hs Ht Hw].
    assert (Hfresh : forall k, ~ In (k, p) (handlers L)).
    { intros k Hin; apply Hp in Hin; destruct Hin; unfold p in *; lia. }
    assert (Htied_old : forall k q,
              tied L k q ->
              q < S p /\ (forall k', In (k', q) (Map.set requestId p (handlers L)) -> k' = k)).
    { intros k q [Hq Hkq]; split; [unfold p; lia|].
      intros k' Hin; apply in_set in Hin; destruct Hin as [[_ ->]|Hin]; auto.
      unfold p in Hq; lia. }
    assert (Htied_new :
              p < S p /\ (forall k', In (k', p) (Map.set requestId p (handlers L)) -> k' = requestId)).
    { split; [lia|]. intros k' Hin; apply in_set in Hin.
      destruct Hin as [[-> _]|Hin]; auto. exfalso; eapply Hfresh; eauto. }
    constructor; unfold handlers, tied; simpl.
    + now apply NoDup_keys_set.
    + intros k q Hin; apply in_set in Hin; destruct Hin as [[-> ->]|Hin].
      * split; [apply settled_below; auto|lia].
      * destruct (Hp _ _ Hin); split; auto; unfold p; lia.
    + intros k k' q H1 H2; apply in_set in H1, H2.
      destruct H1 as [[-> ->]|H1], H2 as [[-> E]|H2]; auto.
      * exfalso; eapply Hfresh; eauto.
      * subst q; exfalso; eapply Hfresh; eauto.
      * eapply Hv; eauto.
    + intros q s Hin; apply Hs in Hin; unfold p; lia.
    + intros d k q Hin; apply in_app_iff in Hin.
      destruct Hin as [Hin|[[= <- <- <-]|[]]].
      * destruct (Ht _ _ _ Hin); split; [assumption|now apply Htied_old].
      * split; [lia|exact Htied_new].
    + intros k q Hin; apply in_app_iff in Hin.
      destruct Hin as [Hin|[[= <- <-]|[]]].
      * apply Htied_old; auto.
      * exact Htied_new.
Qed.

Lemma in_remove_nth {A} (x : A) k l : In x (remove_nth k l) -> In x l.
Proof.
  revert k; induction l as [|y l IH]; intros [|k]; simpl; auto.
  intros [->|Hin]; eauto.
Qed.

Lemma wf_transfer L L' :
  wf L ->
  handlers L' = handlers L -> settled L' = settled L ->
  promises L' = promises L -> clock L' = clock L ->
  (forall t, In t (timers L') -> In t (timers L)) ->
  (forall w, In w (writes L') -> In w (writes L)) ->
  wf L'.
Proof.
  intros [Hk Hp Hv Hs Ht Hw] Eh Es En Ec Hti Hwr.
  constructor; unfold tied; rewrite ?Eh, ?Es, ?En, ?Ec; auto.
  - intros d k p Hin; apply Hti in Hin; exact (Ht _ _ _ Hin).
  - intros k p Hin; apply Hwr in Hin; exact (Hw _ _ Hin).
Qed.

Lemma step_wf L e : wf L -> wf (step L e).
Proof.
  intros Hwf; destruct e as [request|data|k err| ms|]; cbn [step].
  - now apply sendRequest_wf.
  - now apply dispatch_all_wf.
  - destruct (nth_error (writes L) k) as [[requestId p]|] eqn:Hn; auto.
    apply nth_error_In in Hn.
    apply write_callback_wf.
    + apply (@wf_transfer L); simpl; auto.
      intros w Hin; apply in_remove_nth in Hin; auto.
    + apply (wf_writes Hwf) in Hn; exact Hn.
  - now apply elapse_wf.
  - destruct (close_process (child L)); auto.
    apply (@wf_transfer L); simpl; auto.
Qed.

Lemma run_wf events : forall L, wf L -> wf (run L events).
Proof.
  unfold run; induction events as [|e events IH]; intros L Hwf; simpl; auto.
  apply IH, step_wf, Hwf.
Qed.

Lemma new_loop_wf : wf new_loop.
Proof.
  constructor; simpl; try tauto. constructor.
Qed.

End TransportFacts.
(* ================================================================== *)
(** * The transport: settlements are final, responses reach their request *)

Section SettlementFacts.

Import MapFacts.

Lemma grows_refl L : grows L L.
Proof. exists []; now rewrite app_nil_r. Qed.

Lemma grows_trans L1 L2 L3 : grows L1 L2 -> grows L2 L3 -> grows L1 L3.
Proof.
  intros [e1 H1] [e2 H2]; exists (e1 ++ e2); now rewrite H2, H1, app_assoc.
Qed.

Lemma retire_grows key p s L : grows L (retire key p s L).
Proof.
  unfold grows; rewrite retire_settled; destruct (settlement_of p (settled L)).
  - exists []; now rewrite app_nil_r.
  - eauto.
Qed.

Lemma dispatch_grows response L L' : dispatch response L = Some L' -> grows L L'.
Proof.
  intros Hd; destruct (dispatch_cases response L) as [[_ Hn]|[_ Hs]]; [congruence|].
  rewrite Hs in Hd; injection Hd as <-.
  destruct (response_key response) as [key|]; [|apply grows_refl].
  destruct (Map.get key (handlers L)); [apply retire_grows|apply grows_refl].
Qed.

Lemma dispatch_all_grows responses : forall L, grows L (dispatch_all responses L).
Proof.
  induction responses as [|r rest IH]; intros L; simpl; [apply grows_refl|].
  destruct (dispatch r L) as [L'|] eqn:Hd; [|apply grows_refl].
  eapply grows_trans; [eapply dispatch_grows; eauto|apply IH].
Qed.

Lemma timeout_callback_grows k p L : grows L (timeout_callback k p L).
Proof.
  unfold timeout_callback; destruct (Map.has k (handlers L));
    [apply retire_grows|apply grows_refl].
Qed.

Lemma run_timers_grows due : forall L, grows L (run_timers due L).
Proof.
  unfold run_timers; induction due as [|t due IH]; intros L; simpl;
    [apply grows_refl|].
  eapply grows_trans; [apply timeout_callback_grows|apply IH].
Qed.

Lemma step_grows L e : grows L (step L e).
Proof.
  destruct e as [request|data|k err|ms|]; cbn [step].
  - unfold sendRequest; destruct (killed (child L)).
    + cbn [fst]. destruct (settle_grows (promises L)
                  (Rejected (Error (js "Process not available")))
                  (mkLoop (transport L) (child L) (clock L) (timers L)
                          (writes L) (settled L) (S (promises L)))) as [x Hx].
      exists x; exact Hx.
    + destruct (next_request_id _ _); cbn [fst].
      exists []; simpl; now rewrite app_nil_r.
  - apply dispatch_all_grows.
  - destruct (nth_error (writes L) k) as [[requestId p]|]; [|apply grows_refl].
    destruct err as [message|]; cbn [write_callback];
      [|exists []; simpl; now rewrite app_nil_r].
    match goal with |- grows _ (settle ?p ?s (with_handlers (Map.delete ?k _) ?L0)) =>
      destruct (retire_grows k p s L0) as [x Hx]; exists x; exact Hx end.
  - unfold elapse.
    match goal with |- grows _ (run_timers ?d ?L0) =>
      destruct (run_timers_grows d L0) as [x Hx]; exists x; exact Hx end.
  - destruct (close_process (child L)); [|apply grows_refl].
    exists []; simpl; now rewrite app_nil_r.
Qed.

Lemma run_grows events : forall L, grows L (run L events).
Proof.
  unfold run; induction events as [|e events IH]; intros L; simpl;
    [apply grows_refl|].
  eapply grows_trans; [apply step_grows|apply IH].
Qed.

(** A settled promise stays settled the same way. *)
Lemma settlement_final L events p s :
  settlement_of p (settled L) = Some s ->
  settlement_of p (settled (run L events)) = Some s.
Proof.
  intros Hs; destruct (run_grows events L) as [extra ->].
  now apply settlement_of_app_some.
Qed.

Lemma dispatch_matched L response key p :
  wf L -> response_key response = Some key ->
  Map.get key (handlers L) = Some p ->
  dispatch response L = Some (retire key p (settlement_for response) L)
  /\ settled (retire key p (settlement_for response) L)
     = settled L ++ [(p, settlement_for response)].
Proof.
  intros Hwf Hk Hg.
  destruct (dispatch_cases response L) as [[-> _]|[_ Hs]]; [discriminate|].
  rewrite Hs, Hk, Hg; split; [reflexivity|].
  rewrite retire_settled.
  apply get_in in Hg; destruct (wf_pending Hwf _ _ Hg) as [-> _]; reflexivity.
Qed.

Lemma dispatch_unmatched L response :
  response_key response = None
  \/ (exists key, response_key response = Some key
                  /\ Map.get key (handlers L) = None) ->
  dispatch_all [response] L = L.
Proof.
  intros Hun; cbn [dispatch_all].
  destruct (dispatch_cases response L) as [[_ ->]|[_ ->]]; [reflexivity|].
  destruct Hun as [->|(key & -> & ->)]; reflexivity.
Qed.

Lemma dispatch_all_child responses : forall L,
  child (dispatch_all responses L) = child L.
Proof.
  induction responses as [|r rest IH]; intros L; simpl; auto.
  destruct (dispatch_cases r L) as [[_ ->]|[_ ->]]; auto.
  rewrite IH.
  destruct (response_key r) as [key|]; auto.
  destruct (Map.get key (handlers L)); auto.
  now destruct (retire_fields key p (settlement_for r) L) as (-> & _).
Qed.

End SettlementFacts.
(* ================================================================== *)
(** * The transport: a request that is left alone times out *)

Section TimeoutFacts.

Import MapFacts.

Variable i : rpc_id.

Lemma rpc_id_neq j : negb (rpc_id_eqb j i) = true <-> j <> i.
Proof.
  destruct (rpc_id_eqb_spec j i); simpl; split; congruence.
Qed.

Lemma get_delete_none (k : rpc_id) (m : Map.t rpc_id promise) :
  Map.get i m = None -> Map.get i (Map.delete k m) = None.
Proof.
  intros Hn; destruct (rpc_id_eqb_spec k i) as [->|Hne].
  - apply get_delete_same.
  - rewrite get_delete_other; auto.
Qed.

(** ** What one response, one callback do to the handler under [i] *)

Lemma retire_get_other key q s L :
  key <> i -> Map.get i (handlers (retire key q s L)) = Map.get i (handlers L).
Proof. intros Hne; rewrite retire_handlers; now apply get_delete_other. Qed.

Lemma retire_get_none key q s L :
  Map.get i (handlers L) = None -> Map.get i (handlers (retire key q s L)) = None.
Proof. intros Hn; rewrite retire_handlers; now apply get_delete_none. Qed.

Lemma dispatch_all_fields responses : forall L,
  timers (dispatch_all responses L) = timers L
  /\ writes (dispatch_all responses L) = writes L
  /\ clock (dispatch_all responses L) = clock L.
Proof.
  induction responses as [|r rest IH]; intros L; simpl; auto.
  destruct (dispatch_cases r L) as [[_ ->]|[_ ->]]; auto.
  destruct (IH (match response_key r with
                | Some key => match Map.get key (handlers L) with
                              | Some p => retire key p (settlement_for r) L
                              | None => L
                              end
                | None => L
                end)) as (-> & -> & ->).
  destruct (response_key r) as [key|]; auto.
  destruct (Map.get key (handlers L)) as [q|]; auto.
  destruct (retire_fields key q (settlement_for r) L) as (_ & -> & -> & -> & _).
  auto.
Qed.

Lemma dispatch_all_get_other responses : forall L,
  Forall (fun r => response_key r <> Some i) responses ->
  Map.get i (handlers (dispatch_all responses L)) = Map.get i (handlers L).
Proof.
  induction responses as [|r rest IH]; intros L Hall; simpl; auto.
  inversion Hall as [|? ? Hr Hrest]; subst.
  destruct (dispatch_cases r L) as [[_ ->]|[_ ->]]; auto.
  rewrite IH; auto.
  destruct (response_key r) as [key|]; auto.
  destruct (Map.get key (handlers L)) as [q|]; auto.
  apply retire_get_other; congruence.
Qed.

Lemma dispatch_all_get_none responses : forall L,
  Map.get i (handlers L) = None ->
  Map.get i (handlers (dispatch_all responses L)) = None.
Proof.
  induction responses as [|r rest IH]; intros L Hn; simpl; auto.
  destruct (dispatch_cases r L) as [[_ ->]|[_ ->]]; auto.
  apply IH.
  destruct (response_key r) as [key|]; auto.
  destruct (Map.get key (handlers L)) as [q|]; auto.
  now apply retire_get_none.
Qed.

Lemma timeout_callback_fields k q L :
  timers (timeout_callback k q L) = timers L
  /\ writes (timeout_callback k q L) = writes L
  /\ clock (timeout_callback k q L) = clock L
  /\ child (timeout_callback k q L) = child L.
Proof.
  unfold timeout_callback; destruct (Map.has k (handlers L)); auto.
  fold (retire k q (Rejected timeout_error) L).
  destruct (retire_fields k q (Rejected timeout_error) L)
    as (-> & -> & -> & -> & _); auto.
Qed.

Lemma timeout_callback_get_other k q L :
  k <> i ->
  Map.get i (handlers (timeout_callback k q L)) = Map.get i (handlers L).
Proof.
  intros Hne; unfold timeout_callback; destruct (Map.has k (handlers L)); auto.
  fold (retire k q (Rejected timeout_error) L). now apply retire_get_other.
Qed.

Lemma timeout_callback_get_none k q L :
  Map.get i (handlers L) = None ->
  Map.get i (handlers (timeout_callback k q L)) = None.
Proof.
  intros Hn; unfold timeout_callback; destruct (Map.has k (handlers L)); auto.
  fold (retire k q (Rejected timeout_error) L). now apply retire_get_none.
Qed.

Lemma run_timers_fields due : forall L,
  timers (run_timers due L) = timers L
  /\ writes (run_timers due L) = writes L
  /\ clock (run_timers due L) = clock L
  /\ child (run_timers due L) = child L.
Proof.
  unfold run_timers; induction due as [|t due IH]; intros L; simpl; auto.
  destruct (IH (timeout_callback (fst (snd t)) (snd (snd t)) L))
    as (-> & -> & -> & ->).
  apply timeout_callback_fields.
Qed.

Lemma run_timers_get_other due : forall L,
  (forall t, In t due -> fst (snd t) <> i) ->
  Map.get i (handlers (run_timers due L)) = Map.get i (handlers L).
Proof.
  unfold run_timers; induction due as [|t due IH]; intros L Hall; simpl; auto.
  rewrite IH; [|intros; apply Hall; simpl; auto].
  apply timeout_callback_get_other, Hall; simpl; auto.
Qed.

Lemma run_timers_get_none due : forall L,
  Map.get i (handlers L) = None ->
  Map.get i (handlers (run_timers due L)) = None.
Proof.
  unfold run_timers; induction due as [|t due IH]; intros L Hn; simpl; auto.
  apply IH, timeout_callback_get_none, Hn.
Qed.

(** When the timer of the pending request is among those that are due,
    running them rejects its promise with the timeout error. *)
Lemma run_timers_ours p d due : forall L,
  wf L ->
  (forall t, In t due -> tied L (fst (snd t)) (snd (snd t))) ->
  Map.get i (handlers L) = Some p ->
  In (d, (i, p)) due ->
  (forall t, In t due -> fst (snd t) = i -> t = (d, (i, p))) ->
  Map.get i (handlers (run_timers due L)) = None
  /\ settlement_of p (settled (run_timers due L)) = Some (Rejected timeout_error).
Proof.
  induction due as [|t due IH]; intros L Hwf Htied Hg Hin Huniq; [destruct Hin|].
  change (run_timers (t :: due) L)
    with (run_timers due (timeout_callback (fst (snd t)) (snd (snd t)) L)).
  destruct (rpc_id_eqb_spec (fst (snd t)) i) as [Hi|Hni].
  - rewrite (Huniq t (or_introl eq_refl) Hi). cbn [fst snd].
    unfold timeout_callback, Map.has; rewrite Hg.
    fold (retire i p (Rejected timeout_error) L).
    set (L' := retire i p (Rejected timeout_error) L).
    assert (Hs : settlement_of p (settled L') = Some (Rejected timeout_error)).
    { unfold L', retire. apply settle_unsettled. simpl.
      apply get_in in Hg. now destruct (wf_pending Hwf _ _ Hg). }
    split.
    + apply run_timers_get_none. unfold L'; rewrite retire_handlers.
      apply get_delete_same.
    + destruct (run_timers_grows due L') as [extra ->].
      now apply settlement_of_app_some.
  - destruct Hin as [->|Hin]; [cbn [fst snd] in Hni; congruence|].
    apply IH; auto.
    + apply timeout_callback_wf; auto. apply Htied; simpl; auto.
    + intros t' Hin'; apply timeout_callback_tied, Htied; simpl; auto.
    + rewrite timeout_callback_get_other; auto.
    + intros t' Hin'; apply Huniq; simpl; auto.
Qed.

Lemma has_false (m : Map.t rpc_id promise) :
  Map.has i m = false <-> Map.get i m = None.
Proof. unfold Map.has; destruct (Map.get i m); split; congruence. Qed.

Lemma at_time_wf ms L : wf L -> wf (at_time (clock L + ms) L).
Proof.
  intros [Hk Hp Hv Hs Ht Hw]; constructor; simpl; auto.
  intros d k p Hin; apply filter_In in Hin; destruct Hin as [Hin Hdue].
  destruct (Ht _ _ _ Hin) as [_ Htied]; split; auto.
  unfold is_due in Hdue; simpl in Hdue.
  apply negb_true_iff, N.leb_gt in Hdue; exact Hdue.
Qed.

Lemma elapse_at_time ms L :
  elapse ms L
  = run_timers (filter (is_due (clock L + ms)) (timers L))
               (at_time (clock L + ms) L).
Proof. reflexivity. Qed.

Variables (p : promise) (d : N).

Lemma step_armed L e :
  wf L -> armed i p d L -> leaves_alone i L e = true ->
  armed i p d (step L e) \/ timed_out i p (step L e).
Proof.
  intros Hwf (Hg & Hin & Hut & Huw) Hquiet.
  destruct e as [request|data|k err|ms|]; cbn [step leaves_alone] in *.
  - (* Send *)
    left. unfold sendRequest.
    destruct (killed (child L)) eqn:Hk; cbn [fst].
    + repeat split.
      * rewrite handlers_settle; exact Hg.
      * now destruct (settle_fields (promises L)
               (Rejected (Error (js "Process not available")))
               (mkLoop (transport L) (child L) (clock L) (timers L) (writes L)
                       (settled L) (S (promises L)))) as (_ & _ & _ & -> & _).
      * destruct (settle_fields (promises L)
               (Rejected (Error (js "Process not available")))
               (mkLoop (transport L) (child L) (clock L) (timers L) (writes L)
                       (settled L) (S (promises L)))) as (_ & _ & _ & -> & _).
        exact Hut.
      * destruct (settle_fields (promises L)
               (Rejected (Error (js "Process not available")))
               (mkLoop (transport L) (child L) (clock L) (timers L) (writes L)
                       (settled L) (S (promises L)))) as (_ & _ & _ & _ & -> & _).
        exact Huw.
    + simpl in Hquiet. apply rpc_id_neq in Hquiet.
      destruct (next_request_id request (lastRequestId (transport L)))
        as [rid last]; cbn [fst] in *.
      unfold armed, handlers; simpl. repeat split.
      * rewrite get_set_other; auto.
      * apply in_or_app; auto.
      * intros t Ht Hi; apply in_app_iff in Ht.
        destruct Ht as [Ht|[<-|[]]]; auto. simpl in Hi; congruence.
      * intros w Hw Hi; apply in_app_iff in Hw.
        destruct Hw as [Hw|[<-|[]]]; auto. simpl in Hi; congruence.
  - (* Stdout *)
    left. unfold _handleProcessOutput.
    destruct (dispatch_all_fields (_parseJsonResponses data) L) as (Et & Ew & _).
    unfold armed; rewrite Et, Ew, dispatch_all_get_other; auto.
    rewrite forallb_forall in Hquiet. apply Forall_forall; intros r Hr.
    specialize (Hquiet r Hr). destruct (response_key r) as [k|]; [|discriminate].
    apply rpc_id_neq in Hquiet; congruence.
  - (* WriteDone *)
    left. destruct (nth_error (writes L) k) as [[j q]|] eqn:Hn;
      [|repeat split; auto].
    assert (Hsub : forall w, In w (remove_nth k (writes L)) -> fst w = i -> w = (i, p)).
    { intros w Hw; apply in_remove_nth in Hw; auto. }
    destruct err as [message|]; cbn [write_callback].
    + apply rpc_id_neq in Hquiet.
      match goal with |- armed _ _ _ (settle ?q ?s (with_handlers _ ?L0)) =>
        fold (retire j q s L0);
        destruct (retire_fields j q s L0) as (_ & _ & Et & Ew & _);
        unfold armed; rewrite Et, Ew, (retire_get_other q s L0 Hquiet) end.
      repeat split; auto.
    + repeat split; auto.
  - (* Elapse *)
    rewrite elapse_at_time. set (now := (clock L + ms)%N).
    destruct (run_timers_fields (filter (is_due now) (timers L)) (at_time now L))
      as (Et & Ew & _).
    destruct (is_due now (d, (i, p))) eqn:Hdue.
    + right.
      destruct (@run_timers_ours p d (filter (is_due now) (timers L)) (at_time now L))
        as [Hnone Hset]; auto.
      * now apply at_time_wf.
      * intros [d' [k' q']] Ht; apply filter_In in Ht; destruct Ht as [Ht _].
        exact (proj2 (wf_timers Hwf _ _ _ Ht)).
      * apply filter_In; auto.
      * intros t Ht; apply filter_In in Ht; destruct Ht; auto.
      * unfold timed_out; rewrite Et. repeat split; auto.
        -- now apply has_false.
        -- intros t Ht Hi; cbn [at_time timers] in Ht.
           apply filter_In in Ht; destruct Ht as [Ht Hnd].
           rewrite (Hut t Ht Hi), Hdue in Hnd; discriminate.
    + left. unfold armed; rewrite Et, Ew, run_timers_get_other.
      * cbn [at_time timers writes]. repeat split; auto.
        -- apply filter_In; split; auto. now rewrite Hdue.
        -- intros t Ht; apply filter_In in Ht; destruct Ht; auto.
      * intros t Ht Hi; apply filter_In in Ht; destruct Ht as [Ht Hd].
        rewrite (Hut t Ht Hi), Hdue in Hd; discriminate.
  - (* Close *)
    left. destruct (close_process (child L)); repeat split; auto.
Qed.

Lemma step_timed_out L e :
  timed_out i p L -> leaves_alone i L e = true -> timed_out i p (step L e).
Proof.
  intros (Hh & Hs & Ht) Hquiet. apply has_false in Hh.
  unfold timed_out. rewrite has_false.
  split; [|split].
  2:{ destruct (step_grows L e) as [extra ->]. now apply settlement_of_app_some. }
  - destruct e as [request|data|k err|ms|]; cbn [step leaves_alone] in *.
    + unfold sendRequest. destruct (killed (child L)); cbn [fst].
      * now rewrite handlers_settle.
      * simpl in Hquiet; apply rpc_id_neq in Hquiet.
        destruct (next_request_id request (lastRequestId (transport L)))
          as [rid last]; cbn [fst] in *.
        unfold handlers; simpl. rewrite get_set_other; auto.
    + now apply dispatch_all_get_none.
    + destruct (nth_error (writes L) k) as [[j q]|]; auto.
      destruct err as [message|]; cbn [write_callback]; auto.
      match goal with |- Map.get _ (handlers (settle ?q ?s (with_handlers _ ?L0))) = _ =>
        fold (retire j q s L0); apply retire_get_none; exact Hh end.
    + rewrite elapse_at_time. now apply run_timers_get_none.
    + destruct (close_process (child L)); auto.
  - destruct e as [request|data|k err|ms|]; cbn [step leaves_alone] in *.
    + unfold sendRequest. destruct (killed (child L)); cbn [fst].
      * now destruct (settle_fields (promises L)
               (Rejected (Error (js "Process not available")))
               (mkLoop (transport L) (child L) (clock L) (timers L) (writes L)
                       (settled L) (S (promises L)))) as (_ & _ & _ & -> & _).
      * simpl in Hquiet; apply rpc_id_neq in Hquiet.
        destruct (next_request_id request (lastRequestId (transport L)))
          as [rid last]; cbn [fst] in *.
        simpl. intros t Hin; apply in_app_iff in Hin.
        destruct Hin as [Hin|[<-|[]]]; auto.
    + unfold _handleProcessOutput.
      now destruct (dispatch_all_fields (_parseJsonResponses data) L) as (-> & _).
    + destruct (nth_error (writes L) k) as [[j q]|]; auto.
      destruct err as [message|]; cbn [write_callback]; auto.
      match goal with |- forall t, In t (timers (settle ?q ?s (with_handlers _ ?L0))) -> _ =>
        fold (retire j q s L0);
        destruct (retire_fields j q s L0) as (_ & _ & -> & _) end.
      exact Ht.
    + rewrite elapse_at_time.
      destruct (run_timers_fields (filter (is_due (clock L + ms)) (timers L))
                  (at_time (clock L + ms) L)) as (-> & _).
      cbn [at_time timers]. intros t Hin; apply filter_In in Hin; destruct Hin; auto.
    + destruct (close_process (child L)); auto.
Qed.

Lemma run_outcome events : forall L,
  wf L -> armed i p d L \/ timed_out i p L ->
  undisturbed i L events = true ->
  armed i p d (run L events) \/ timed_out i p (run L events).
Proof.
  induction events as [|e events IH]; intros L Hwf Hst Hquiet; [exact Hst|].
  cbn [undisturbed] in Hquiet; apply andb_prop in Hquiet.
  destruct Hquiet as [He Hrest].
  change (run L (e :: events)) with (run (step L e) events).
  apply IH; auto using step_wf.
  destruct Hst as [Ha|Hd].
  - now apply step_armed.
  - right; now apply step_timed_out.
Qed.

End TimeoutFacts.

Section IsolationFacts.

Import MapFacts.

Lemma sendRequest_armed request L :
  wf L -> killed (child L) = false ->
  let i := fst (next_request_id request (lastRequestId (transport L))) in
  fresh_id i L = true ->
  armed i (promises L) (clock L + 30000) (fst (sendRequest request L)).
Proof.
  intros Hwf Hk. cbv zeta. unfold sendRequest; rewrite Hk.
  destruct (next_request_id request (lastRequestId (transport L)))
    as [rid last]; cbn [fst].
  intros Hfresh.
  unfold fresh_id in Hfresh; apply andb_prop in Hfresh.
  destruct Hfresh as [Ht Hw]. rewrite forallb_forall in Ht, Hw.
  unfold armed, handlers; simpl. repeat split.
  - apply get_set_same.
  - apply in_or_app; simpl; auto.
  - intros t Hin Hi; apply in_app_iff in Hin.
    destruct Hin as [Hin|[<-|[]]]; auto.
    apply Ht in Hin. apply rpc_id_neq in Hin. congruence.
  - intros w Hin Hi; apply in_app_iff in Hin.
    destruct Hin as [Hin|[<-|[]]]; auto.
    apply Hw in Hin. apply rpc_id_neq in Hin. congruence.
Qed.

Lemma step_killed L e :
  killed (child (step L e)) = true -> killed (child L) = true \/ e = Close.
Proof.
  destruct e as [request|data|k err|ms|]; cbn [step]; auto.
  - unfold sendRequest; destruct (killed (child L)) eqn:Hk; auto.
    destruct (next_request_id _ _); cbn [fst]; simpl.
    rewrite Hk; auto.
  - unfold _handleProcessOutput; rewrite dispatch_all_child; auto.
  - destruct (nth_error (writes L) k) as [[j q]|]; auto.
    destruct err as [message|]; cbn [write_callback]; auto.
    match goal with |- killed (child (settle ?q ?s (with_handlers _ ?L0))) = _ -> _ =>
      fold (retire j q s L0);
      destruct (retire_fields j q s L0) as (-> & _) end.
    auto.
  - rewrite elapse_at_time.
    destruct (run_timers_fields (filter (is_due (clock L + ms)) (timers L))
                (at_time (clock L + ms) L)) as (_ & _ & _ & ->).
    auto.
Qed.

Lemma run_killed events : forall L,
  killed (child (run L events)) = true ->
  killed (child L) = true \/ In Close events.
Proof.
  induction events as [|e events IH]; intros L Hk; [auto|].
  change (run L (e :: events)) with (run (step L e) events) in Hk.
  apply IH in Hk; destruct Hk as [Hk|Hin]; [|simpl; auto].
  apply step_killed in Hk; destruct Hk as [Hk| ->]; simpl; auto.
Qed.

Lemma run_app L a b : run L (a ++ b) = run (run L a) b.
Proof. unfold run; apply fold_left_app. Qed.

(** A response that is reached in its chunk while its request is pending
    settles that request for good. *)
Lemma dispatch_all_reaches j q response post pre : forall L,
  wf L ->
  Forall (fun r => r <> JNull /\ response_key r <> Some j) pre ->
  response_key response = Some j ->
  Map.get j (handlers L) = Some q ->
  settlement_of q (settled (dispatch_all (pre ++ response :: post) L))
  = Some (settlement_for response).
Proof.
  induction pre as [|r pre IH]; intros L Hwf Hpre Hk Hg.
  - cbn [app dispatch_all].
    destruct (dispatch_matched response Hwf Hk Hg) as [-> Hs].
    destruct (dispatch_all_grows post (retire j q (settlement_for response) L))
      as [extra ->].
    apply settlement_of_app_some. rewrite Hs, settlement_of_app.
    apply get_in in Hg. destruct (wf_pending Hwf _ _ Hg) as [-> _].
    simpl. now rewrite Nat.eqb_refl.
  - inversion Hpre as [|? ? [Hnn Hnk] Hrest]; subst.
    cbn [app dispatch_all].
    destruct (dispatch_cases r L) as [[-> _]|[_ Hd]]; [congruence|].
    rewrite Hd. apply IH; auto.
    + eapply dispatch_wf; eauto.
    + destruct (response_key r) as [key|]; auto.
      destruct (Map.get key (handlers L)) as [q'|]; auto.
      rewrite retire_get_other; auto. congruence.
Qed.

End IsolationFacts.
(* ================================================================== *)
(** * The transport: the ids of the counter are fresh *)

Section CounterFacts.

Lemma dispatch_all_counter responses : forall L,
  lastRequestId (transport (dispatch_all responses L)) = lastRequestId (transport L).
Proof.
  induction responses as [|r rest IH]; intros L; simpl; auto.
  destruct (dispatch_cases r L) as [[_ ->]|[_ ->]]; auto.
  rewrite IH.
  destruct (response_key r) as [key|]; auto.
  destruct (Map.get key (handlers L)) as [q|]; auto.
  now destruct (retire_fields key q (settlement_for r) L) as (_ & _ & _ & _ & _ & ->).
Qed.

Lemma timeout_callback_counter k q L :
  lastRequestId (transport (timeout_callback k q L)) = lastRequestId (transport L).
Proof.
  unfold timeout_callback; destruct (Map.has k (handlers L)); auto.
  fold (retire k q (Rejected timeout_error) L).
  now destruct (retire_fields k q (Rejected timeout_error) L) as (_ & _ & _ & _ & _ & ->).
Qed.

Lemma run_timers_counter due : forall L,
  lastRequestId (transport (run_timers due L)) = lastRequestId (transport L).
Proof.
  unfold run_timers; induction due as [|t due IH]; intros L; simpl; auto.
  rewrite IH; apply timeout_callback_counter.
Qed.

(** An event other than a request leaves the counter alone and sets no
    timer and no write callback. *)
Lemma step_sets_nothing L e :
  (forall request, e <> Send request) ->
  lastRequestId (transport (step L e)) = lastRequestId (transport L)
  /\ incl (timers (step L e)) (timers L)
  /\ incl (writes (step L e)) (writes L).
Proof.
  intros Hns. destruct e as [request|data|k err|ms|]; cbn [step].
  - exfalso; eapply Hns; reflexivity.
  - unfold _handleProcessOutput. rewrite dispatch_all_counter.
    destruct (dispatch_all_fields (_parseJsonResponses data) L)
      as (-> & -> & _).
    auto using incl_refl.
  - destruct (nth_error (writes L) k) as [[j q]|]; auto using incl_refl.
    assert (Hincl : incl (remove_nth k (writes L)) (writes L)).
    { intros w Hw; eapply in_remove_nth; eauto. }
    destruct err as [message|]; cbn [write_callback]; [|simpl; auto using incl_refl].
    match goal with |- context [settle ?q ?s (with_handlers _ ?L0)] =>
      fold (retire j q s L0);
      destruct (retire_fields j q s L0) as (_ & _ & -> & -> & _ & ->) end.
    simpl; auto using incl_refl.
  - rewrite elapse_at_time, run_timers_counter.
    destruct (run_timers_fields (filter (is_due (clock L + ms)) (timers L))
                (at_time (clock L + ms) L)) as (-> & -> & _).
    cbn [at_time transport timers writes]. repeat split; auto using incl_refl.
    intros t Ht; apply filter_In in Ht; tauto.
  - destruct (close_process (child L)); simpl; auto using incl_refl.
Qed.

Lemma step_ids_below L e : ids_below L -> counter_event e -> ids_below (step L e).
Proof.
  intros (H0 & Ht & Hw) He.
  assert (Hother : (forall request, e <> Send request) -> ids_below (step L e)).
  { intros Hns. destruct (step_sets_nothing L Hns) as (Hc & Hti & Hwr).
    unfold ids_below; rewrite Hc. split; [exact H0|]. split.
    - intros t Hin; apply Hti in Hin; auto.
    - intros w Hin; apply Hwr in Hin; auto. }
  destruct e as [request|data|k err|ms|]; try (apply Hother; discriminate).
  clear Hother. cbn [step counter_event] in *. unfold sendRequest.
  destruct (killed (child L)); cbn [fst].
  - unfold ids_below.
    destruct (settle_fields (promises L)
                (Rejected (Error (js "Process not available")))
                (mkLoop (transport L) (child L) (clock L) (timers L) (writes L)
                        (settled L) (S (promises L)))) as (-> & _ & _ & -> & -> & _).
    simpl; auto.
  - unfold next_request_id; rewrite He. unfold ids_below; simpl.
    split; [lia|]. split.
    + intros t Hin; apply in_app_iff in Hin. destruct Hin as [Hin|[<-|[]]].
      * destruct (Ht _ Hin) as (k & Hk & Hle); exists k; split; auto; lia.
      * eexists; split; [reflexivity|lia].
    + intros w Hin; apply in_app_iff in Hin. destruct Hin as [Hin|[<-|[]]].
      * destruct (Hw _ Hin) as (k & Hk & Hle); exists k; split; auto; lia.
      * eexists; split; [reflexivity|lia].
Qed.

Lemma run_ids_below events : forall L,
  ids_below L -> Forall counter_event events -> ids_below (run L events).
Proof.
  induction events as [|e events IH]; intros L Hb Hall; [exact Hb|].
  inversion Hall; subst.
  change (run L (e :: events)) with (run (step L e) events).
  apply IH; auto using step_ids_below.
Qed.

(** On a transport that has only seen requests without id, the id that the
    counter assigns next has no outstanding timer and no outstanding write
    callback. *)
Lemma counter_ids_are_fresh events request :
  Forall counter_event events -> req_id request = None ->
  let L := run new_loop events in
  fresh_id (fst (next_request_id request (lastRequestId (transport L)))) L = true.
Proof.
  intros Hall Hr L.
  assert (Hb : ids_below L).
  { apply run_ids_below; auto. unfold ids_below; simpl. repeat split; [lia| |]; tauto. }
  destruct Hb as (_ & Ht & Hw).
  unfold next_request_id; rewrite Hr; cbn [fst].
  unfold fresh_id. apply andb_true_intro; split; apply forallb_forall.
  - intros t Hin. destruct (Ht _ Hin) as (k & -> & Hle).
    simpl. apply negb_true_iff, Z.eqb_neq. lia.
  - intros w Hin. destruct (Hw _ Hin) as (k & -> & Hle).
    simpl. apply negb_true_iff, Z.eqb_neq. lia.
Qed.

End CounterFacts.
(* ================================================================== *)
(** * The supervisor: what the grace window decides *)

Section SupervisorFacts.

Lemma settle_spawn_settled r s :
  spawn_settled s <> None -> settle_spawn r s = s.
Proof. unfold settle_spawn; destruct (spawn_settled s); congruence. Qed.

(** Once the flag is set and the promise rejected, no event changes
    either. *)
Lemma event_after_failure e s message :
  startupErrorReceived s = true ->
  spawn_settled s = Some (Throw message) ->
  startupErrorReceived (on_child_event e s) = true
  /\ spawn_settled (on_child_event e s) = Some (Throw message).
Proof.
  intros Hf Hs.
  destruct e as [m|[c|]|out|out]; cbn [on_child_event].
  - unfold settle_spawn, set_flag; simpl; rewrite Hs; simpl; auto.
  - destruct (negb (c =? 0)%Z); rewrite ?Hf; auto.
  - auto.
  - simpl; auto.
  - destruct (is_fatal_stderr out); simpl; rewrite ?Hf; simpl; auto.
Qed.

Lemma event_before_failure e s :
  startupErrorReceived s = false ->
  spawn_settled s = None ->
  match startup_failure e with
  | Some message =>
      startupErrorReceived (on_child_event e s) = true
      /\ spawn_settled (on_child_event e s) = Some (Throw message)
  | None =>
      startupErrorReceived (on_child_event e s) = false
      /\ spawn_settled (on_child_event e s) = None
  end.
Proof.
  intros Hf Hs.
  destruct e as [m|[c|]|out|out]; cbn [on_child_event startup_failure].
  - unfold settle_spawn, set_flag; simpl; rewrite Hs; simpl; auto.
  - destruct (c =? 0)%Z; simpl; auto.
    rewrite Hf. unfold settle_spawn, set_flag; rewrite Hs; simpl; auto.
  - auto.
  - simpl; auto.
  - destruct (is_fatal_stderr out); simpl; auto.
    rewrite Hf. unfold settle_spawn, set_flag; simpl; rewrite Hs; simpl; auto.
Qed.

Lemma events_after_failure events : forall s message,
  startupErrorReceived s = true ->
  spawn_settled s = Some (Throw message) ->
  let s' := fold_left (fun s e => on_child_event e s) events s in
  startupErrorReceived s' = true /\ spawn_settled s' = Some (Throw message).
Proof.
  induction events as [|e events IH]; intros s message Hf Hs; [simpl; auto|].
  cbn [fold_left].
  destruct (event_after_failure e s Hf Hs) as [Hf' Hs']. now apply IH.
Qed.

Lemma events_before_failure events : forall s,
  startupErrorReceived s = false ->
  spawn_settled s = None ->
  let s' := fold_left (fun s e => on_child_event e s) events s in
  match first_failure events with
  | Some message =>
      startupErrorReceived s' = true /\ spawn_settled s' = Some (Throw message)
  | None => startupErrorReceived s' = false /\ spawn_settled s' = None
  end.
Proof.
  induction events as [|e events IH]; intros s Hf Hs; [simpl; auto|].
  cbn [fold_left first_failure].
  pose proof (event_before_failure e s Hf Hs) as He.
  destruct (startup_failure e) as [message|]; destruct He as [Hf' Hs'].
  - now apply events_after_failure.
  - now apply IH.
Qed.

Lemma after_grace_outcome events :
  spawn_settled (after_grace events)
  = Some (match first_failure events with
          | Some message => Throw message
          | None => Ok tt
          end).
Proof.
  unfold after_grace, grace_timer.
  pose proof (events_before_failure events startup0 eq_refl eq_refl) as H.
  cbv zeta in H. destruct (first_failure events) as [message|].
  - destruct H as [-> Hs]; exact Hs.
  - destruct H as [-> Hs]. unfold settle_spawn; now rewrite Hs.
Qed.

Lemma before_grace_unresolved events :
  spawn_settled (before_grace events) <> Some (Ok tt).
Proof.
  pose proof (events_before_failure events startup0 eq_refl eq_refl) as H.
  cbv zeta in H. unfold before_grace.
  destruct (first_failure events); destruct H as [_ ->]; discriminate.
Qed.

Lemma first_failure_app pre e post message :
  startup_failure e = Some message ->
  exists m, first_failure (pre ++ e :: post) = Some m.
Proof.
  intros He; induction pre as [|x pre IH]; simpl.
  - rewrite He; eauto.
  - destruct (startup_failure x); eauto.
Qed.

Lemma spawnMCPProcess_outcome command args b w :
  command <> [] -> spawn_throws b = None ->
  spawnMCPProcess command args b w
  = (mkWorld (procs w ++ [spawned_child b]) (activeClients w)
             (activeProcesses w) (objects w) (console_error w),
     match first_failure (grace_events b) with
     | Some message => Throw message
     | None => Ok (length (procs w))
     end).
Proof.
  intros Hc Hs; unfold spawnMCPProcess.
  destruct command as [|c r]; [congruence|]. rewrite Hs.
  unfold bind, alloc_proc. rewrite after_grace_outcome.
  destruct (first_failure (grace_events b)); reflexivity.
Qed.

End SupervisorFacts.

(* ================================================================== *)
(** * The registry: what [getOrCreateClient] does *)

Section RegistryFacts.

Import MapFacts.

Lemma getOrCreateClient_cached cmd args id b w cached :
  Map.get (clientKey_of cmd id) (activeClients w) = Some cached ->
  getOrCreateClient cmd args id b w = (w, Ok cached).
Proof. intros Hg; unfold getOrCreateClient; now rewrite Hg. Qed.

Lemma getOrCreateClient_reuses_process cmd args id b w h :
  Map.get (clientKey_of cmd id) (activeClients w) = None ->
  Map.get (clientKey_of cmd id) (activeProcesses w) = Some h ->
  getOrCreateClient cmd args id b w
  = (stored (clientKey_of cmd id) h w,
     Ok (connection_over (clientKey_of cmd id) (objects w) h)).
Proof.
  intros Hc Hp; unfold getOrCreateClient; rewrite Hc.
  unfold bind, try_catch; rewrite Hp. reflexivity.
Qed.

Lemma getOrCreateClient_spawns cmd args id b w :
  Map.get (clientKey_of cmd id) (activeClients w) = None ->
  Map.get (clientKey_of cmd id) (activeProcesses w) = None ->
  getOrCreateClient cmd args id b w
  = match spawnMCPProcess cmd args b w with
    | (w1, Ok h) =>
        let w2 := mkWorld (procs w1) (activeClients w1)
                          (Map.set (clientKey_of cmd id) h (activeProcesses w1))
                          (objects w1) (console_error w1) in
        (stored (clientKey_of cmd id) h w2,
         Ok (connection_over (clientKey_of cmd id) (objects w1) h))
    | (w1, Throw message) =>
        (w1, Throw (js "Failed to create MCP process: " ++ message))
    end.
Proof.
  intros Hc Hp; unfold getOrCreateClient; rewrite Hc.
  unfold bind, try_catch; rewrite Hp.
  destruct (spawnMCPProcess cmd args b w) as [w1 [h|message]]; reflexivity.
Qed.

(** The effect of a spawn on the module state. *)
Lemma spawnMCPProcess_effect cmd args b w w1 r :
  spawnMCPProcess cmd args b w = (w1, r) ->
  activeClients w1 = activeClients w /\ activeProcesses w1 = activeProcesses w
  /\ objects w1 = objects w /\ console_error w1 = console_error w
  /\ ((exists message, r = Throw message)
      /\ (procs w1 = procs w \/ procs w1 = procs w ++ [spawned_child b])
      \/ r = Ok (length (procs w)) /\ procs w1 = procs w ++ [spawned_child b]).
Proof.
  unfold spawnMCPProcess. destruct cmd as [|c cmd].
  - intros [= <- <-]; repeat split; eauto.
  - destruct (spawn_throws b) as [m|].
    + intros [= <- <-]; repeat split; eauto.
    + unfold bind, alloc_proc.
      destruct (spawn_settled (after_grace (grace_events b))) as [[[]|m]|];
        intros [= <- <-]; simpl; repeat split; eauto.
Qed.

Lemma getOrCreateClient_stores cmd args id b w w1 conn :
  getOrCreateClient cmd args id b w = (w1, Ok conn) ->
  Map.get (clientKey_of cmd id) (activeClients w1) = Some conn.
Proof.
  destruct (Map.get (clientKey_of cmd id) (activeClients w)) as [cached|] eqn:Hc.
  - rewrite (getOrCreateClient_cached cmd args id b w Hc); intros [= <- <-]; auto.
  - destruct (Map.get (clientKey_of cmd id) (activeProcesses w)) as [h|] eqn:Hp.
    + rewrite (getOrCreateClient_reuses_process cmd args id b w Hc Hp).
      intros [= <- <-]; apply get_set_same.
    + rewrite (getOrCreateClient_spawns cmd args id b w Hc Hp).
      destruct (spawnMCPProcess cmd args b w) as [w' [h|m]]; [|discriminate].
      intros [= <- <-]; apply get_set_same.
Qed.

(** A call that nothing interrupts is its two halves one after the other. *)
Lemma getOrCreateClient_halves cmd args id b w :
  getOrCreateClient cmd args id b w
  = (let (w1, s) := getOrCreateClient_begin cmd args id b w in
     getOrCreateClient_resume cmd id s w1).
Proof.
  unfold getOrCreateClient, getOrCreateClient_begin, getOrCreateClient_resume.
  destruct (Map.get (clientKey_of cmd id) (activeClients w)); [reflexivity|].
  unfold bind at 1, try_catch at 1.
  destruct (Map.get (clientKey_of cmd id) (activeProcesses w)); [reflexivity|].
  unfold bind at 1.
  destruct (spawnMCPProcess cmd args b w) as [w1 [h|m]]; reflexivity.
Qed.

End RegistryFacts.
(* ================================================================== *)
(** * The registry: what [cleanupClients] does *)

Section CleanupFacts.

Lemma update_nth_same {A} (l : list A) : forall h a,
  nth_error l h = Some a -> update_nth h a l = l.
Proof.
  induction l as [|x l IH]; intros [|h] a; simpl; try discriminate; auto.
  - intros [= ->]; reflexivity.
  - intros Hn; now rewrite IH.
Qed.

Lemma nth_error_update_nth {A} (l : list A) : forall h a n x,
  nth_error l h = Some x ->
  nth_error (update_nth h a l) n = if Nat.eqb n h then Some a else nth_error l n.
Proof.
  induction l as [|y l IH]; intros [|h] a [|n] x; simpl; try discriminate; auto.
  intros Hn; now rewrite (IH h a n x Hn).
Qed.

Lemma after_kills_refl c : after_kills c c.
Proof. left; reflexivity. Qed.

Lemma after_kills_trans c1 c2 c3 :
  after_kills c1 c2 -> after_kills c2 c3 -> after_kills c1 c3.
Proof.
  intros [->|(Hk & He & ->)] [->|(Hk' & He' & ->)].
  - left; reflexivity.
  - right; auto.
  - right; auto.
  - right; simpl; auto.
Qed.

Lemma after_kills_terminated c c' :
  after_kills c c' -> terminated c = true -> terminated c' = true.
Proof. intros [->|(_ & _ & ->)]; auto. Qed.

Lemma after_kills_kill_error c c' message :
  after_kills c c' -> kill_error c = Some message -> c' = c.
Proof. intros [->|(Hk & _)]; congruence. Qed.

Lemma settles_refl w : settles w w.
Proof.
  split.
  - exists []; now rewrite app_nil_r.
  - intros n c Hn; exists c; auto using after_kills_refl.
Qed.

Lemma settles_trans w1 w2 w3 : settles w1 w2 -> settles w2 w3 -> settles w1 w3.
Proof.
  intros ([e1 He1] & Hn1) ([e2 He2] & Hn2). split.
  - exists (e1 ++ e2); now rewrite He2, He1, app_assoc.
  - intros n c Hn. destruct (Hn1 _ _ Hn) as (c' & Hn' & Hk).
    destruct (Hn2 _ _ Hn') as (c'' & Hn'' & Hk').
    exists c''; split; auto. eapply after_kills_trans; eauto.
Qed.

Lemma settles_same w w' w'' :
  procs w'' = procs w' -> console_error w'' = console_error w' ->
  settles w w' -> settles w w''.
Proof. intros Hp Hc [He Hn]; split; rewrite ?Hp, ?Hc; auto. Qed.

Lemma settles_from w w' w'' :
  procs w' = procs w -> console_error w' = console_error w ->
  settles w' w'' -> settles w w''.
Proof. intros Hp Hc [He Hn]; split; rewrite <- ?Hp, <- ?Hc; auto. Qed.

Lemma evolves_refl w : evolves w w.
Proof. repeat split; auto; apply settles_refl. Qed.

Lemma evolves_trans w1 w2 w3 : evolves w1 w2 -> evolves w2 w3 -> evolves w1 w3.
Proof.
  intros (Hc1 & Hp1 & Ho1 & Hs1) (Hc2 & Hp2 & Ho2 & Hs2).
  repeat split; try congruence; try (eapply settles_trans; eauto).
Qed.

(** The guarded call of one iteration, for the transport's [close] and
    for the second loop alike. *)
Lemma Transport_close_kill_handle t w :
  Transport_close t w = kill_handle (process t) w.
Proof.
  unfold Transport_close, kill_handle, close_process.
  destruct (nth_error (procs w) (process t)) as [c|] eqn:Hn; auto.
  destruct (killed c); auto.
  unfold set_proc. rewrite (update_nth_same _ _ Hn). now destruct w.
Qed.

Lemma guarded_kill key h w :
  exists w',
    try_catch (kill_handle h) (fun message => log_error key message) w = (w', Ok tt)
    /\ evolves w w' /\ dealt_with key h w w'.
Proof.
  unfold try_catch, kill_handle, dealt_with.
  destruct (nth_error (procs w) h) as [c|] eqn:Hn.
  2:{ exists w; split; [reflexivity|]. split; [apply evolves_refl|].
      intros c; discriminate. }
  destruct (killed c) eqn:Hk.
  { exists w; split; [reflexivity|]. split; [apply evolves_refl|].
    intros c0 [= <-]; exists c; split; auto.
    left; unfold terminated; now rewrite Hk. }
  unfold kill. destruct (kill_error c) as [message|] eqn:Hke.
  - eexists; split; [reflexivity|]. split.
    + repeat split; simpl; eauto. intros n c0 Hn0; exists c0; auto using after_kills_refl.
    + intros c0 [= <-]; exists c; simpl; split; auto.
      right; exists message; split; auto. apply in_or_app; simpl; auto.
  - eexists; split; [reflexivity|]. split.
    + repeat split; simpl; auto.
      * exists []; now rewrite app_nil_r.
      * intros n c0 Hn0. rewrite (nth_error_update_nth _ _ _ n Hn).
        destruct (Nat.eqb_spec n h) as [->|Hne].
        -- eexists; split; [reflexivity|].
           rewrite Hn in Hn0; injection Hn0 as <-.
           destruct (exited c) eqn:He; [left; reflexivity|].
           right; repeat split; auto.
        -- exists c0; auto using after_kills_refl.
    + intros c0 [= <-]; simpl.
      rewrite (nth_error_update_nth _ _ _ h Hn), Nat.eqb_refl.
      eexists; split; [reflexivity|]. left.
      unfold terminated. destruct (exited c) eqn:He; simpl; rewrite ?He;
        auto using orb_true_r.
Qed.

Lemma dealt_with_evolves key h w w' w'' :
  settles w w' -> dealt_with key h w' w'' ->
  dealt_with key h w w''.
Proof.
  intros (_ & Hn1) Hd c Hn.
  destruct (Hn1 _ _ Hn) as (c1 & Hn' & Hk).
  destruct (Hd _ Hn') as (c2 & Hn'' & [Ht|(m & Hm & Hin)]).
  - exists c2; auto.
  - exists c2; split; auto. right; exists m; split; auto.
    destruct Hk as [->|(Hke & _ & ->)]; auto. simpl in Hm; discriminate.
Qed.

Lemma dealt_with_later key h w w' w'' :
  dealt_with key h w w' -> settles w' w'' -> dealt_with key h w w''.
Proof.
  intros Hd ([extra He] & Hn2) c Hn.
  destruct (Hd _ Hn) as (c1 & Hn' & Hcases).
  destruct (Hn2 _ _ Hn') as (c2 & Hn'' & Hk).
  exists c2; split; auto.
  destruct Hcases as [Ht|(m & Hm & Hin)].
  - left; eapply after_kills_terminated; eauto.
  - right; exists m; split; auto. rewrite He; apply in_or_app; auto.
Qed.

Lemma kill_processes_spec entries : forall w,
  exists w',
    kill_processes entries w = (w', Ok tt)
    /\ evolves w w'
    /\ forall key h, In (key, h) entries -> dealt_with key h w w'.
Proof.
  induction entries as [|[key h] rest IH]; intros w.
  - exists w; split; [reflexivity|]. split; [apply evolves_refl|]. intros ? ? [].
  - destruct (guarded_kill key h w) as (w1 & Hstep & Hev1 & Hd1).
    destruct (IH w1) as (w2 & Hrest & Hev2 & Hd2).
    exists w2. cbn [kill_processes]. unfold bind at 1. rewrite Hstep.
    split; [exact Hrest|]. split; [eapply evolves_trans; eauto|].
    intros key' h' [[= <- <-]|Hin].
    + eapply dealt_with_later; [eauto|apply Hev2].
    + eapply dealt_with_evolves; [apply Hev1|eauto].
Qed.

Lemma close_transports_spec entries : forall w,
  exists w',
    close_transports entries w = (w', Ok tt)
    /\ evolves w w'
    /\ forall key conn, In (key, conn) entries ->
         dealt_with key (process (conn_transport conn)) w w'.
Proof.
  induction entries as [|[key conn] rest IH]; intros w.
  - exists w; split; [reflexivity|]. split; [apply evolves_refl|]. intros ? ? [].
  - destruct (guarded_kill key (process (conn_transport conn)) w)
      as (w1 & Hstep & Hev1 & Hd1).
    destruct (IH w1) as (w2 & Hrest & Hev2 & Hd2).
    exists w2. cbn [close_transports]. unfold bind at 1.
    unfold try_catch in *. rewrite Transport_close_kill_handle. rewrite Hstep.
    split; [exact Hrest|]. split; [eapply evolves_trans; eauto|].
    intros key' conn' [[= <- <-]|Hin].
    + eapply dealt_with_later; [eauto|apply Hev2].
    + eapply dealt_with_evolves; [apply Hev1|eauto].
Qed.

End CleanupFacts.
(* ================================================================== *)
(** * [String.prototype.trim] *)

Lemma trim_start_spaces l x : all_space l = true -> trim_start (l ++ x) = trim_start x.
Proof.
  induction l as [|c l IH]; simpl; auto.
  rewrite andb_true_iff; intros [-> Hl]; auto.
Qed.

Lemma trim_start_all l : all_space l = true -> trim_start l = [].
Proof.
  intros Hl. rewrite <- (app_nil_r l). now rewrite trim_start_spaces.
Qed.

Lemma trim_start_keep c x : is_js_space c = false -> trim_start (c :: x) = c :: x.
Proof. intros Hc; simpl; now rewrite Hc. Qed.

Lemma all_space_app a b : all_space (a ++ b) = all_space a && all_space b.
Proof. apply forallb_app. Qed.

Lemma all_space_rev l : all_space (rev l) = all_space l.
Proof.
  induction l as [|c l IH]; simpl; auto.
  rewrite all_space_app, IH; simpl. rewrite andb_true_r. apply andb_comm.
Qed.

Lemma trim_start_decompose x :
  exists l, x = l ++ trim_start x /\ all_space l = true.
Proof.
  induction x as [|c x (l & Hx & Hl)]; simpl.
  - exists []; auto.
  - destruct (is_js_space c) eqn:Hc.
    + exists (c :: l); simpl. rewrite Hc, Hl. split; [congruence|reflexivity].
    + exists []; auto.
Qed.

Lemma trim_start_head x :
  trim_start x = [] \/ exists a m, trim_start x = a :: m /\ is_js_space a = false.
Proof.
  induction x as [|c x IH]; simpl; auto.
  destruct (is_js_space c) eqn:Hc; eauto.
Qed.

(** What [trim] returns, from any splitting of the text into white space, a
    tight middle and white space. *)
Lemma trim_sandwich l m r :
  all_space l = true -> all_space r = true -> tight m -> trim (l ++ m ++ r) = m.
Proof.
  intros Hl Hr Hm. unfold trim. rewrite trim_start_spaces by exact Hl.
  destruct Hm as [->|[(a & m' & Ha & Hsa) (m'' & b & Hb & Hsb)]].
  - simpl. now rewrite (trim_start_all _ Hr).
  - assert (Hkeep : trim_start (m ++ r) = m ++ r)
      by (rewrite Ha; simpl; now rewrite Hsa).
    rewrite Hkeep, rev_app_distr, trim_start_spaces
      by (now rewrite all_space_rev).
    rewrite Hb at 1. rewrite rev_app_distr. simpl. rewrite Hsb.
    change (b :: rev m'') with (rev [b] ++ rev m'').
    rewrite <- rev_app_distr, rev_involutive. now symmetry.
Qed.

Lemma trim_decompose x :
  exists l r, x = l ++ trim x ++ r /\ all_space l = true /\ all_space r = true.
Proof.
  destruct (trim_start_decompose x) as (l & Hx & Hl).
  destruct (trim_start_decompose (rev (trim_start x))) as (l' & Hu & Hl').
  exists l, (rev l'). repeat split; auto.
  - unfold trim. rewrite <- rev_app_distr, <- Hu, rev_involutive. exact Hx.
  - now rewrite all_space_rev.
Qed.

Lemma trim_tight x : tight (trim x).
Proof.
  destruct (trim_start_decompose (rev (trim_start x))) as (l' & Hu & Hl').
  unfold trim.
  destruct (trim_start_head (rev (trim_start x))) as [Hw|(b & w & Hw & Hb)].
  - left. now rewrite Hw.
  - right. rewrite Hw in *. simpl. split; [|eauto].
    assert (Hux : trim_start x = (rev w ++ [b]) ++ rev l').
    { rewrite <- (rev_involutive (trim_start x)), Hu, rev_app_distr.
      reflexivity. }
    destruct (trim_start_head x) as [Hn|(a & m & Hm & Ha)].
    + rewrite Hn in Hux. destruct (rev w); discriminate.
    + rewrite Hm in Hux.
      destruct (rev w ++ [b]) as [|a' m'] eqn:Hrw;
        [destruct (rev w); discriminate|].
      injection Hux as -> _. eauto.
Qed.

Lemma trim_trailing m r : all_space r = true -> tight m -> trim (m ++ r) = m.
Proof. intros Hr Hm. now apply (@trim_sandwich [] m r). Qed.

Lemma trim_of_tight m : tight m -> trim m = m.
Proof.
  intros Hm. rewrite <- (app_nil_r m) at 1.
  now apply (@trim_sandwich [] m []).
Qed.

(** A text that starts with something [trim] keeps is trimmed to a prefix
    of itself that is not empty. *)
Lemma trim_prefix c t :
  is_js_space c = false -> exists k, trim (c :: t) = c :: firstn k t.
Proof.
  intros Hc. destruct (trim_decompose (c :: t)) as (l & r & Hx & Hl & Hr).
  destruct l as [|a l].
  - simpl in Hx. destruct (trim (c :: t)) as [|a m] eqn:Ht.
    + simpl in Hx. subst r. simpl in Hr. now rewrite Hc in Hr.
    + simpl in Hx. injection Hx as <- Hx. exists (length m).
      rewrite Hx, firstn_app, Nat.sub_diag, firstn_all. simpl.
      now rewrite app_nil_r.
  - simpl in Hx, Hl. injection Hx as <- _. now rewrite Hc in Hl.
Qed.

Lemma count_app c a b : count c (a ++ b) = count c a + count c b.
Proof. unfold count. now rewrite filter_app, length_app. Qed.

Lemma count_space c s : is_js_space c = false -> all_space s = true -> count c s = 0.
Proof.
  intros Hc. induction s as [|x s IH]; simpl; auto.
  rewrite andb_true_iff; intros [Hx Hs]. rewrite count_cons, (IH Hs).
  destruct (N.eqb_spec c x); [congruence|reflexivity].
Qed.

Lemma count_trim c x : count c x = 0 -> count c (trim x) = 0.
Proof.
  destruct (trim_decompose x) as (l & r & Hx & _). intros H.
  rewrite Hx, !count_app in H. lia.
Qed.

(* ================================================================== *)
(** * The two framers on streams of objects *)

Lemma scan_objects_app a : forall b depth candidate,
  scan_objects (a ++ b) depth candidate
  = scan_objects a depth candidate
    ++ scan_objects b (fst (scan_state a depth candidate))
                      (snd (scan_state a depth candidate)).
Proof.
  induction a as [|c a IH]; intros b depth candidate; [reflexivity|].
  cbn [app scan_objects scan_state].
  destruct (c =? 123)%N; [apply IH|].
  destruct (c =? 125)%N; [|apply IH].
  destruct (depth - 1 =? 0)%Z; [|apply IH].
  destruct candidate as [text|]; cbn [option_map]; [|apply IH].
  destruct (JSON.parse (text ++ [c])); [simpl; f_equal|]; apply IH.
Qed.

Lemma scan_state_depth a : forall depth candidate,
  fst (scan_state a depth candidate)
  = (depth + Z.of_nat (count 123 a) - Z.of_nat (count 125 a))%Z.
Proof.
  induction a as [|c a IH]; intros depth candidate.
  - simpl. unfold count; simpl. lia.
  - cbn [scan_state]. rewrite !count_cons.
    destruct (N.eqb_spec c 123) as [->|H1].
    + rewrite IH. simpl. lia.
    + destruct (N.eqb_spec c 125) as [->|H2].
      * destruct (depth - 1 =? 0)%Z;
          [destruct candidate; cbn [option_map]|]; rewrite IH; simpl; lia.
      * rewrite IH.
        destruct (N.eqb_spec 123 c); [congruence|].
        destruct (N.eqb_spec 125 c); [congruence|]. simpl; lia.
Qed.

(** A candidate is being read only inside braces. *)
Lemma scan_state_candidate a : forall depth candidate,
  (candidate <> None -> (1 <= depth)%Z) ->
  snd (scan_state a depth candidate) <> None ->
  (1 <= fst (scan_state a depth candidate))%Z.
Proof.
  induction a as [|c a IH]; intros depth candidate Hc; [exact Hc|].
  cbn [scan_state].
  destruct (c =? 123)%N.
  { apply IH. destruct (Z.eqb_spec depth 0); [lia|].
    intros Hg. destruct candidate; [|easy]. specialize (Hc ltac:(easy)). lia. }
  destruct (c =? 125)%N.
  { destruct (Z.eqb_spec (depth - 1) 0).
    - destruct candidate; cbn [option_map]; apply IH; easy.
    - apply IH. intros Hg. destruct candidate; [|easy].
      specialize (Hc ltac:(easy)). lia. }
  apply IH. intros Hg. destruct candidate; [|easy]. apply Hc; easy.
Qed.

Lemma scan_state_balanced a :
  count 123 a = count 125 a -> scan_state a 0 None = (0%Z, None).
Proof.
  intros Hb.
  assert (Hd := scan_state_depth a 0 None).
  assert (Hc := @scan_state_candidate a 0 None ltac:(easy)).
  destruct (scan_state a 0 None) as [d [text|]]; simpl in *.
  - specialize (Hc ltac:(easy)). lia.
  - f_equal. lia.
Qed.

(** The loop over the indices and the scan that carries the candidate do
    the same. *)
Lemma find_objects_scan rest : forall pre depth start,
  (forall st, start = Some st -> st <= length pre) ->
  find_objects_from (pre ++ rest) rest (length pre) depth start
  = scan_objects rest depth (option_map (fun st => skipn st pre) start).
Proof.
  induction rest as [|c r IH]; intros pre depth start Hst; [reflexivity|].
  cbn [find_objects_from scan_objects].
  assert (Hstep : forall d s,
            (forall st, s = Some st -> st <= length (pre ++ [c])) ->
            find_objects_from (pre ++ c :: r) r (S (length pre)) d s
            = scan_objects r d (option_map (fun st => skipn st (pre ++ [c])) s)).
  { intros d s Hs. specialize (IH (pre ++ [c]) d s Hs).
    rewrite <- app_assoc, length_app, Nat.add_1_r in IH. exact IH. }
  assert (Hgrown : option_map (fun st => skipn st (pre ++ [c])) start
                   = option_map (fun text => text ++ [c])
                       (option_map (fun st => skipn st pre) start)).
  { destruct start as [st|]; [|reflexivity]. simpl. f_equal.
    rewrite skipn_app. specialize (Hst st eq_refl).
    replace (st - length pre) with 0 by lia. reflexivity. }
  assert (Hle : forall st, start = Some st -> st <= length (pre ++ [c])).
  { intros st E. rewrite length_app. specialize (Hst st E). lia. }
  destruct (c =? 123)%N.
  { destruct (depth =? 0)%Z.
    - rewrite Hstep by (intros st [= <-]; rewrite length_app; lia).
      simpl. rewrite skipn_app, skipn_all, Nat.sub_diag. reflexivity.
    - rewrite Hstep by exact Hle. now rewrite Hgrown. }
  destruct (c =? 125)%N.
  { destruct (depth - 1 =? 0)%Z.
    - destruct start as [st|].
      + assert (Hcand : substring st (S (length pre)) (pre ++ c :: r)
                        = skipn st pre ++ [c]).
        { unfold substring. specialize (Hst st eq_refl).
          rewrite skipn_app. replace (st - length pre) with 0 by lia.
          simpl skipn. rewrite firstn_app, length_skipn.
          replace (S (length pre) - st - (length pre - st)) with 1 by lia.
          rewrite firstn_all2 by (rewrite length_skipn; lia). reflexivity. }
        rewrite Hcand. simpl option_map.
        rewrite (Hstep _ None) by discriminate. reflexivity.
      + simpl. rewrite (Hstep _ None) by discriminate. reflexivity.
    - rewrite Hstep by exact Hle. rewrite Hgrown.
      destruct start; reflexivity. }
  rewrite Hstep by exact Hle. now rewrite Hgrown.
Qed.

Lemma findJsonObjects_scan str : findJsonObjects str = scan_objects str 0 None.
Proof.
  unfold findJsonObjects.
  apply (@find_objects_scan str [] 0%Z None). discriminate.
Qed.

Lemma findJsonObjects_app a b :
  count 123 a = count 125 a ->
  findJsonObjects (a ++ b) = findJsonObjects a ++ findJsonObjects b.
Proof.
  intros Hb. rewrite !findJsonObjects_scan, scan_objects_app.
  now rewrite (scan_state_balanced _ Hb).
Qed.

(** Between an opening brace and the first balance point the scan of
    [findJsonObjects] and the scan of [_parseJsonResponses] go together. *)
Lemma scan_objects_span r : forall i o c text,
  c < o ->
  scan_braces r i o c = Some (i + length r) ->
  scan_objects r (Z.of_nat o - Z.of_nat c) (Some text)
  = match JSON.parse (text ++ r) with Some v => [v] | None => [] end.
Proof.
  induction r as [|x r IH]; intros i o c text Hoc; [discriminate|].
  cbn [scan_braces scan_objects length option_map].
  destruct (N.eqb_spec x 123) as [->|H1].
  - change (123 =? 125)%N with false. cbv iota.
    destruct (Z.eqb_spec (Z.of_nat o - Z.of_nat c) 0); [lia|].
    intros Hs.
    replace (Z.of_nat o - Z.of_nat c + 1)%Z with (Z.of_nat (S o) - Z.of_nat c)%Z by lia.
    replace (text ++ 123%N :: r) with ((text ++ [123%N]) ++ r)
      by (now rewrite <- app_assoc).
    apply (IH (S i)); [lia|]. rewrite Hs. f_equal. lia.
  - destruct (N.eqb_spec x 125) as [->|H2].
    + destruct (Nat.eqb_spec o (S c)) as [->|Hne].
      * intros [= Hlen]. assert (r = []) by (destruct r; [easy|simpl in Hlen; lia]).
        subst r.
        replace (Z.of_nat (S c) - Z.of_nat c - 1 =? 0)%Z with true
          by (symmetry; apply Z.eqb_eq; lia).
        destruct (JSON.parse (text ++ [125%N])); reflexivity.
      * intros Hs.
        destruct (Z.eqb_spec (Z.of_nat o - Z.of_nat c - 1) 0); [lia|].
        replace (Z.of_nat o - Z.of_nat c - 1)%Z
          with (Z.of_nat o - Z.of_nat (S c))%Z by lia.
        replace (text ++ 125%N :: r) with ((text ++ [125%N]) ++ r)
          by (now rewrite <- app_assoc).
        apply (IH (S i)); [lia|]. rewrite Hs. f_equal. lia.
    + intros Hs.
      replace (text ++ x :: r) with ((text ++ [x]) ++ r)
        by (now rewrite <- app_assoc).
      apply (IH (S i)); [lia|]. rewrite Hs. f_equal. lia.
Qed.

Lemma findJsonObjects_object s :
  hd_error s = Some 123%N ->
  first_balance s = Some (length s) ->
  findJsonObjects s = match JSON.parse s with Some v => [v] | None => [] end.
Proof.
  destruct s as [|x r]; [discriminate|]. intros [= ->] Hb.
  rewrite <- find_end_first_balance in Hb. unfold find_end in Hb.
  cbn [scan_braces] in Hb. change (123 =? 123)%N with true in Hb.
  change (123 =? 125)%N with false in Hb. cbv iota in Hb.
  rewrite findJsonObjects_scan. cbn [scan_objects].
  change (123 =? 123)%N with true. cbv iota. change (0 =? 0)%Z with true. cbv iota.
  apply (@scan_objects_span r 1 1 0 [123%N]); [lia|exact Hb].
Qed.

Lemma scan_objects_no_brace g : forall depth candidate,
  count 123 g = 0 -> count 125 g = 0 -> scan_objects g depth candidate = [].
Proof.
  induction g as [|c g IH]; intros depth candidate; [reflexivity|].
  rewrite !count_cons. cbn [scan_objects].
  destruct (N.eqb_spec 123 c) as [<-|H1]; [discriminate|].
  destruct (N.eqb_spec 125 c) as [<-|H2]; [discriminate|].
  destruct (N.eqb_spec c 123); [congruence|].
  destruct (N.eqb_spec c 125); [congruence|].
  simpl. apply IH.
Qed.

Lemma first_balance_counts s :
  first_balance s = Some (length s) ->
  count 123 s = count 125 s /\ exists m, s = m ++ [125%N].
Proof.
  unfold first_balance. intros H.
  assert (Hin : In (length s) (filter (balanced_at s) (seq 1 (length s)))).
  { destruct (filter _ _); [discriminate|]. injection H as ->. now left. }
  apply filter_In in Hin. destruct Hin as [Hseq Hbal].
  unfold balanced_at in Hbal. rewrite firstn_all in Hbal.
  apply andb_true_iff in Hbal. destruct Hbal as [Hlast Hcount].
  apply Nat.eqb_eq in Hcount. apply N.eqb_eq in Hlast. split; [exact Hcount|].
  apply in_seq in Hseq.
  destruct (@exists_last _ s) as (m & b & ->); [destruct s; [simpl in Hseq; lia|easy]|].
  exists m. rewrite length_app in Hlast. simpl in Hlast.
  replace (length m + 1 - 1) with (length m) in Hlast by lia.
  rewrite nth_middle in Hlast. now subst b.
Qed.

Lemma object_stream_spaces t : object_stream t [] -> t = [].
Proof. now inversion 1. Qed.

(** An object stream is white space after a text that has none at its ends,
    which both framers cut into the objects of the stream. *)
Lemma object_stream_core t vs :
  object_stream t vs -> vs <> [] ->
  exists core ws,
    t = core ++ ws /\ all_space ws = true /\ tight core /\ core <> []
    /\ stream core vs /\ findJsonObjects core = vs.
Proof.
  induction 1 as [|s gap rest v vs Hhd Hp Hb Hgap Hrest IH]; [easy|]. intros _.
  destruct (first_balance_counts _ Hb) as (Hcount & m & Hm).
  assert (Hs : tight s /\ s <> []).
  { destruct s as [|a s']; [discriminate|]. injection Hhd as ->.
    split; [|easy]. right. split; [exists 123%N, s'|exists m, 125%N]; auto. }
  destruct Hs as [Hts Hne].
  assert (Hobj : findJsonObjects s = [v])
    by (rewrite (findJsonObjects_object _ Hhd Hb), Hp; reflexivity).
  destruct vs as [|v' vs'].
  - apply object_stream_spaces in Hrest. subst rest.
    exists s, gap. rewrite app_nil_r.
    repeat split; auto. now apply stream_last.
  - destruct (IH ltac:(easy)) as (core & ws & -> & Hws & Htc & Hcne & Hst & Hfo).
    exists (s ++ gap ++ core), ws. repeat split; auto.
    + now rewrite <- !app_assoc.
    + destruct Htc as [->|[_ (m' & b & Hc & Hsb)]]; [easy|].
      destruct Hts as [->|[(a & s' & Ha & Hsa) _]]; [easy|].
      right. split.
      * exists a, (s' ++ gap ++ core). rewrite Ha. auto.
      * exists (s ++ gap ++ m'), b. rewrite Hc, <- !app_assoc. auto.
    + destruct s; [easy|discriminate].
    + assert (Htrim : trim (gap ++ core) = core).
      { rewrite <- (app_nil_r core) at 1.
        now apply (@trim_sandwich gap core []). }
      apply stream_cons; auto.
      destruct s as [|a s']; [easy|]. injection Hhd as ->.
      destruct (JSONFacts.parse_brace_object _ Hp) as [ms ->].
      eapply JSONFacts.parse_app_none; eauto.
      intros Hsk. apply JSONFacts.skip_ws_nil_trim in Hsk. congruence.
    + rewrite (findJsonObjects_app _ _ Hcount), Hobj.
      rewrite (@findJsonObjects_app gap core)
        by (now rewrite !count_space by easy).
      rewrite Hfo, findJsonObjects_scan.
      now rewrite scan_objects_no_brace by (now apply count_space).
Qed.

(** What the scan of [findJsonObjects] parses opens with a brace, so what it
    finds are objects. *)
Lemma scan_objects_objects rest : forall depth candidate v,
  (forall text, candidate = Some text -> exists r, text = 123%N :: r) ->
  In v (scan_objects rest depth candidate) -> exists ms, v = JObj ms.
Proof.
  induction rest as [|c rest IH]; intros depth candidate v Hc; [easy|].
  cbn [scan_objects].
  assert (Hg : forall text,
            option_map (fun text => text ++ [c]) candidate = Some text ->
            exists r, text = 123%N :: r).
  { intros text. destruct candidate as [t0|]; [|discriminate].
    intros [= <-]. destruct (Hc t0 eq_refl) as [r ->]. now exists (r ++ [c]). }
  destruct (N.eqb_spec c 123) as [->|H1].
  { apply IH. destruct (depth =? 0)%Z; [|exact Hg].
    intros text [= <-]. now exists []. }
  destruct (c =? 125)%N; [|now apply IH].
  destruct (depth - 1 =? 0)%Z; [|now apply IH].
  destruct (option_map _ candidate) as [text|] eqn:Hgrown; [|now apply IH].
  destruct (Hg text eq_refl) as [r ->].
  destruct (JSON.parse (123%N :: r)) as [parsed|] eqn:Hp.
  - intros [<-|Hin]; [now apply (JSONFacts.parse_brace_object _ Hp)|].
    revert Hin. now apply IH.
  - now apply IH.
Qed.

(** Below the top level, and never back above it, the scan finds nothing. *)
Lemma scan_objects_sunk t : forall depth,
  (forall n, (depth + Z.of_nat (count 123 (firstn n t))
              - Z.of_nat (count 125 (firstn n t)) <= 0)%Z) ->
  scan_objects t depth None = [].
Proof.
  induction t as [|c t IH]; intros depth Hd; [reflexivity|].
  cbn [scan_objects option_map].
  assert (H0 := Hd 0). simpl in H0. unfold count in H0. simpl in H0.
  assert (Hn : forall n, (depth + Z.of_nat (count 123 (c :: firstn n t))
                          - Z.of_nat (count 125 (c :: firstn n t)) <= 0)%Z)
    by (intros n; apply (Hd (S n))).
  destruct (N.eqb_spec c 123) as [->|H1].
  - assert (H1 := Hn 0). rewrite !count_cons in H1. simpl in H1.
    unfold count in H1. simpl in H1.
    destruct (Z.eqb_spec depth 0) as [E|E]; [lia|].
    apply IH. intros n. specialize (Hn n). rewrite !count_cons in Hn.
    simpl in Hn. lia.
  - destruct (N.eqb_spec c 125) as [->|H2].
    + destruct (depth - 1 =? 0)%Z; apply IH; intros n; specialize (Hn n);
        rewrite !count_cons in Hn; simpl in Hn; lia.
    + apply IH. intros n. specialize (Hn n). rewrite !count_cons in Hn.
      destruct (N.eqb_spec 123 c); [congruence|].
      destruct (N.eqb_spec 125 c); [congruence|]. simpl in Hn. lia.
Qed.

Lemma scan_braces_sunk t : forall i o c,
  (forall n, o + count 123 (firstn n t) <= c + count 125 (firstn n t)) ->
  scan_braces t i o c = None.
Proof.
  induction t as [|x t IH]; intros i o c Hd; [reflexivity|].
  cbn [scan_braces].
  assert (H0 := Hd 0). simpl in H0. unfold count in H0. simpl in H0.
  assert (Hn : forall n, o + count 123 (x :: firstn n t)
                         <= c + count 125 (x :: firstn n t))
    by (intros n; apply (Hd (S n))).
  destruct (N.eqb_spec x 123) as [->|H1].
  - change (123 =? 125)%N with false. cbv iota.
    apply IH. intros n. specialize (Hn n). rewrite !count_cons in Hn.
    simpl in Hn. lia.
  - destruct (N.eqb_spec x 125) as [->|H2].
    + destruct (Nat.eqb_spec o (S c)) as [E|E]; [lia|].
      apply IH. intros n. specialize (Hn n). rewrite !count_cons in Hn.
      simpl in Hn. lia.
    + apply IH. intros n. specialize (Hn n). rewrite !count_cons in Hn.
      destruct (N.eqb_spec 123 x); [congruence|].
      destruct (N.eqb_spec 125 x); [congruence|]. simpl in Hn. lia.
Qed.

Lemma never_nested_firstn k t : never_nested t -> never_nested (firstn k t).
Proof.
  intros Hn n. rewrite firstn_firstn. apply Hn.
Qed.

Lemma parse_closing_brace t : JSON.parse (125%N :: t) = None.
Proof. reflexivity. Qed.

Lemma scan_braces_no_close s : forall i o c,
  count 125 s = 0 -> scan_braces s i o c = None.
Proof.
  induction s as [|x s IH]; intros i o c; [reflexivity|].
  rewrite count_cons. cbn [scan_braces].
  destruct (N.eqb_spec 125 x) as [<-|H]; [discriminate|].
  destruct (N.eqb_spec x 125); [congruence|]. intros Hs. now apply IH.
Qed.

(** Without a closing brace the scan of [findJsonObjects] finds nothing. *)
Lemma scan_objects_no_close s : forall depth candidate,
  count 125 s = 0 -> scan_objects s depth candidate = [].
Proof.
  induction s as [|x s IH]; intros depth candidate; [reflexivity|].
  rewrite count_cons. cbn [scan_objects].
  destruct (N.eqb_spec 125 x) as [<-|H]; [discriminate|].
  destruct (N.eqb_spec x 125); [congruence|]. intros Hs.
  destruct (x =? 123)%N; now apply IH.
Qed.


(** ** Pieces of object streams *)

Lemma object_stream_app a va :
  object_stream a va -> va <> [] ->
  forall lead b vb, all_space lead = true -> object_stream b vb ->
  object_stream (a ++ lead ++ b) (va ++ vb).
Proof.
  induction 1 as [|s gap rest v vs Hhd Hp Hb Hgap Hrest IH]; [easy|].
  intros _ lead b vb Hlead Hbs.
  destruct vs as [|v' vs'].
  - apply object_stream_spaces in Hrest. subst rest.
    rewrite app_nil_r, <- !app_assoc.
    replace (s ++ gap ++ lead ++ b) with (s ++ (gap ++ lead) ++ b)
      by now rewrite <- app_assoc.
    apply object_stream_cons; auto.
    now rewrite all_space_app, Hgap, Hlead.
  - replace ((s ++ gap ++ rest) ++ lead ++ b)
      with (s ++ gap ++ (rest ++ lead ++ b)) by now rewrite <- !app_assoc.
    change ((v :: v' :: vs') ++ vb) with (v :: (v' :: vs') ++ vb).
    apply object_stream_cons; auto. apply IH; auto. discriminate.
Qed.

Lemma object_chunk_app a b va vb :
  object_chunk a va -> object_chunk b vb -> object_chunk (a ++ b) (va ++ vb).
Proof.
  intros (la & ba & -> & Hla & Ha) (lb & bb & -> & Hlb & Hb).
  destruct va as [|v va].
  - apply object_stream_spaces in Ha. subst ba.
    exists (la ++ lb), bb. rewrite app_nil_r, <- app_assoc.
    repeat split; auto. now rewrite all_space_app, Hla, Hlb.
  - exists la, (ba ++ lb ++ bb). rewrite <- !app_assoc.
    repeat split; auto. apply object_stream_app; auto. discriminate.
Qed.

Lemma object_chunk_concat chunks objs :
  Forall2 object_chunk chunks objs -> object_chunk (concat chunks) (concat objs).
Proof.
  induction 1 as [|chunk vs chunks objs Hc _ IH]; simpl.
  - exists [], []. repeat split. constructor.
  - now apply object_chunk_app.
Qed.

Lemma object_chunk_framed chunk vs :
  object_chunk chunk vs -> _parseJsonResponses chunk = vs.
Proof.
  intros (lead & body & -> & Hlead & Hs). destruct vs as [|v vs].
  - apply object_stream_spaces in Hs. subst body. rewrite app_nil_r.
    unfold _parseJsonResponses, trim. now rewrite (trim_start_all _ Hlead).
  - destruct (object_stream_core Hs) as (core & ws & -> & Hws & Ht & _ & Hst & _);
      [easy|].
    apply parseJsonResponses_stream. now rewrite trim_sandwich.
Qed.

(** ** Proper prefixes of an object *)

Lemma skip_ws_closing_brace t : JSON.skip_ws (t ++ [125%N]) <> [].
Proof.
  induction t as [|c t IH]; simpl; [discriminate|].
  destruct (JSON.is_ws c); [exact IH|discriminate].
Qed.

Lemma find_end_proper_prefix q t :
  t <> [] -> first_balance (q ++ t) = Some (length (q ++ t)) -> first_balance q = None.
Proof.
  intros Ht Hb. rewrite <- find_end_first_balance in *.
  destruct (find_end q) as [e|] eqn:He; [|reflexivity].
  pose proof (find_end_bounds _ He) as Hle.
  rewrite (find_end_app _ t He) in Hb. injection Hb as ->.
  rewrite length_app in Hle. destruct t; [easy|simpl in Hle; lia].
Qed.

(** A proper prefix of the text of an object, the braces of which first
    balance at its end, is no JSON text and has no balance point, and stays
    so when it is trimmed. *)
Lemma proper_prefix_of_object object buffer v :
  hd_error object = Some 123%N ->
  JSON.parse object = Some v ->
  first_balance object = Some (length object) ->
  is_proper_prefix buffer object ->
  JSON.parse (trim buffer) = None /\ first_balance (trim buffer) = None.
Proof.
  intros Hhd Hp Hb (rest & Hrest & Ho).
  destruct buffer as [|c b'].
  { split; reflexivity. }
  assert (Hc : c = 123%N) by (subst object; simpl in Hhd; congruence).
  subst c. destruct (@trim_prefix 123%N b' eq_refl) as [k Hk].
  set (q := trim (123%N :: b')) in *.
  assert (Hsplit : object = q ++ (skipn k b' ++ rest)).
  { rewrite Ho, Hk. simpl. f_equal.
    now rewrite app_assoc, firstn_skipn. }
  assert (Hne : skipn k b' ++ rest <> []).
  { destruct (skipn k b'); [exact Hrest|discriminate]. }
  split.
  - destruct (JSON.parse q) as [w|] eqn:Hq; [|reflexivity]. exfalso.
    assert (Hw : is_number w = false).
    { rewrite Hk in Hq. destruct (JSONFacts.parse_brace_object _ Hq) as [ms ->].
      reflexivity. }
    destruct (first_balance_counts _ Hb) as (_ & m & Hm).
    destruct (@exists_last _ (skipn k b' ++ rest) Hne) as (t' & x & Ht).
    rewrite Ht in Hsplit. rewrite Hsplit, app_assoc in Hm.
    apply app_inj_tail in Hm. destruct Hm as [_ ->].
    assert (Hnone : JSON.parse (q ++ t' ++ [125%N]) = None).
    { apply (@JSONFacts.parse_app_none q (t' ++ [125%N]) w Hq Hw). apply skip_ws_closing_brace. }
    rewrite <- Hsplit in Hnone. congruence.
  - apply (@find_end_proper_prefix q (skipn k b' ++ rest) Hne).
    now rewrite <- Hsplit.
Qed.

(* ================================================================== *)
(** * Braces of a JSON text *)

Lemma nested_app t u : nested t -> nested u -> nested (t ++ u).
Proof.
  induction 1 as [|c t Hc _ IH|t t' Ht IHt _ IHt']; intros Hu; simpl.
  - exact Hu.
  - apply nested_char; [exact Hc|apply IH, Hu].
  - rewrite <- app_assoc. simpl. apply nested_braces; [exact Ht|apply IHt', Hu].
Qed.

Lemma no_brace_nested t : no_brace t = true -> nested t.
Proof.
  induction t as [|c t IH]; simpl; [constructor|].
  rewrite andb_true_iff, negb_true_iff. intros [Hc Ht].
  apply nested_char; auto.
Qed.

Lemma no_brace_app t u : no_brace (t ++ u) = no_brace t && no_brace u.
Proof. apply forallb_app. Qed.

(** The scan of [_parseJsonResponses] walks over nested braces without
    finding a balance point when a brace is open before them. *)
Lemma scan_braces_nested t :
  nested t -> forall rest i o c, c < o ->
  scan_braces (t ++ rest) i o c
  = scan_braces rest (length t + i) (count 123 t + o) (count 123 t + c).
Proof.
  induction 1 as [|x t Hx _ IH|t u _ IHt _ IHu]; intros rest i o c Hlt.
  - reflexivity.
  - cbn [app scan_braces length]. rewrite count_cons.
    unfold is_brace in Hx. apply orb_false_iff in Hx. destruct Hx as [H3 H5].
    rewrite H3, H5. rewrite N.eqb_sym, H3.
    rewrite IH by exact Hlt. f_equal. lia.
  - cbn [app scan_braces]. change ((123 =? 123)%N) with true.
    change ((123 =? 125)%N) with false. cbv iota.
    rewrite <- app_assoc. rewrite IHt by lia.
    cbn [app scan_braces]. change ((125 =? 123)%N) with false.
    change ((125 =? 125)%N) with true. cbv iota.
    destruct (Nat.eqb_spec (count 123 t + S o) (S (count 123 t + c))); [lia|].
    rewrite IHu by lia.
    rewrite count_cons, count_app, count_cons.
    change ((123 =? 123)%N) with true. change ((123 =? 125)%N) with false.
    f_equal; cbn [length]; rewrite ?length_app; cbn [length]; lia.
Qed.

(** A brace pair around nested braces: the first balance point is the
    closing brace. *)
Lemma find_end_nested t :
  nested t -> find_end (123%N :: t ++ [125%N]) = Some (S (S (length t))).
Proof.
  intros Ht. unfold find_end. cbn [scan_braces].
  change ((123 =? 123)%N) with true. change ((123 =? 125)%N) with false.
  cbv iota. rewrite (scan_braces_nested Ht) by lia.
  cbn [scan_braces]. change ((125 =? 123)%N) with false.
  change ((125 =? 125)%N) with true. cbv iota.
  replace (count 123 t + 1) with (S (count 123 t + 0)) by lia.
  rewrite Nat.eqb_refl. f_equal. lia.
Qed.

(** ** What the parser reads *)

Lemma skip_ws_split s :
  exists ws, s = ws ++ JSON.skip_ws s /\ no_brace ws = true.
Proof.
  induction s as [|c s (ws & Hs & Hws)]; simpl.
  - exists []; auto.
  - destruct (JSON.is_ws c) eqn:Hc.
    + exists (c :: ws). simpl. rewrite Hws, <- Hs. split; [reflexivity|].
      unfold JSON.is_ws in Hc. rewrite !orb_true_iff, !N.eqb_eq in Hc.
      destruct Hc as [[[->| ->]| ->]| ->]; reflexivity.
    + exists []; auto.
Qed.

Lemma string_chars_split n : forall s acc str r,
  length s <= n ->
  JSON.string_chars s acc = Some (str, r) ->
  (forall b, In b acc -> In b str)
  /\ exists lit, s = lit ++ 34%N :: r
                 /\ (no_brace str = true -> no_brace lit = true).
Proof.
  induction n as [|n IH]; intros s acc str r Hlen.
  - destruct s; simpl in *; [discriminate|lia].
  - destruct s as [|c s]; [discriminate|]. cbn [JSON.string_chars].
    destruct (N.eqb_spec c 34) as [->|Hq].
    { intros [= <- <-]. split.
      - intros b Hb. now apply in_rev in Hb.
      - exists []. auto. }
    destruct (N.eqb_spec c 92) as [->|Hb].
    + destruct s as [|e s1]; [discriminate|].
      destruct (N.eqb_spec e 117) as [->|He].
      * destruct s1 as [|h1 [|h2 [|h3 [|h4 r2]]]]; try discriminate.
        destruct (JSON.hex4 h1 h2 h3 h4) as [u|] eqn:Hhex; [|discriminate].
        intros Hs. apply IH in Hs; [|simpl in Hlen; lia].
        destruct Hs as (Hacc & lit & -> & Hlit). split.
        { intros b Hin. apply Hacc. now right. }
        exists (92%N :: 117%N :: h1 :: h2 :: h3 :: h4 :: lit).
        split; [reflexivity|]. intros Hstr. cbn [no_brace forallb].
        fold (no_brace lit). rewrite (Hlit Hstr).
        assert (Hh : forall h x, JSON.hex_val h = Some x -> is_brace h = false).
        { intros h x. unfold JSON.hex_val, JSON.is_digit, is_brace.
          destruct (N.eqb_spec h 123) as [->|]; [discriminate|].
          destruct (N.eqb_spec h 125) as [->|]; [discriminate|]. reflexivity. }
        unfold JSON.hex4 in Hhex.
        destruct (JSON.hex_val h1) eqn:H1; [|discriminate].
        destruct (JSON.hex_val h2) eqn:H2; [|discriminate].
        destruct (JSON.hex_val h3) eqn:H3; [|discriminate].
        destruct (JSON.hex_val h4) eqn:H4; [|discriminate].
        rewrite (Hh _ _ H1), (Hh _ _ H2), (Hh _ _ H3), (Hh _ _ H4). reflexivity.
      * destruct (JSON.unescape e) as [u|] eqn:Hu; [|discriminate].
        intros Hs. apply IH in Hs; [|simpl in Hlen; lia].
        destruct Hs as (Hacc & lit & -> & Hlit). split.
        { intros b Hin. apply Hacc. now right. }
        exists (92%N :: e :: lit). split; [reflexivity|].
        intros Hstr. cbn [no_brace forallb]. fold (no_brace lit).
        rewrite (Hlit Hstr).
        assert (He' : is_brace e = false).
        { unfold JSON.unescape in Hu. unfold is_brace.
          destruct (N.eqb_spec e 123) as [->|]; [discriminate|].
          destruct (N.eqb_spec e 125) as [->|]; [discriminate|]. reflexivity. }
        rewrite He'. reflexivity.
    + destruct (c <? 32)%N; [discriminate|].
      intros Hs. apply IH in Hs; [|simpl in Hlen; lia].
      destruct Hs as (Hacc & lit & -> & Hlit). split.
      { intros b Hin. apply Hacc. now right. }
      exists (c :: lit). split; [reflexivity|].
      intros Hstr. cbn [no_brace forallb]. fold (no_brace lit).
      rewrite (Hlit Hstr), andb_true_r.
      unfold no_brace in Hstr. rewrite forallb_forall in Hstr.
      apply Hstr, Hacc. now left.
Qed.

Lemma take_digits_split s : forall d r,
  JSON.take_digits s = (d, r) -> s = d ++ r /\ no_brace d = true.
Proof.
  induction s as [|c s IH]; intros d r; cbn [JSON.take_digits].
  - intros [= <- <-]; auto.
  - destruct (JSON.is_digit c) eqn:Hc.
    + destruct (JSON.take_digits s) as [d' r'] eqn:Hd. intros [= <- <-].
      destruct (IH d' r' eq_refl) as [-> Hd']. split; [reflexivity|].
      cbn [no_brace forallb]. fold (no_brace d'). rewrite Hd', andb_true_r.
      unfold JSON.is_digit in Hc. unfold is_brace.
      destruct (N.eqb_spec c 123) as [->|]; [discriminate|].
      destruct (N.eqb_spec c 125) as [->|]; [discriminate|]. reflexivity.
    + intros [= <- <-]; auto.
Qed.

Lemma number_split s v r :
  JSON.number s = Some (v, r) -> exists p, s = p ++ r /\ no_brace p = true.
Proof.
  unfold JSON.number.
  destruct (JSON.sign s) as [neg s1] eqn:Hsign.
  destruct (JSON.int_part s1) as [[int s2]|] eqn:Hint; [|discriminate].
  destruct (JSON.frac_part s2) as [[frac s3]|] eqn:Hfrac; [|discriminate].
  destruct (JSON.exp_part s3) as [[e s4]|] eqn:Hexp; [|discriminate].
  intros [= _ <-].
  assert (H1 : exists p1, s = p1 ++ s1 /\ no_brace p1 = true).
  { unfold JSON.sign in Hsign. destruct s as [|c s'].
    - injection Hsign as _ <-. exists []; auto.
    - destruct (N.eqb_spec c 45) as [->|].
      + injection Hsign as _ <-. exists [45%N]; auto.
      + injection Hsign as _ <-. exists []; auto. }
  assert (H2 : exists p2, s1 = p2 ++ s2 /\ no_brace p2 = true).
  { unfold JSON.int_part in Hint.
    destruct (JSON.take_digits s1) as [d r'] eqn:Hd.
    apply take_digits_split in Hd. destruct Hd as [-> Hd].
    destruct d as [|d0 ds]; [discriminate|].
    destruct ((d0 =? 48)%N && negb (Nat.eqb (length ds) 0)); [discriminate|].
    injection Hint as <- <-. eauto. }
  assert (H3 : exists p3, s2 = p3 ++ s3 /\ no_brace p3 = true).
  { unfold JSON.frac_part in Hfrac. destruct s2 as [|c s'].
    - injection Hfrac as _ <-. exists []; auto.
    - destruct (N.eqb_spec c 46) as [->|].
      + destruct (JSON.take_digits s') as [f r'] eqn:Hd.
        apply take_digits_split in Hd. destruct Hd as [-> Hd].
        destruct f as [|f0 fs]; [discriminate|].
        injection Hfrac as _ <-. exists (46%N :: f0 :: fs). split; [reflexivity|].
        cbn [no_brace forallb] in *. exact Hd.
      + injection Hfrac as _ <-. exists []; auto. }
  assert (H4 : exists p4, s3 = p4 ++ s4 /\ no_brace p4 = true).
  { unfold JSON.exp_part in Hexp. destruct s3 as [|c s'].
    - injection Hexp as _ <-. exists []; auto.
    - destruct ((c =? 101) || (c =? 69))%N eqn:Hc.
      + assert (Hcb : is_brace c = false).
        { unfold is_brace. rewrite orb_true_iff, !N.eqb_eq in Hc.
          destruct Hc as [->| ->]; reflexivity. }
        assert (Hs : exists ps r1, s' = ps ++ r1 /\ no_brace ps = true
                       /\ (let (ed, r2) := JSON.take_digits r1 in
                           match ed with
                           | [] => None
                           | _ :: _ => Some (0%Z, r2)
                           end) = Some (0%Z, s4)).
        { destruct s' as [|c1 r'].
          - exists [], []. cbn in Hexp |- *. discriminate Hexp.
          - destruct (N.eqb_spec c1 45) as [->|].
            + exists [45%N], r'. repeat split.
              destruct (JSON.take_digits r') as [[|? ?] r2]; [discriminate|].
              now injection Hexp as _ <-.
            + destruct (N.eqb_spec c1 43) as [->|].
              * exists [43%N], r'. repeat split.
                destruct (JSON.take_digits r') as [[|? ?] r2]; [discriminate|].
                now injection Hexp as _ <-.
              * exists [], (c1 :: r'). repeat split.
                destruct (JSON.take_digits (c1 :: r')) as [[|? ?] r2];
                  [discriminate|].
                now injection Hexp as _ <-. }
        destruct Hs as (ps & r1 & -> & Hps & Hd).
        destruct (JSON.take_digits r1) as [ed r2] eqn:Hed.
        apply take_digits_split in Hed. destruct Hed as [-> Hed].
        destruct ed as [|e0 es]; [discriminate|]. injection Hd as <-.
        exists (c :: ps ++ e0 :: es). split.
        * simpl. now rewrite <- app_assoc.
        * cbn [no_brace forallb]. fold (no_brace (ps ++ e0 :: es)).
          now rewrite Hcb, no_brace_app, Hps, Hed.
      + injection Hexp as _ <-. exists []; auto. }
  destruct H1 as (p1 & -> & Hp1). destruct H2 as (p2 & -> & Hp2).
  destruct H3 as (p3 & -> & Hp3). destruct H4 as (p4 & -> & Hp4).
  exists (p1 ++ p2 ++ p3 ++ p4). rewrite <- !app_assoc. split; [reflexivity|].
  now rewrite !no_brace_app, Hp1, Hp2, Hp3, Hp4.
Qed.

Lemma starts_with_split p : forall s,
  starts_with p s = true -> s = p ++ skipn (length p) s.
Proof.
  induction p as [|x p IH]; intros [|y s]; simpl; auto; try discriminate.
  rewrite andb_true_iff, N.eqb_eq. intros [-> H]. f_equal. auto.
Qed.

Lemma keyword_split s v r :
  JSON.keyword s = Some (v, r) -> exists p, s = p ++ r /\ no_brace p = true.
Proof.
  unfold JSON.keyword.
  destruct (starts_with (js "true") s) eqn:Ht.
  { intros [= _ <-]. exists (js "true"). split; [|reflexivity].
    exact (starts_with_split _ _ Ht). }
  destruct (starts_with (js "false") s) eqn:Hf.
  { intros [= _ <-]. exists (js "false"). split; [|reflexivity].
    exact (starts_with_split _ _ Hf). }
  destruct (starts_with (js "null") s) eqn:Hn; [|discriminate].
  intros [= _ <-]. exists (js "null"). split; [|reflexivity].
  exact (starts_with_split _ _ Hn).
Qed.
Lemma members_acc : forall f s acc v r,
  JSON.members f s acc = Some (v, r) -> exists ms, v = JObj (rev acc ++ ms).
Proof.
  induction f as [|f IH]; intros s acc v r; simpl; [discriminate|].
  destruct (JSON.skip_ws s) as [|c r0]; [discriminate|].
  destruct (c =? 34)%N; [|discriminate].
  destruct (JSON.string_chars r0 []) as [[k r1]|]; [|discriminate].
  destruct (JSON.skip_ws r1) as [|c1 r2]; [discriminate|].
  destruct (c1 =? 58)%N; [|discriminate].
  destruct (JSON.value f r2) as [[v' r3]|]; [|discriminate].
  destruct (JSON.skip_ws r3) as [|c3 r4]; [discriminate|].
  destruct (c3 =? 44)%N.
  - intros H. apply IH in H. destruct H as [ms ->].
    exists ((k, v') :: ms). simpl. now rewrite <- app_assoc.
  - destruct (c3 =? 125)%N; [|discriminate].
    intros [= <- _]. exists [(k, v')]. reflexivity.
Qed.

Lemma elements_acc : forall f s acc v r,
  JSON.elements f s acc = Some (v, r) -> exists items, v = JArr (rev acc ++ items).
Proof.
  induction f as [|f IH]; intros s acc v r; simpl; [discriminate|].
  destruct (JSON.value f s) as [[v' r1]|]; [|discriminate].
  destruct (JSON.skip_ws r1) as [|c r2]; [discriminate|].
  destruct (c =? 44)%N.
  - intros H. apply IH in H. destruct H as [items ->].
    exists (v' :: items). simpl. now rewrite <- app_assoc.
  - destruct (c =? 93)%N; [|discriminate].
    intros [= <- _]. exists [v']. reflexivity.
Qed.

Lemma braceless_member acc k w ms :
  braceless (JObj (rev ((k, w) :: acc) ++ ms)) = true ->
  no_brace k = true /\ braceless w = true.
Proof.
  cbn [braceless rev]. rewrite !forallb_app. cbn [forallb].
  rewrite !andb_true_iff. tauto.
Qed.

Lemma braceless_element acc w items :
  braceless (JArr (rev (w :: acc) ++ items)) = true -> braceless w = true.
Proof.
  cbn [braceless rev]. rewrite !forallb_app. cbn [forallb].
  rewrite !andb_true_iff. tauto.
Qed.

Ltac flat := repeat (rewrite <- ?app_assoc; cbn [app]); reflexivity.

Ltac nest :=
  repeat first
    [ assumption
    | apply nested_nil
    | apply nested_app
    | apply no_brace_nested; assumption
    | apply nested_char; [reflexivity|] ].

(** What the parser reads for a value without a brace in a string is a text
    of nested braces; for the members of an object, up to the brace that
    closes it. *)
Lemma value_nested : forall f,
  (forall s v r, JSON.value f s = Some (v, r) -> braceless v = true ->
     exists p, s = p ++ r /\ nested p)
  /\ (forall s acc v r, JSON.members f s acc = Some (v, r) -> braceless v = true ->
        exists p, s = p ++ 125%N :: r /\ nested p)
  /\ (forall s acc v r, JSON.elements f s acc = Some (v, r) -> braceless v = true ->
        exists p, s = p ++ r /\ nested p).
Proof.
  induction f as [|f (IHv & IHm & IHe)];
    [repeat split; intros; discriminate|].
  repeat split.
  - intros s v r. cbn [JSON.value].
    destruct (skip_ws_split s) as (ws & Hs & Hws).
    destruct (JSON.skip_ws s) as [|c r0]; [discriminate|].
    destruct (N.eqb_spec c 123) as [->|H123].
    { destruct (skip_ws_split r0) as (ws2 & Hr0 & Hws2).
      destruct (JSON.skip_ws r0) as [|c2 r2]; [discriminate|].
      destruct (N.eqb_spec c2 125) as [->|H125].
      - intros [= <- <-] _. exists (ws ++ 123%N :: ws2 ++ 125%N :: []).
        split; [rewrite Hs, Hr0; flat|].
        apply nested_app; [nest|]. apply nested_braces; nest.
      - intros Hm Hb. destruct (IHm _ _ _ _ Hm Hb) as (pm & Hpm & Hn).
        exists (ws ++ 123%N :: (ws2 ++ pm) ++ 125%N :: []).
        split; [rewrite Hs, Hr0, Hpm; flat|].
        apply nested_app; [nest|]. apply nested_braces; nest. }
    destruct (N.eqb_spec c 91) as [->|H91].
    { destruct (skip_ws_split r0) as (ws2 & Hr0 & Hws2).
      destruct (JSON.skip_ws r0) as [|c2 r2]; [discriminate|].
      destruct (N.eqb_spec c2 93) as [->|H93].
      - intros [= <- <-] _. exists (ws ++ 91%N :: ws2 ++ [93%N]).
        split; [rewrite Hs, Hr0; flat|].
        nest.
      - intros He Hb. destruct (IHe _ _ _ _ He Hb) as (pe & Hpe & Hn).
        exists (ws ++ 91%N :: ws2 ++ pe).
        split; [rewrite Hs, Hr0, Hpe; flat|].
        nest. }
    destruct (N.eqb_spec c 34) as [->|H34].
    { destruct (JSON.string_chars r0 []) as [[str r1]|] eqn:Hstr; [|discriminate].
      intros [= <- <-] Hb. cbn [braceless] in Hb.
      destruct (@string_chars_split (length r0) r0 [] str r1 (le_n _) Hstr)
        as (_ & lit & Hlit & Hnb).
      exists (ws ++ 34%N :: lit ++ [34%N]).
      split; [rewrite Hs, Hlit; flat|].
      specialize (Hnb Hb). nest. }
    destruct ((c =? 116) || (c =? 102) || (c =? 110))%N.
    + intros Hk _. apply keyword_split in Hk. destruct Hk as (p & Hp & Hnb).
      exists (ws ++ p). split; [now rewrite Hs, Hp, <- app_assoc|]. nest.
    + intros Hk _. apply number_split in Hk. destruct Hk as (p & Hp & Hnb).
      exists (ws ++ p). split; [now rewrite Hs, Hp, <- app_assoc|]. nest.
  - intros s acc v r. cbn [JSON.members].
    destruct (skip_ws_split s) as (ws & Hs & Hws).
    destruct (JSON.skip_ws s) as [|c r0]; [discriminate|].
    destruct (N.eqb_spec c 34) as [->|H34]; [|discriminate].
    destruct (JSON.string_chars r0 []) as [[k r1]|] eqn:Hstr; [|discriminate].
    destruct (@string_chars_split (length r0) r0 [] k r1 (le_n _) Hstr)
      as (_ & lit & Hlit & Hnb).
    destruct (skip_ws_split r1) as (ws1 & Hr1 & Hws1).
    destruct (JSON.skip_ws r1) as [|c1 r2]; [discriminate|].
    destruct (N.eqb_spec c1 58) as [->|H58]; [|discriminate].
    destruct (JSON.value f r2) as [[w r3]|] eqn:Hval; [|discriminate].
    destruct (skip_ws_split r3) as (ws3 & Hr3 & Hws3).
    destruct (JSON.skip_ws r3) as [|c3 r4]; [discriminate|].
    destruct (N.eqb_spec c3 44) as [->|H44].
    + intros Hm Hb.
      destruct (members_acc _ _ _ Hm) as [ms Hv].
      assert (Hkw : no_brace k = true /\ braceless w = true)
        by (rewrite Hv in Hb; exact (braceless_member _ _ _ _ Hb)).
      destruct Hkw as [Hk Hw].
      destruct (IHv _ _ _ Hval Hw) as (pv & Hpv & Hnv).
      destruct (IHm _ _ _ _ Hm Hb) as (pm & Hpm & Hnm).
      exists (ws ++ 34%N :: lit ++ 34%N :: ws1 ++ 58%N :: pv ++ ws3 ++ 44%N :: pm).
      split; [rewrite Hs, Hlit, Hr1, Hpv, Hr3, Hpm; flat|].
      specialize (Hnb Hk). nest.
    + destruct (N.eqb_spec c3 125) as [->|H125]; [|discriminate].
      intros [= <- <-] Hb.
      assert (Hkw : no_brace k = true /\ braceless w = true).
      { apply (@braceless_member acc k w []). now rewrite app_nil_r. }
      destruct Hkw as [Hk Hw].
      destruct (IHv _ _ _ Hval Hw) as (pv & Hpv & Hnv).
      exists (ws ++ 34%N :: lit ++ 34%N :: ws1 ++ 58%N :: pv ++ ws3).
      split; [rewrite Hs, Hlit, Hr1, Hpv, Hr3; flat|].
      specialize (Hnb Hk). nest.
  - intros s acc v r. cbn [JSON.elements].
    destruct (JSON.value f s) as [[w r1]|] eqn:Hval; [|discriminate].
    destruct (skip_ws_split r1) as (ws1 & Hr1 & Hws1).
    destruct (JSON.skip_ws r1) as [|c r2]; [discriminate|].
    destruct (N.eqb_spec c 44) as [->|H44].
    + intros He Hb.
      destruct (elements_acc _ _ _ He) as [items Hv].
      assert (Hw : braceless w = true)
        by (rewrite Hv in Hb; exact (braceless_element _ _ _ Hb)).
      destruct (IHv _ _ _ Hval Hw) as (pv & Hpv & Hnv).
      destruct (IHe _ _ _ _ He Hb) as (pe & Hpe & Hne).
      exists (pv ++ ws1 ++ 44%N :: pe).
      split; [rewrite Hpv, Hr1, Hpe; flat|].
      nest.
    + destruct (N.eqb_spec c 93) as [->|H93]; [|discriminate].
      intros [= <- <-] Hb.
      assert (Hw : braceless w = true).
      { apply (@braceless_element acc w []). now rewrite app_nil_r. }
      destruct (IHv _ _ _ Hval Hw) as (pv & Hpv & Hnv).
      exists (pv ++ ws1 ++ [93%N]).
      split; [rewrite Hpv, Hr1; flat|].
      nest.
Qed.

(** The text of a JSON object without white space around it and without a
    brace in any of its strings: the first point where its braces balance
    is its end. *)
Lemma braceless_object_balances s v :
  hd_error s = Some 123%N -> JSON.parse s = Some v -> trim s = s ->
  braceless v = true ->
  first_balance s = Some (length s).
Proof.
  intros Hhd Hp Htrim Hb.
  destruct s as [|c s']; [discriminate|]. injection Hhd as ->.
  unfold JSON.parse in Hp. revert Hp.
  generalize (2 * length (123%N :: s')). intros n Hp.
  destruct (JSON.value (S n) (123%N :: s')) as [[v' r]|] eqn:Hval; [|discriminate].
  destruct (JSON.skip_ws r) as [|x y] eqn:Hr; [|discriminate].
  injection Hp as ->.
  assert (Hend : r = []).
  { destruct (@exists_last _ (123%N :: s') ltac:(discriminate)) as (m & b & Hm).
    destruct r as [|r0 rs]; [reflexivity|exfalso].
    pose proof (trim_tight (123%N :: s')) as Ht. rewrite Htrim in Ht.
    destruct Ht as [Ht|[_ (m' & b' & Hm' & Hb')]]; [discriminate|].
    destruct (proj1 (value_nested _) _ _ _ Hval Hb) as (p & Hsp & _).
    destruct (@exists_last _ (r0 :: rs) ltac:(discriminate)) as (rm & rb & Hrm).
    rewrite Hrm in Hsp. rewrite Hm', app_assoc in Hsp.
    apply app_inj_tail in Hsp. destruct Hsp as [_ ->].
    assert (Hall : forall t, JSON.skip_ws t = [] -> forallb JSON.is_ws t = true).
    { induction t as [|a t IH]; simpl; [reflexivity|].
      destruct (JSON.is_ws a); [exact IH|discriminate]. }
    apply Hall in Hr. rewrite Hrm, forallb_app in Hr.
    apply andb_true_iff in Hr. destruct Hr as [_ Hrb]. simpl in Hrb.
    rewrite andb_true_r in Hrb.
    apply JSONFacts.is_ws_js_space in Hrb. congruence. }
  subst r. rewrite <- find_end_first_balance.
  cbn [JSON.value JSON.skip_ws] in Hval.
  change (JSON.is_ws 123) with false in Hval.
  change ((123 =? 123)%N) with true in Hval. cbv iota in Hval.
  destruct (skip_ws_split s') as (ws2 & Hs' & Hws2).
  destruct (JSON.skip_ws s') as [|c2 r2]; [discriminate|].
  destruct (N.eqb_spec c2 125) as [->|H125].
  - injection Hval as _ ->. rewrite Hs'.
    rewrite (find_end_nested (no_brace_nested _ Hws2)).
    f_equal. cbn [length]. rewrite length_app. simpl. lia.
  - destruct (proj1 (proj2 (value_nested _)) _ _ _ _ Hval Hb) as (pm & Hpm & Hn).
    rewrite Hs', Hpm, app_assoc.
    assert (Hnest : nested (ws2 ++ pm)) by nest.
    rewrite (find_end_nested Hnest).
    f_equal. cbn [length]. rewrite !length_app. simpl. lia.
Qed.
(* ================================================================== *)
(** * The transport: requests without a handler *)

Section OrphanFacts.

Import MapFacts.

Variables (p : promise) (d : N).

Lemma retire_orphaned key q s L :
  q <> p -> orphaned p d L -> orphaned p d (retire key q s L).
Proof.
  intros Hq (Hs & Hlt & Hh & Ht).
  destruct (retire_fields key q s L) as (_ & _ & Htm & _ & Hpr & _).
  repeat split.
  - unfold retire. now rewrite settle_other.
  - now rewrite Hpr.
  - intros k Hin. rewrite retire_handlers in Hin.
    apply in_delete in Hin. now apply (Hh k).
  - now rewrite Htm.
Qed.

Lemma dispatch_all_orphaned responses : forall L,
  orphaned p d L -> orphaned p d (dispatch_all responses L).
Proof.
  induction responses as [|r rest IH]; intros L Ho; simpl; auto.
  destruct (dispatch_cases r L) as [[_ ->]|[_ ->]]; auto.
  apply IH.
  destruct (response_key r) as [key|]; auto.
  destruct (Map.get key (handlers L)) as [q|] eqn:Hg; auto.
  apply retire_orphaned; auto.
  intros ->. apply get_in in Hg. now apply (proj1 (proj2 (proj2 Ho)) key).
Qed.

Lemma timeout_callback_orphaned k q L :
  q <> p -> orphaned p d L -> orphaned p d (timeout_callback k q L).
Proof.
  intros Hq Ho. unfold timeout_callback. destruct (Map.has k (handlers L)); auto.
  fold (retire k q (Rejected timeout_error) L). now apply retire_orphaned.
Qed.

Lemma run_timers_orphaned due : forall L,
  (forall t, In t due -> snd (snd t) <> p) ->
  orphaned p d L -> orphaned p d (run_timers due L).
Proof.
  unfold run_timers. induction due as [|t due IH]; intros L Hd Ho; simpl; auto.
  apply IH; [intros; apply Hd; simpl; auto|].
  apply timeout_callback_orphaned; auto. apply Hd; simpl; auto.
Qed.

Lemma sendRequest_orphaned request L :
  orphaned p d L -> orphaned p d (fst (sendRequest request L)).
Proof.
  intros (Hs & Hlt & Hh & Ht). unfold sendRequest.
  destruct (killed (child L)).
  - cbn [fst].
    set (L0 := mkLoop (transport L) (child L) (clock L) (timers L) (writes L)
                      (settled L) (S (promises L))).
    destruct (settle_fields (promises L)
                (Rejected (Error (js "Process not available"))) L0)
      as (Htr & _ & _ & Htm & _ & Hpr).
    repeat split.
    + rewrite settle_other by lia. exact Hs.
    + rewrite Hpr. simpl. lia.
    + intros k. rewrite handlers_settle. apply Hh.
    + rewrite Htm. exact Ht.
  - destruct (next_request_id request (lastRequestId (transport L)))
      as [requestId last].
    cbn [fst]. repeat split; simpl.
    + exact Hs.
    + lia.
    + intros k Hin. unfold handlers in Hin. simpl in Hin.
      apply in_set in Hin. destruct Hin as [[_ Hp]|Hin]; [lia|].
      now apply (Hh k).
    + intros d' k Hin. apply in_app_or in Hin.
      destruct Hin as [Hin|[Hin|[]]]; [now apply (Ht d' k)|].
      injection Hin as _ _ Hp. lia.
Qed.

Lemma step_orphaned L e :
  orphaned p d L -> write_succeeds e -> (clock (step L e) < d)%N ->
  orphaned p d (step L e).
Proof.
  intros Ho Hw Hc. destruct e as [request|data|k err|ms|]; cbn [step] in *.
  - now apply sendRequest_orphaned.
  - now apply dispatch_all_orphaned.
  - destruct (nth_error (writes L) k) as [[requestId q]|]; auto.
    destruct err; [easy|]. exact Ho.
  - unfold elapse in *.
    rewrite (proj1 (proj2 (proj2 (run_timers_fields _ _)))) in Hc.
    simpl in Hc. destruct Ho as (Hs & Hlt & Hh & Ht).
    apply run_timers_orphaned.
    + intros [d' [k q]] Hin Hq. simpl in Hq. subst q.
      apply filter_In in Hin. destruct Hin as [Hin Hdue].
      apply Ht in Hin. subst d'. unfold is_due in Hdue. simpl in Hdue.
      apply N.leb_le in Hdue. lia.
    + repeat split; simpl; auto.
      intros d' k Hin. apply filter_In in Hin. now apply (Ht d' k).
  - destruct (close_process (child L)); exact Ho.
Qed.

End OrphanFacts.

Lemma step_clock L e : (clock L <= clock (step L e))%N.
Proof.
  destruct e as [request|data|k err|ms|]; cbn [step].
  - unfold sendRequest. destruct (killed (child L)).
    + cbn [fst].
      rewrite (proj1 (proj2 (proj2 (settle_fields _ _ _)))). simpl. lia.
    + destruct (next_request_id _ _). simpl. lia.
  - unfold _handleProcessOutput.
    rewrite (proj2 (proj2 (dispatch_all_fields _ _))). lia.
  - destruct (nth_error (writes L) k) as [[requestId q]|]; [|lia].
    destruct err as [message|]; simpl; [|lia].
    rewrite (proj1 (proj2 (proj2 (settle_fields _ _ _)))). simpl. lia.
  - unfold elapse.
    rewrite (proj1 (proj2 (proj2 (run_timers_fields _ _)))). simpl. lia.
  - destruct (close_process (child L)); simpl; lia.
Qed.

Lemma run_clock events : forall L, (clock L <= clock (run L events))%N.
Proof.
  induction events as [|e rest IH]; intros L; simpl; [lia|].
  etransitivity; [apply (step_clock L e)|apply IH].
Qed.

Lemma run_orphaned p d events : forall L,
  orphaned p d L -> Forall write_succeeds events ->
  (clock (run L events) < d)%N ->
  orphaned p d (run L events).
Proof.
  induction events as [|e rest IH]; intros L Ho Hw Hc; simpl; auto.
  inversion Hw as [|? ? He Hrest]; subst. simpl in Hc.
  apply IH; auto. apply step_orphaned; auto.
  assert (H := run_clock rest (step L e)). lia.
Qed.

(** In an invariant state the entry that a [set] has replaced is gone. *)
Lemma set_replaces (k : rpc_id) (v v' : promise) (m : Map.t rpc_id promise) :
  NoDup (Map.keys m) -> In (k, v) (Map.set k v' m) -> v = v'.
Proof.
  intros Hnd Hin.
  assert (H1 : NoDup (Map.keys (Map.set k v' m)))
    by (now apply MapFacts.NoDup_keys_set).
  apply MapFacts.in_get in Hin; [|exact H1].
  rewrite MapFacts.get_set_same in Hin. congruence.
Qed.

(* ================================================================== *)
(** * The registry: the two maps agree *)

Section RegistryInvariant.

Import MapFacts.

Lemma registry_ok_stored key h w :
  registry_ok w ->
  Map.get key (activeProcesses w) = Some h ->
  registry_ok (stored key h w).
Proof.
  intros [Hc Hp] Hk. split; simpl.
  - intros key' conn.
    destruct (jsstring_eqb_spec key key') as [<-|Hne].
    + rewrite get_set_same. intros [= <-]. simpl. auto.
    + rewrite get_set_other by exact Hne. apply Hc.
  - exact Hp.
Qed.

Lemma registry_ok_grown w w1 :
  registry_ok w ->
  activeClients w1 = activeClients w ->
  activeProcesses w1 = activeProcesses w ->
  length (procs w) <= length (procs w1) ->
  registry_ok w1.
Proof.
  intros [Hc Hp] Ec Ep Hl. split; rewrite ?Ec, Ep; auto.
  intros key h Hg. specialize (Hp key h Hg). lia.
Qed.

Lemma registry_ok_getOrCreateClient cmd args id b w :
  registry_ok w -> registry_ok (fst (getOrCreateClient cmd args id b w)).
Proof.
  intros Hok.
  destruct (Map.get (clientKey_of cmd id) (activeClients w)) as [cached|] eqn:Hc.
  { now rewrite (getOrCreateClient_cached cmd args id b w Hc). }
  destruct (Map.get (clientKey_of cmd id) (activeProcesses w)) as [h|] eqn:Hp.
  { rewrite (getOrCreateClient_reuses_process cmd args id b w Hc Hp).
    now apply registry_ok_stored. }
  rewrite (getOrCreateClient_spawns cmd args id b w Hc Hp).
  destruct (spawnMCPProcess cmd args b w) as [w1 r] eqn:Hs.
  destruct (spawnMCPProcess_effect _ _ _ _ Hs)
    as (Ec & Ep & _ & _ & [[[m ->] Hpr]|[-> Hpr]]).
  - cbn [fst]. apply (@registry_ok_grown w w1 Hok Ec Ep).
    destruct Hpr as [->| ->]; [lia|]. rewrite length_app. lia.
  - cbn [fst]. apply registry_ok_stored; [|simpl; apply get_set_same].
    destruct Hok as [Hco Hpo]. split; simpl.
    + rewrite Ec. intros key conn Hg.
      destruct (jsstring_eqb_spec (clientKey_of cmd id) key) as [<-|Hne];
        [congruence|].
      rewrite get_set_other by exact Hne. rewrite Ep. now apply Hco.
    + intros key h. rewrite Hpr, length_app. simpl.
      destruct (jsstring_eqb_spec (clientKey_of cmd id) key) as [<-|Hne].
      * rewrite get_set_same. intros [= <-]. lia.
      * rewrite get_set_other by exact Hne. rewrite Ep. intros Hg.
        specialize (Hpo key h Hg). lia.
Qed.

Lemma settles_length w w' : settles w w' -> length (procs w) <= length (procs w').
Proof.
  intros [_ Hn]. destruct (procs w) as [|c l] eqn:Hp using rev_ind; [simpl; lia|].
  clear IHl. destruct (Hn (length l) c) as (c' & Hc' & _).
  { rewrite nth_error_app2, Nat.sub_diag by lia. reflexivity. }
  assert (Hlt : length l < length (procs w'))
    by (apply nth_error_Some; congruence).
  rewrite length_app. simpl. lia.
Qed.

(** What [cleanupClients] leaves. *)
Lemma cleanupClients_result w :
  exists w',
    cleanupClients w = (w', Ok tt)
    /\ activeClients w' = [] /\ activeProcesses w' = []
    /\ objects w' = objects w
    /\ settles w w'.
Proof.
  unfold cleanupClients, bind.
  destruct (close_transports_spec (activeClients w) w) as (w1 & -> & Hev1 & _).
  unfold clear_activeClients. cbn [activeProcesses].
  set (w1c := mkWorld (procs w1) [] (activeProcesses w1) (objects w1)
                      (console_error w1)).
  destruct (kill_processes_spec (activeProcesses w1) w1c) as (w2 & -> & Hev2 & _).
  unfold clear_activeProcesses.
  eexists. split; [reflexivity|].
  destruct Hev1 as (_ & _ & Ho1 & Hs1). destruct Hev2 as (Hc2 & _ & Ho2 & Hs2).
  cbn [activeClients activeProcesses objects]. repeat split; auto.
  - rewrite Ho2. exact Ho1.
  - destruct Hs1 as [He1 Hn1]. destruct Hs2 as [He2 Hn2]. simpl in *.
    destruct He1 as [e1 He1]. destruct He2 as [e2 He2].
    exists (e1 ++ e2). now rewrite He2, He1, app_assoc.
  - simpl. intros n c Hn.
    destruct Hs1 as [_ Hn1]. destruct Hs2 as [_ Hn2].
    destruct (Hn1 _ _ Hn) as (c1 & Hc1 & Hk1).
    destruct (Hn2 _ _ Hc1) as (c2 & Hc2' & Hk2).
    exists c2. split; [exact Hc2'|]. eapply after_kills_trans; eauto.
Qed.

Lemma handleFetchMCPCapabilities_world command args serverId b t p w :
  fst (handleFetchMCPCapabilities command args serverId b t p w)
  = match command with
    | [] => w
    | _ :: _ => fst (getOrCreateClient command args serverId b w)
    end.
Proof.
  unfold handleFetchMCPCapabilities, try_catch, bind.
  destruct command as [|c r]; [reflexivity|].
  destruct (getOrCreateClient (c :: r) args serverId b w) as [w1 [conn|m]];
    reflexivity.
Qed.

End RegistryInvariant.

(* ================================================================== *)
(** * The text helpers *)

Lemma replace_literals_skip alternatives x : forall rest,
  replace_literals alternatives (x ++ rest) (length x)
  = replace_literals alternatives rest 0.
Proof.
  induction x as [|c x IH]; intros rest; simpl.
  - destruct rest; reflexivity.
  - apply IH.
Qed.

(** No alternative starts with the character [c]. *)
Lemma first_match_other alternatives c r :
  forallb (fun pr => match fst pr with
                     | x :: _ => negb (x =? c)%N
                     | [] => false
                     end) alternatives = true ->
  first_match alternatives (c :: r) = None.
Proof.
  induction alternatives as [|[pattern replacement] rest IH]; simpl; auto.
  rewrite andb_true_iff. intros [Hp Hrest].
  destruct pattern as [|x pattern]; [discriminate|]. simpl.
  apply negb_true_iff in Hp. rewrite Hp. simpl. auto.
Qed.

Lemma replace_literals_untouched alternatives s :
  (forall c, In c s ->
     forallb (fun pr => match fst pr with
                        | x :: _ => negb (x =? c)%N
                        | [] => false
                        end) alternatives = true) ->
  replace_literals alternatives s 0 = s.
Proof.
  induction s as [|c s IH]; intros Hs; [reflexivity|].
  cbn [replace_literals]. rewrite first_match_other by (apply Hs; now left).
  f_equal. apply IH. intros x Hx. apply Hs. now right.
Qed.

Lemma escape_html_no_bracket s c : In c (escape_html s) -> c <> 60%N.
Proof.
  unfold escape_html. rewrite in_flat_map. intros (x & _ & Hc).
  unfold escape_char in Hc.
  destruct (x =? 38)%N; [cbv in Hc; intuition (subst; discriminate)|].
  destruct (N.eqb_spec x 60) as [E|E]; [cbv in Hc; intuition (subst; discriminate)|].
  destruct (x =? 62)%N; [cbv in Hc; intuition (subst; discriminate)|].
  destruct (x =? 34)%N; [cbv in Hc; intuition (subst; discriminate)|].
  destruct (x =? 39)%N; [cbv in Hc; intuition (subst; discriminate)|].
  destruct Hc as [<-|[]]. exact E.
Qed.

Lemma decode_escaped s : replace_literals entities (escape_html s) 0 = s.
Proof.
  induction s as [|c s IH]; [reflexivity|].
  change (escape_html (c :: s)) with (escape_char c ++ escape_html s).
  unfold escape_char.
  destruct (N.eqb_spec c 38) as [->|H38].
  { change (replace_literals entities (js "&amp;" ++ escape_html s) 0)
      with (js "&" ++ replace_literals entities (js "amp;" ++ escape_html s) 4).
    now rewrite (replace_literals_skip entities (js "amp;")), IH. }
  destruct (N.eqb_spec c 60) as [->|H60].
  { change (replace_literals entities (js "&lt;" ++ escape_html s) 0)
      with (js "<" ++ replace_literals entities (js "lt;" ++ escape_html s) 3).
    now rewrite (replace_literals_skip entities (js "lt;")), IH. }
  destruct (N.eqb_spec c 62) as [->|H62].
  { change (replace_literals entities (js "&gt;" ++ escape_html s) 0)
      with (js ">" ++ replace_literals entities (js "gt;" ++ escape_html s) 3).
    now rewrite (replace_literals_skip entities (js "gt;")), IH. }
  destruct (N.eqb_spec c 34) as [->|H34].
  { change (replace_literals entities (js "&quot;" ++ escape_html s) 0)
      with ([34%N] ++ replace_literals entities (js "quot;" ++ escape_html s) 5).
    now rewrite (replace_literals_skip entities (js "quot;")), IH. }
  destruct (N.eqb_spec c 39) as [->|H39].
  { change (replace_literals entities (js "&#39;" ++ escape_html s) 0)
      with ([39%N] ++ replace_literals entities (js "#39;" ++ escape_html s) 4).
    now rewrite (replace_literals_skip entities (js "#39;")), IH. }
  cbn [app replace_literals].
  rewrite first_match_other; [now rewrite IH|].
  assert (E : negb (38 =? c)%N = true)
    by (apply negb_true_iff, N.eqb_neq; congruence).
  apply forallb_forall. intros [pattern replacement] Hin.
  unfold entities in Hin. cbn [In] in Hin.
  repeat (destruct Hin as [Hin|Hin]; [injection Hin as <- <-; exact E|]).
  destruct Hin.
Qed.

(** ** White space after [squeeze_spaces] and [trim] *)

Lemma single_spaced_cons c s :
  single_spaced (c :: s)
  = match s with
    | [] => true
    | c2 :: _ => negb (is_js_space c && is_js_space c2) && single_spaced s
    end.
Proof. reflexivity. Qed.

Lemma squeeze_spaces_single s : forall in_run,
  single_spaced (squeeze_spaces s in_run) = true
  /\ match squeeze_spaces s true with
     | [] => True
     | x :: _ => is_js_space x = false
     end.
Proof.
  induction s as [|c s IH]; intros in_run; [split; reflexivity|].
  cbn [squeeze_spaces].
  destruct (is_js_space c) eqn:Hc.
  - split; [|apply (IH true)].
    destruct in_run; [apply (IH true)|].
    destruct s as [|c2 s']; [reflexivity|].
    destruct (is_js_space c2) eqn:Hc2.
    + rewrite single_spaced_cons.
      destruct (IH true) as [Hs Hh].
      destruct (squeeze_spaces (c2 :: s') true) as [|x xs]; [reflexivity|].
      rewrite Hh, andb_false_r. exact Hs.
    + rewrite single_spaced_cons.
      destruct (IH false) as [Hs _]. cbn [squeeze_spaces] in *.
      rewrite Hc2 in *. rewrite Hc2, andb_false_r. exact Hs.
  - split; [|exact Hc]. rewrite single_spaced_cons.
    destruct (IH false) as [Hs _].
    destruct (squeeze_spaces s false); [reflexivity|].
    rewrite Hc. exact Hs.
Qed.

Lemma single_spaced_app a : forall b,
  single_spaced (a ++ b) = true -> single_spaced a = true /\ single_spaced b = true.
Proof.
  induction a as [|c a IH]; intros b; [auto|].
  change ((c :: a) ++ b) with (c :: (a ++ b)).
  rewrite !single_spaced_cons.
  destruct a as [|c2 a'].
  - simpl. destruct b; [auto|]. rewrite andb_true_iff. intros [_ H]; auto.
  - change ((c2 :: a') ++ b) with (c2 :: (a' ++ b)).
    rewrite !andb_true_iff. intros [H1 H2].
    destruct (IH b H2) as [Ha Hb]. auto.
Qed.

Lemma single_spaced_trim s : single_spaced s = true -> single_spaced (trim s) = true.
Proof.
  destruct (trim_decompose s) as (l & r & Hs & _). intros H.
  rewrite Hs in H. apply single_spaced_app in H. destruct H as [_ H].
  now apply single_spaced_app in H.
Qed.

(* ================================================================== *)
(** * The handlers of [main.mjs] *)

(** The handler leaves the module state as [getOrCreateClient] left it. *)
Lemma handleMCPExecute_world config userArgs now b reply w :
  fst (handleMCPExecute (Some config) userArgs now b reply w)
  = match cfg_command config with
    | Some (c :: r) =>
        fst (getOrCreateClient (c :: r) (args_array (cfg_args config))
                               (cfg_id config) b w)
    | _ => w
    end.
Proof.
  unfold handleMCPExecute, try_catch, bind, throw, ret.
  destruct (cfg_command config) as [[|c r]|]; try reflexivity.
  destruct (getOrCreateClient (c :: r) (args_array (cfg_args config))
              (cfg_id config) b w) as [w1 [conn|m]]; [|reflexivity].
  destruct userArgs as [userArgs|]; [|reflexivity].
  destruct (Client_request_outcome _ _); reflexivity.
Qed.

(** What the handler returns, by the outcome of the connection. *)
Lemma handleMCPExecute_connected config cmd userArgs now b reply w w1 conn :
  cfg_command config = Some cmd -> cmd <> [] ->
  getOrCreateClient cmd (args_array (cfg_args config)) (cfg_id config) b w
  = (w1, Ok conn) ->
  handleMCPExecute (Some config) (Some userArgs) now b reply w
  = (w1,
     Ok (match Client_request_outcome (client conn)
                 (reply (mkRequest None (js "tools/call")
                           (Some (callTool_params
                                    (option_map JStr (hd_error userArgs))
                                    (Some (format_arguments (hd_error userArgs)
                                                            (tl userArgs)))
                                    now)))) with
         | Ok result =>
             mkExecution (Some [format_result result]) None (cfg_id config)
         | Throw message =>
             mkExecution None (Some (js "Tool execution error: " ++ message))
                         (cfg_id config)
         end)).
Proof.
  intros Hc Hne Hg. unfold handleMCPExecute, try_catch, bind, throw, ret.
  rewrite Hc. destruct cmd as [|c r]; [congruence|]. rewrite Hg.
  destruct (Client_request_outcome _ _); reflexivity.
Qed.

Lemma handleMCPExecute_unconnected config cmd userArgs now b reply w w1 m :
  cfg_command config = Some cmd -> cmd <> [] ->
  getOrCreateClient cmd (args_array (cfg_args config)) (cfg_id config) b w
  = (w1, Throw m) ->
  handleMCPExecute (Some config) userArgs now b reply w
  = (w1, Ok (mkExecution None
               (Some (js "Failed to connect to MCP server: " ++ m))
               (cfg_id config))).
Proof.
  intros Hc Hne Hg. unfold handleMCPExecute, try_catch, bind, throw, ret.
  rewrite Hc. destruct cmd as [|c r]; [congruence|]. now rewrite Hg.
Qed.

Lemma capabilities_connected command args serverId b t p w w1 caps :
  handleFetchMCPCapabilities command args serverId b t p w = (w1, Ok caps) ->
  error caps = None ->
  command <> []
  /\ exists conn, getOrCreateClient command args serverId b w = (w1, Ok conn).
Proof.
  unfold handleFetchMCPCapabilities, try_catch, bind, throw, ret.
  destruct command as [|c r]; [intros [= <- <-]; discriminate|].
  destruct (getOrCreateClient (c :: r) args serverId b w) as [w' [conn|m]].
  - intros [= <- <-] _. split; [easy|eauto].
  - intros [= <- <-]; discriminate.
Qed.

(* ================================================================== *)
(** * The transport: every request is settled in time *)

Section LivenessFacts.

Import MapFacts.

Variables (i : rpc_id) (p : promise) (d : N).

Lemma answered_grows L L' : grows L L' -> answered p L -> answered p L'.
Proof.
  intros [extra He] [s Hs]. exists s. rewrite He.
  now apply settlement_of_app_some.
Qed.

Lemma timed_out_answered L : timed_out i p L -> answered p L.
Proof. intros (_ & Hs & _). eexists; eauto. Qed.

Lemma retire_armed key q s L :
  key <> i -> armed i p d L -> armed i p d (retire key q s L).
Proof.
  intros Hne (Hg & Hin & Hut & Huw).
  destruct (retire_fields key q s L) as (_ & _ & Et & Ew & _).
  unfold armed. rewrite Et, Ew, (@retire_get_other i key q s L Hne). auto.
Qed.

Lemma dispatch_all_armed responses : forall L,
  wf L -> armed i p d L ->
  armed i p d (dispatch_all responses L) \/ answered p (dispatch_all responses L).
Proof.
  induction responses as [|r rest IH]; intros L Hwf Ha; [now left|].
  cbn [dispatch_all].
  destruct (dispatch_cases r L) as [[_ ->]|[_ ->]]; [now left|].
  destruct (response_key r) as [key|] eqn:Hk; [|now apply IH].
  destruct (Map.get key (handlers L)) as [q|] eqn:Hg; [|now apply IH].
  destruct (rpc_id_eqb_spec key i) as [->|Hne].
  - right.
    assert (q = p) by (destruct Ha as (Hp & _); congruence). subst q.
    apply (@answered_grows (retire i p (settlement_for r) L));
      [apply dispatch_all_grows|].
    exists (settlement_for r).
    rewrite (proj2 (dispatch_matched r Hwf Hk Hg)).
    apply get_in in Hg. destruct (wf_pending Hwf _ _ Hg) as [Hn _].
    rewrite settlement_of_app, Hn. simpl. now rewrite Nat.eqb_refl.
  - apply IH.
    + apply retire_wf; auto. now apply get_tied.
    + now apply retire_armed.
Qed.

Lemma write_failure_answers L k q message :
  wf L -> armed i p d L -> nth_error (writes L) k = Some (i, q) ->
  answered p (step L (WriteDone k (Some message))).
Proof.
  intros Hwf (Hg & _ & _ & Huw) Hn. cbn [step]. rewrite Hn.
  assert (Hq : (i, q) = (i, p))
    by (apply Huw; [eapply nth_error_In; eauto|reflexivity]).
  injection Hq as ->.
  cbn [write_callback]. eexists. apply settle_unsettled. simpl.
  apply get_in in Hg. now destruct (wf_pending Hwf _ _ Hg).
Qed.

Lemma step_armed_or_answered L e :
  wf L -> armed i p d L -> send_elsewhere i L e ->
  armed i p d (step L e) \/ answered p (step L e).
Proof.
  intros Hwf Ha He.
  assert (Hquiet : leaves_alone i L e = true ->
                   armed i p d (step L e) \/ answered p (step L e)).
  { intros Hq. destruct (@step_armed i p d L e Hwf Ha Hq) as [H|H]; auto.
    right. now apply timed_out_answered. }
  destruct e as [request|data|k err|ms|]; try (apply Hquiet; reflexivity).
  - apply Hquiet. cbn [leaves_alone]. destruct He as [->|Hne]; [reflexivity|].
    apply orb_true_iff. right. now apply rpc_id_neq.
  - cbn [step]. now apply dispatch_all_armed.
  - destruct (leaves_alone i L (WriteDone k err)) eqn:Hq; [now apply Hquiet|].
    cbn [leaves_alone] in Hq.
    destruct (nth_error (writes L) k) as [[j q]|] eqn:Hn; [|discriminate].
    destruct err as [message|]; [|discriminate].
    destruct (rpc_id_eqb_spec j i) as [->|]; [|discriminate].
    right. eapply write_failure_answers; eauto.
Qed.

End LivenessFacts.

Lemma step_counter k L e :
  counter_event e ->
  (k <= lastRequestId (transport L))%Z ->
  (k <= lastRequestId (transport (step L e)))%Z
  /\ send_elsewhere (IdNum k) L e.
Proof.
  intros He Hk.
  assert (Hother : (forall request, e <> Send request) ->
                   (k <= lastRequestId (transport (step L e)))%Z).
  { intros Hns. now rewrite (proj1 (step_sets_nothing L Hns)). }
  destruct e as [request|data|j err|ms|];
    try (split; [apply Hother; discriminate|exact I]).
  cbn [counter_event] in He. cbn [step send_elsewhere].
  unfold sendRequest, next_request_id. rewrite He.
  destruct (killed (child L)); cbn [fst].
  - split; [|now left].
    now rewrite (proj1 (settle_fields _ _ _)).
  - simpl. split; [lia|]. right. intros [= E]. lia.
Qed.

Lemma run_armed_or_answered p d k events : forall L,
  wf L -> (k <= lastRequestId (transport L))%Z ->
  Forall counter_event events ->
  armed (IdNum k) p d L \/ answered p L ->
  armed (IdNum k) p d (run L events) \/ answered p (run L events).
Proof.
  induction events as [|e rest IH]; intros L Hwf Hk Hall Hst; [exact Hst|].
  inversion Hall as [|? ? He Hrest]; subst.
  change (run L (e :: rest)) with (run (step L e) rest).
  destruct (@step_counter k L e He Hk) as [Hk' Hse].
  apply IH; auto using step_wf.
  destruct Hst as [Ha|Hs].
  - now apply step_armed_or_answered.
  - right. eapply answered_grows; [apply step_grows|exact Hs].
Qed.

(* ================================================================== *)
(** * Path resolution *)

Lemma first_file_is_file env paths p :
  first_file env paths = Some p -> In p paths /\ fs env p = Present IsFile.
Proof.
  induction paths as [|q rest IH]; simpl; [discriminate|].
  destruct (fs env q) as [|[| |]|m] eqn:Hq; try (intros H; apply IH in H; tauto).
  intros [= <-]. auto.
Qed.

(** What [resolveMCPPath] returns is its argument or a file that exists. *)
Lemma resolveMCPPath_result env scriptPath p :
  resolveMCPPath env scriptPath = Ok p ->
  p = scriptPath \/ fs env p = Present IsFile.
Proof.
  unfold resolveMCPPath. destruct scriptPath as [|c r]; [intros [= <-]; auto|].
  destruct (negb (looks_like_path (c :: r))); [intros [= <-]; auto|].
  destruct (path_isAbsolute env (c :: r)); [intros [= <-]; auto|].
  destruct (isDev env).
  - destruct (homedir env) as [home|m]; [|discriminate].
    destruct (first_file env _) as [q|] eqn:Hf; intros [= <-]; auto.
    right. now apply first_file_is_file in Hf.
  - destruct (homedir env) as [home|m]; [|discriminate].
    destruct (first_file env _) as [q|] eqn:Hf; intros [= <-]; auto.
    right. now apply first_file_is_file in Hf.
Qed.

Lemma resolve_arg_result env i arg :
  resolve_arg env i arg = arg \/ fs env (resolve_arg env i arg) = Present IsFile.
Proof.
  unfold resolve_arg. destruct arg as [|c r]; [auto|].
  destruct (Nat.eqb i 0 || looks_like_path (c :: r)); [|auto].
  destruct (resolveMCPPath env (c :: r)) as [p|m] eqn:Hr.
  - apply resolveMCPPath_result in Hr.
    destruct (isLikelyScript (c :: r)); [destruct (directory_check env p)|];
      destruct Hr as [->|Hr]; auto.
  - destruct (isLikelyScript (c :: r)); auto.
Qed.

Lemma resolve_arg_plain env i arg :
  i <> 0 -> looks_like_path arg = false -> resolve_arg env i arg = arg.
Proof.
  intros Hi Hp. unfold resolve_arg. destruct arg as [|c r]; [reflexivity|].
  rewrite Hp. destruct i; [congruence|reflexivity].
Qed.

(** Where [require] is not defined nothing is resolved. *)
Lemma resolve_arg_without_require env i arg message :
  homedir env = Throw message -> resolve_arg env i arg = arg.
Proof.
  intros Hh. unfold resolve_arg, resolveMCPPath. destruct arg as [|c r]; [reflexivity|].
  destruct (Nat.eqb i 0 || looks_like_path (c :: r)); [|reflexivity].
  rewrite Hh.
  destruct (negb (looks_like_path (c :: r)));
    [destruct (isLikelyScript (c :: r)); [destruct (directory_check env _)|];
     reflexivity|].
  destruct (path_isAbsolute env (c :: r));
    [destruct (isLikelyScript (c :: r)); [destruct (directory_check env _)|];
     reflexivity|].
  destruct (isDev env); destruct (isLikelyScript (c :: r)); reflexivity.
Qed.

Lemma nth_error_resolve_args env args : forall k i,
  nth_error (resolve_args env k args) i
  = option_map (resolve_arg env (k + i)) (nth_error args i).
Proof.
  induction args as [|a rest IH]; intros k [|i]; simpl; auto.
  - now rewrite Nat.add_0_r.
  - rewrite IH. now rewrite Nat.add_succ_r.
Qed.

(* ================================================================== *)
(** * The server processes of the main process *)

Lemma length_update_nth {A} (l : list A) : forall h a,
  length (update_nth h a l) = length l.
Proof.
  induction l as [|x l IH]; intros [|h] a; simpl; auto.
Qed.

Lemma nth_error_update_nth_other {A} (l : list A) : forall h a n,
  n <> h -> nth_error (update_nth h a l) n = nth_error l n.
Proof.
  induction l as [|x l IH]; intros [|h] a [|n] Hn; simpl; auto; try easy.
Qed.

(** What the guarded [kill] of one process does to the module state. *)
Lemma kill_handle_cases h w :
  (kill_handle h w = (w, Ok tt)
   /\ (nth_error (procs w) h = None
       \/ exists c, nth_error (procs w) h = Some c
                    /\ (killed c = true \/ (kill_error c = None /\ exited c = true))))
  \/ (exists c, nth_error (procs w) h = Some c /\ killed c = false
                /\ kill_error c = None /\ exited c = false
                /\ kill_handle h w
                   = (mkWorld (update_nth h (mkChild true false None (stdin c)) (procs w))
                              (activeClients w) (activeProcesses w) (objects w)
                              (console_error w), Ok tt))
  \/ (exists c message, nth_error (procs w) h = Some c /\ killed c = false
                        /\ kill_error c = Some message
                        /\ kill_handle h w = (w, Throw message)).
Proof.
  unfold kill_handle, kill, set_proc.
  destruct (nth_error (procs w) h) as [c|] eqn:Hn; [|left; auto].
  destruct (killed c) eqn:Hk; [left; split; eauto|].
  destruct (kill_error c) as [message|] eqn:He.
  - right; right. exists c, message. auto.
  - destruct (exited c) eqn:Hx.
    + left. split; [|eauto 6].
      rewrite (update_nth_same _ _ Hn). now destruct w.
    + right; left. exists c. repeat split; auto.
Qed.

(** A process that is passed over or killed in the loop: the maps of the
    bridge are untouched, and so is every other process. *)
Lemma kill_handle_frame h w w' r :
  kill_handle h w = (w', r) ->
  activeClients w' = activeClients w /\ activeProcesses w' = activeProcesses w
  /\ objects w' = objects w /\ console_error w' = console_error w
  /\ length (procs w') = length (procs w)
  /\ forall n, n <> h -> nth_error (procs w') n = nth_error (procs w) n.
Proof.
  destruct (kill_handle_cases h w)
    as [[-> _]|[(c & _ & _ & _ & _ & ->)|(c & m & _ & _ & _ & ->)]];
    intros [= <- <-]; simpl; repeat split; auto.
  - apply length_update_nth.
  - intros n Hn. now apply nth_error_update_nth_other.
Qed.

Lemma kill_servers_frame entries : forall w w' r,
  kill_servers entries w = (w', r) ->
  activeClients w' = activeClients w /\ activeProcesses w' = activeProcesses w
  /\ objects w' = objects w /\ console_error w' = console_error w
  /\ length (procs w') = length (procs w)
  /\ forall n, ~ In n (map snd entries) ->
       nth_error (procs w') n = nth_error (procs w) n.
Proof.
  induction entries as [|[key h] rest IH]; intros w w' r.
  - intros [= <- <-]. repeat split; auto.
  - cbn [kill_servers]. unfold bind.
    destruct (kill_handle h w) as [w1 [[]|m]] eqn:Hk.
    + destruct (kill_handle_frame _ _ Hk) as (Ec & Ep & Eo & Ee & El & Hn).
      intros Hrest. destruct (IH _ _ _ Hrest) as (Ec' & Ep' & Eo' & Ee' & El' & Hn').
      repeat split; try congruence.
      intros n Hnin. simpl in Hnin. rewrite Hn', Hn; auto.
    + destruct (kill_handle_frame _ _ Hk) as (Ec & Ep & Eo & Ee & El & Hn).
      intros [= <- <-]. repeat split; auto.
      intros n Hnin. simpl in Hnin. apply Hn. auto.
Qed.

Lemma kill_handle_settles h w w1 r : kill_handle h w = (w1, r) -> settles w w1.
Proof.
  destruct (kill_handle_cases h w)
    as [[-> _]|[(c & Hc & Hk & He & Hx & ->)|(c & m & _ & _ & _ & ->)]];
    intros [= <- <-]; try apply settles_refl.
  split; simpl.
  - exists []. now rewrite app_nil_r.
  - intros n x Hn. destruct (Nat.eq_dec n h) as [->|Hne].
    + rewrite (nth_error_update_nth _ _ _ h Hc), Nat.eqb_refl.
      eexists. split; [reflexivity|]. right.
      assert (x = c) by congruence. subst x. auto.
    + rewrite nth_error_update_nth_other by exact Hne.
      exists x. split; [exact Hn|apply after_kills_refl].
Qed.

Lemma kill_handle_ok h w w1 c :
  kill_handle h w = (w1, Ok tt) -> nth_error (procs w) h = Some c ->
  exists c', nth_error (procs w1) h = Some c' /\ terminated c' = true.
Proof.
  intros Hk Hn.
  destruct (kill_handle_cases h w)
    as [[E [Hnone|(c0 & Hc0 & Hdone)]]|[(c0 & Hc0 & _ & _ & _ & E)
                                       |(c0 & m & _ & _ & _ & E)]];
    rewrite Hk in E; try discriminate; try congruence.
  - injection E as ->. exists c0. split; [exact Hc0|].
    unfold terminated. destruct Hdone as [->|[_ ->]]; [reflexivity|].
    apply orb_true_r.
  - injection E as ->. simpl.
    rewrite (nth_error_update_nth _ _ _ h Hc0), Nat.eqb_refl. eauto.
Qed.

Lemma kill_servers_settles entries : forall w w' r,
  kill_servers entries w = (w', r) -> settles w w'.
Proof.
  induction entries as [|[key h] rest IH]; intros w w' r.
  - intros [= <- <-]. apply settles_refl.
  - cbn [kill_servers]. unfold bind.
    destruct (kill_handle h w) as [w1 [[]|m]] eqn:Hk.
    + intros Hrest. eapply settles_trans; [eapply kill_handle_settles|]; eauto.
    + intros [= <- <-]. eapply kill_handle_settles; eauto.
Qed.

(** The loop to its end: every process of the map has been killed or has
    stopped by itself. *)
Lemma kill_servers_done entries : forall w w',
  kill_servers entries w = (w', Ok tt) ->
  forall key h c, In (key, h) entries -> nth_error (procs w) h = Some c ->
    exists c', nth_error (procs w') h = Some c' /\ terminated c' = true.
Proof.
  induction entries as [|[key0 h0] rest IH]; intros w w' Hrun key h c Hin Hn;
    [destruct Hin|].
  cbn [kill_servers] in Hrun. unfold bind in Hrun.
  destruct (kill_handle h0 w) as [w1 [[]|m]] eqn:Hk; [|discriminate].
  destruct Hin as [[= <- <-]|Hin].
  - destruct (kill_handle_ok _ _ Hk Hn) as (c1 & Hc1 & Ht).
    destruct (proj2 (kill_servers_settles _ _ Hrun) _ _ Hc1) as (c2 & Hc2 & Hak).
    exists c2. split; [exact Hc2|]. eapply after_kills_terminated; eauto.
  - destruct (proj2 (kill_handle_settles _ _ Hk) _ _ Hn) as (c1 & Hc1 & _).
    eapply IH; eauto.
Qed.

(** The loop up to a [kill] that throws: it ends there, and has touched
    the processes before that one only. *)
Lemma kill_servers_stops before : forall w key h after c message,
  (forall k' h', In (k', h') before ->
     exists c', nth_error (procs w) h' = Some c' /\ kill_error c' = None) ->
  nth_error (procs w) h = Some c -> killed c = false ->
  kill_error c = Some message ->
  snd (kill_servers (before ++ (key, h) :: after) w) = Throw message
  /\ forall n, ~ In n (map snd before) ->
       nth_error (procs (fst (kill_servers (before ++ (key, h) :: after) w))) n
       = nth_error (procs w) n.
Proof.
  induction before as [|[k0 h0] before IH];
    intros w key h after c message Hb Hn Hk He.
  - cbn [app kill_servers]. unfold bind.
    destruct (kill_handle_cases h w)
      as [[_ [Hnone|(c0 & Hc0 & Hdone)]]|[(c0 & Hc0 & _ & He0 & _)
                                         |(c0 & m & Hc0 & _ & Hm & ->)]].
    + congruence.
    + assert (c0 = c) by congruence. subst c0.
      destruct Hdone as [Hd|[Hd _]]; congruence.
    + assert (c0 = c) by congruence. subst c0. congruence.
    + assert (c0 = c) by congruence. subst c0.
      replace m with message by congruence. split; reflexivity.
  - cbn [app kill_servers]. unfold bind.
    destruct (Hb k0 h0 (or_introl eq_refl)) as (c0 & Hc0 & He0).
    assert (Hne : h <> h0) by (intros ->; congruence).
    destruct (kill_handle h0 w) as [w1 [[]|m]] eqn:Hrun.
    + destruct (kill_handle_frame _ _ Hrun) as (_ & _ & _ & _ & _ & Hframe).
      destruct (IH w1 key h after c message) as [Hthrow Hrest]; auto.
      * intros k' h' Hin. destruct (Hb k' h' (or_intror Hin)) as (c' & Hc' & He').
        destruct (proj2 (kill_handle_settles _ _ Hrun) _ _ Hc') as (c'' & Hc'' & Hak).
        exists c''. split; [exact Hc''|].
        destruct Hak as [->|(_ & _ & ->)]; auto.
      * now rewrite Hframe.
      * split; [exact Hthrow|]. intros n Hnin. simpl in Hnin.
        rewrite Hrest by tauto. apply Hframe. intros ->. tauto.
    + exfalso.
      destruct (kill_handle_cases h0 w)
        as [[E _]|[(x & _ & _ & _ & _ & E)|(x & m' & Hx & _ & Hm & E)]];
        rewrite Hrun in E; try discriminate.
      congruence.
Qed.

(** The loop comes to its end when no [kill] throws. *)
Lemma kill_servers_ok entries : forall w,
  (forall k h, In (k, h) entries ->
     exists c, nth_error (procs w) h = Some c /\ kill_error c = None) ->
  snd (kill_servers entries w) = Ok tt.
Proof.
  induction entries as [|[k0 h0] rest IH]; intros w Hb; [reflexivity|].
  cbn [kill_servers]. unfold bind.
  destruct (Hb k0 h0 (or_introl eq_refl)) as (c0 & Hc0 & He0).
  destruct (kill_handle h0 w) as [w1 [[]|m]] eqn:Hrun.
  - apply IH. intros k h Hin.
    destruct (Hb k h (or_intror Hin)) as (c & Hc & He).
    destruct (proj2 (kill_handle_settles _ _ Hrun) _ _ Hc) as (c' & Hc' & Hak).
    exists c'. split; [exact Hc'|].
    destruct Hak as [->|(_ & _ & ->)]; auto.
  - exfalso.
    destruct (kill_handle_cases h0 w)
      as [[E _]|[(x & _ & _ & _ & _ & E)|(x & m' & Hx & _ & Hm & E)]];
      rewrite Hrun in E; try discriminate.
    congruence.
Qed.

(** Nothing in [getOrCreateClient] kills a process. *)
Lemma getOrCreateClient_kills_nothing cmd args id b w :
  Forall (fun c => killed c = false) (procs w) ->
  Forall (fun c => killed c = false)
         (procs (fst (getOrCreateClient cmd args id b w))).
Proof.
  intros Hall.
  destruct (Map.get (clientKey_of cmd id) (activeClients w)) as [cached|] eqn:Hc.
  { now rewrite (getOrCreateClient_cached cmd args id b w Hc). }
  destruct (Map.get (clientKey_of cmd id) (activeProcesses w)) as [h|] eqn:Hp.
  { now rewrite (getOrCreateClient_reuses_process cmd args id b w Hc Hp). }
  rewrite (getOrCreateClient_spawns cmd args id b w Hc Hp).
  destruct (spawnMCPProcess cmd args b w) as [w1 r] eqn:Hs.
  destruct (spawnMCPProcess_effect _ _ _ _ Hs)
    as (_ & _ & _ & _ & [[[m ->] [Hpr|Hpr]]|[-> Hpr]]); cbn [fst]; simpl;
    rewrite Hpr; auto; apply Forall_app; split; auto.
Qed.

(* ================================================================== *)
(** * Properties of the message framer *)

(** The two-chunk split of the stream of two objects inside the first
    object: the whole stream in one chunk is framed into both objects, the
    two chunks one after the other into none, since no call keeps a
    remainder for the next. *)
Lemma split_inside_object_frames_nothing :
  js "{'a':1" ++ js "}{'b':2}" = js "{'a':1}{'b':2}"
  /\ _parseJsonResponses (js "{'a':1}{'b':2}")
     = [JObj [(js "a", JNum 1 0)]; JObj [(js "b", JNum 2 0)]]
  /\ framed_by_chunks [js "{'a':1"; js "}{'b':2}"] = []
  /\ framed_by_chunks [js "{'a':1"; js "}{'b':2}"]
     <> _parseJsonResponses (js "{'a':1" ++ js "}{'b':2}").
Proof.
  split; [vm_compute; reflexivity|].
  split; [vm_compute; reflexivity|].
  split; [vm_compute; reflexivity|].
  intros Heq; vm_compute in Heq; discriminate Heq.
Qed.

(** A brace inside a string that upsets the count: the two chunks, split
    between the two objects, are framed into both, the whole text in one
    chunk into none. *)
Lemma brace_in_a_string_upsets_the_whole :
  framed_by_chunks [js "{'a':'}'}"; js "{'b':2}"]
  = [JObj [(js "a", JStr (js "}"))]; JObj [(js "b", JNum 2 0)]]
  /\ _parseJsonResponses (js "{'a':'}'}" ++ js "{'b':2}") = [].
Proof. vm_compute. split; reflexivity. Qed.

(** C1 (amended).  [_handleProcessOutput] frames every chunk on its own and
    carries nothing over.  Take a stream of JSON objects, one after the
    other with white space or nothing around them, each written so that its
    braces first balance at its closing brace, and any split of it into
    consecutive chunks whose boundaries fall between objects: every chunk is
    then such a stream itself.  Feeding the chunks in order yields the same
    ordered list of parsed objects as feeding the whole stream in one chunk,
    namely the objects of the stream. *)
Theorem framing_split_between_objects
    (chunks : list jsstring) (objs : list (list json)) :
  Forall2 object_chunk chunks objs ->
  framed_by_chunks chunks = _parseJsonResponses (concat chunks)
  /\ _parseJsonResponses (concat chunks) = concat objs.
Proof.
  intros Hchunks.
  assert (Hparts : framed_by_chunks chunks = concat objs).
  { unfold framed_by_chunks.
    induction Hchunks as [|chunk vs chunks objs Hc _ IH]; [reflexivity|].
    cbn [flat_map concat]. now rewrite IH, (object_chunk_framed Hc). }
  assert (Hwhole : _parseJsonResponses (concat chunks) = concat objs)
    by (apply object_chunk_framed, object_chunk_concat, Hchunks).
  split; congruence.
Qed.

Lemma framing_split_between_objects_witness :
  framed_by_chunks [js "{'a':1}" ++ [10%N]; [32%N] ++ js "{'b':2}" ++ [10%N]]
  = _parseJsonResponses
      (concat [js "{'a':1}" ++ [10%N]; [32%N] ++ js "{'b':2}" ++ [10%N]])
  /\ _parseJsonResponses
       (concat [js "{'a':1}" ++ [10%N]; [32%N] ++ js "{'b':2}" ++ [10%N]])
     = concat [[JObj [(js "a", JNum 1 0)]]; [JObj [(js "b", JNum 2 0)]]].
Proof.
  apply framing_split_between_objects.
  constructor; [|constructor; [|constructor]].
  - exists [], (js "{'a':1}" ++ [10%N] ++ []). repeat split.
    apply object_stream_cons; try (vm_compute; reflexivity).
    apply object_stream_nil.
  - exists [32%N], (js "{'b':2}" ++ [10%N] ++ []). repeat split.
    apply object_stream_cons; try (vm_compute; reflexivity).
    apply object_stream_nil.
Defined.

(** A proper prefix of a JSON object out of which the framer makes an
    object: the braces inside the member name are counted by the scan. *)
Lemma prefix_with_braces_in_a_name_frames_an_object :
  is_proper_prefix (js "{'{}}':1") (js "{'{}}':1}")
  /\ JSON.parse (js "{'{}}':1}") = Some (JObj [(js "{}}", JNum 1 0)])
  /\ _parseJsonResponses (js "{'{}}':1") = [JObj []].
Proof.
  split; [|vm_compute; split; reflexivity].
  exists (js "}"); split; [discriminate|reflexivity].
Qed.

(** C2 (amended).  The framer returns the list of parsed objects and no
    remainder.  For every input buffer that is a proper prefix of the text
    of a JSON object, the braces of which first balance at its closing
    brace, or which has no white space around it and no brace in any of its
    strings, the list is empty; for the empty buffer it is empty. *)
Theorem partial_buffer_frames_nothing (object buffer : jsstring) (v : json) :
  hd_error object = Some 123%N ->
  JSON.parse object = Some v ->
  first_balance object = Some (length object)
  \/ (trim object = object /\ braceless v = true) ->
  is_proper_prefix buffer object ->
  _parseJsonResponses buffer = [] /\ _parseJsonResponses [] = [].
Proof.
  intros Hhd Hp Hbraces Hpre; split; [|reflexivity].
  assert (Hb : first_balance object = Some (length object)).
  { destruct Hbraces as [Hb|[Htrim Hless]]; [exact Hb|].
    now apply (braceless_object_balances Hhd Hp). }
  destruct (proper_prefix_of_object Hhd Hp Hb Hpre) as [Hnone Hnob].
  unfold _parseJsonResponses. now apply parse_loop_nothing.
Qed.

Lemma partial_buffer_frames_nothing_witness :
  _parseJsonResponses (js "{'a':1") = [] /\ _parseJsonResponses [] = [].
Proof.
  apply (@partial_buffer_frames_nothing (js "{'a':1}") (js "{'a':1")
           (JObj [(js "a", JNum 1 0)])); try (vm_compute; reflexivity).
  - right. split; vm_compute; reflexivity.
  - exists (js "}"). split; [discriminate|reflexivity].
Defined.
(* ================================================================== *)
(** * Properties of the transport *)

(** A response whose [error] field is present and [null], next to a result:
    the pending request is resolved with the result, not rejected. *)
Lemma null_error_field_resolves :
  let L := run new_loop [Send (mkRequest None (js "tools/list") None)] in
  let data := js "{'jsonrpc':'2.0','id':1,'error':null,'result':5}" in
  Map.get (IdNum 1) (handlers L) = Some 0
  /\ (exists response,
        _parseJsonResponses data = [response]
        /\ response_key response = Some (IdNum 1)
        /\ member response (js "error") = Some JNull)
  /\ settled (_handleProcessOutput data L) = [(0, Resolved (Some (JNum 5 0)))].
Proof.
  cbv zeta. split; [vm_compute; reflexivity|]. split; [|vm_compute; reflexivity].
  eexists; split; [vm_compute; reflexivity|].
  split; vm_compute; reflexivity.
Qed.

(** C3 (amended).  For every framed object passed to the loop of the output
    handler of a transport in a well-formed state: if its id is truthy and is
    the key of a registered handler, the handler is removed from
    [responseHandlers] and its promise is settled, rejected when the
    object's [error] field is truthy, with an error carrying
    [error.message] when that is truthy and ['Unknown error'] otherwise, and
    resolved with the object's [result] when the [error] field is absent or
    falsy; an object with an unmatched id or without a truthy id (also
    [null]) leaves the transport as it is; the handler never fails and
    never touches the process; and two responses for two pending requests
    settle them in the order of arrival, each with its own payload. *)
Theorem response_settles_its_request (L : Loop) :
  wf L ->
  (forall response key p,
      response_key response = Some key ->
      Map.get key (handlers L) = Some p ->
      exists L',
        dispatch response L = Some L'
        /\ handlers L' = Map.delete key (handlers L)
        /\ Map.has key (handlers L') = false
        /\ settled L' = settled L ++ [(p, settlement_for response)]
        /\ child L' = child L)
  /\ (forall response error,
        member response (js "error") = Some error -> truthy error = true ->
        settlement_for response
        = Rejected (error_or_unknown (member error (js "message")))
        /\ (forall m, member error (js "message") = Some (JStr m) -> m <> [] ->
              settlement_for response = Rejected (Error m)))
  /\ (forall response,
        truthy_opt (member response (js "error")) = false ->
        settlement_for response = Resolved (member response (js "result")))
  /\ (forall response,
        response_key response = None
        \/ (exists key, response_key response = Some key
                        /\ Map.get key (handlers L) = None) ->
        dispatch_all [response] L = L)
  /\ (forall data,
        wf (_handleProcessOutput data L)
        /\ child (_handleProcessOutput data L) = child L)
  /\ (forall r1 r2 k1 k2 p1 p2,
        k1 <> k2 ->
        response_key r1 = Some k1 -> response_key r2 = Some k2 ->
        Map.get k1 (handlers L) = Some p1 -> Map.get k2 (handlers L) = Some p2 ->
        settled (dispatch_all [r2; r1] L)
        = settled L ++ [(p2, settlement_for r2); (p1, settlement_for r1)]
        /\ Map.has k1 (handlers (dispatch_all [r2; r1] L)) = false
        /\ Map.has k2 (handlers (dispatch_all [r2; r1] L)) = false).
Proof.
  intros Hwf. repeat apply conj.
  - intros response key p Hk Hg.
    destruct (dispatch_matched response Hwf Hk Hg) as [Hd Hs].
    eexists; split; [exact Hd|].
    destruct (retire_fields key p (settlement_for response) L) as (Hc & _).
    rewrite retire_handlers, Hs, Hc.
    split; [reflexivity|]. split; [apply MapFacts.has_delete_same|].
    split; reflexivity.
  - intros response error He Ht; unfold settlement_for; rewrite He, Ht.
    split; [reflexivity|].
    intros m -> Hm; simpl. destruct m; [congruence|reflexivity].
  - intros response Hf; unfold settlement_for.
    destruct (member response (js "error")) as [e|]; [|reflexivity].
    simpl in Hf; now rewrite Hf.
  - intros response; apply dispatch_unmatched.
  - intros data; split.
    + now apply dispatch_all_wf.
    + apply dispatch_all_child.
  - intros r1 r2 k1 k2 p1 p2 Hne Hr1 Hr2 Hg1 Hg2.
    destruct (dispatch_matched r2 Hwf Hr2 Hg2) as [Hd2 Hs2].
    set (L2 := retire k2 p2 (settlement_for r2) L) in *.
    assert (Hwf2 : wf L2) by (apply retire_wf; auto using get_tied).
    assert (Hg1' : Map.get k1 (handlers L2) = Some p1).
    { unfold L2; rewrite retire_handlers, MapFacts.get_delete_other; auto. }
    destruct (dispatch_matched r1 Hwf2 Hr1 Hg1') as [Hd1 Hs1].
    cbn [dispatch_all]. rewrite Hd2, Hd1, Hs1, Hs2, <- app_assoc.
    split; [reflexivity|].
    rewrite !retire_handlers. unfold L2; rewrite retire_handlers.
    unfold Map.has.
    rewrite MapFacts.get_delete_same.
    rewrite MapFacts.get_delete_other, MapFacts.get_delete_same; auto.
Qed.

(** Two requests take the ids 1 and 2; the responses arrive for 2, then for
    1: the promise of the second request is settled first, the promise of
    the first one second, each with its own result. *)
Lemma response_settles_its_request_witness :
  let L := run new_loop [Send (mkRequest None (js "tools/list") None);
                         Send (mkRequest None (js "prompts/list") None)] in
  settled (_handleProcessOutput
             (js "{'jsonrpc':'2.0','id':2,'result':'two'}{'jsonrpc':'2.0','id':1,'result':'one'}") L)
  = [(1, Resolved (Some (JStr (js "two")))); (0, Resolved (Some (JStr (js "one"))))].
Proof.
  cbv zeta.
  set (L := run new_loop _).
  assert (Hwf : wf L) by apply run_wf, new_loop_wf.
  destruct (response_settles_its_request Hwf) as (_ & _ & _ & _ & _ & Horder).
  set (r1 := JObj [(js "jsonrpc", JStr (js "2.0")); (js "id", JNum 1 0);
                   (js "result", JStr (js "one"))]).
  set (r2 := JObj [(js "jsonrpc", JStr (js "2.0")); (js "id", JNum 2 0);
                   (js "result", JStr (js "two"))]).
  assert (Hs : settled (dispatch_all [r2; r1] L)
               = settled L ++ [(1, settlement_for r2); (0, settlement_for r1)]).
  { apply (Horder r1 r2 (IdNum 1) (IdNum 2) 0 1); vm_compute; congruence. }
  unfold _handleProcessOutput.
  replace (_parseJsonResponses _) with [r2; r1] by (vm_compute; reflexivity).
  rewrite Hs. vm_compute. reflexivity.
Defined.

(** A caller-supplied id that is falsy, here the integer 0, is not used:
    the request is registered and written under the next counter value. *)
Lemma zero_id_is_replaced :
  let request := mkRequest (Some (IdNum 0)) (js "ping") None in
  let L' := fst (sendRequest request new_loop) in
  Map.get (IdNum 0) (handlers L') = None
  /\ Map.get (IdNum 1) (handlers L') = Some 0
  /\ stdin (child L') = [(IdNum 1, js "ping", None)].
Proof. vm_compute. repeat split; reflexivity. Qed.

Lemma sendRequest_alive request L :
  killed (child L) = false ->
  let (requestId, last) := next_request_id request (lastRequestId (transport L)) in
  handlers (fst (sendRequest request L))
  = Map.set requestId (promises L) (handlers L)
  /\ stdin (child (fst (sendRequest request L)))
     = stdin (child L) ++ [(requestId, req_method request, req_params request)]
  /\ lastRequestId (transport (fst (sendRequest request L))) = last
  /\ killed (child (fst (sendRequest request L))) = false
  /\ snd (sendRequest request L) = promises L.
Proof.
  intros Hk; unfold sendRequest; rewrite Hk.
  destruct (next_request_id request (lastRequestId (transport L))) as [requestId last].
  simpl; auto.
Qed.

Lemma counter_ids requests : forall L,
  killed (child L) = false ->
  Forall (fun r => req_id r = None) requests ->
  map wire_id (stdin (child (run L (map Send requests))))
  = map wire_id (stdin (child L))
    ++ map (fun k => IdNum (lastRequestId (transport L) + Z.of_nat k))
           (seq 1 (length requests)).
Proof.
  induction requests as [|r rest IH]; intros L Hk Hall.
  - simpl; now rewrite app_nil_r.
  - inversion Hall as [|? ? Hr Hrest]; subst.
    cbn [map run fold_left step length]. fold (run (fst (sendRequest r L)) (map Send rest)).
    pose proof (sendRequest_alive r L Hk) as Hs.
    unfold next_request_id in Hs; rewrite Hr in Hs.
    destruct Hs as (_ & Hin & Hlast & Hk' & _).
    rewrite IH, Hin, Hlast; auto.
    rewrite map_app, <- app_assoc. f_equal.
    cbn [map app wire_id fst seq]. f_equal.
    rewrite <- (seq_shift (length rest) 1), map_map. apply map_ext; intros k; f_equal; lia.
Qed.

(** C9 (amended).  For every request passed to [sendRequest] on a transport
    whose process is available: when the caller supplies a truthy id (an
    integer other than 0, a non-empty string), that id is the key of the
    handler and is written on the wire, and the counter is left alone; when
    no id or a falsy one is supplied, the id is the counter of the transport
    plus one, and the counter advances, so that the requests without id of
    a new transport are written with the ids 1, 2, 3, ...; and at every
    moment [responseHandlers] holds at most one handler per id. *)
Theorem request_ids (L : Loop) (request : requestObj) :
  wf L -> killed (child L) = false ->
  let L' := fst (sendRequest request L) in
  let p := snd (sendRequest request L) in
  (forall i, req_id request = Some i -> id_truthy i = true ->
      Map.get i (handlers L') = Some p
      /\ stdin (child L')
         = stdin (child L) ++ [(i, req_method request, req_params request)]
      /\ lastRequestId (transport L') = lastRequestId (transport L))
  /\ (req_id request = None
      \/ (exists i, req_id request = Some i /\ id_truthy i = false) ->
      let n := (lastRequestId (transport L) + 1)%Z in
      Map.get (IdNum n) (handlers L') = Some p
      /\ stdin (child L')
         = stdin (child L) ++ [(IdNum n, req_method request, req_params request)]
      /\ lastRequestId (transport L') = n)
  /\ (forall events, NoDup (Map.keys (handlers (run L' events))))
  /\ (forall requests,
        Forall (fun r => req_id r = None) requests ->
        map wire_id (stdin (child (run new_loop (map Send requests))))
        = map (fun k => IdNum (Z.of_nat k)) (seq 1 (length requests))).
Proof.
  intros Hwf Hk L' p.
  pose proof (sendRequest_alive request L Hk) as Hs.
  repeat apply conj.
  - intros i Hi Ht. unfold next_request_id in Hs; rewrite Hi, Ht in Hs.
    destruct Hs as (Hh & Hin & Hlast & _ & Hp).
    unfold L', p; rewrite Hh, Hp, MapFacts.get_set_same; auto.
  - intros Hnone n.
    assert (Hn : next_request_id request (lastRequestId (transport L))
                 = (IdNum n, n)).
    { unfold next_request_id.
      destruct Hnone as [->|(i & -> & ->)]; reflexivity. }
    rewrite Hn in Hs. destruct Hs as (Hh & Hin & Hlast & _ & Hp).
    unfold L', p; rewrite Hh, Hp, MapFacts.get_set_same; auto.
  - intros events. apply wf_keys, run_wf, sendRequest_wf, Hwf.
  - intros requests Hall.
    rewrite (@counter_ids requests new_loop); auto.
Qed.

Lemma request_ids_witness :
  let L := run new_loop [Send (mkRequest None (js "tools/list") None)] in
  let request := mkRequest (Some (IdStr (js "abc"))) (js "ping") None in
  Map.get (IdStr (js "abc")) (handlers (fst (sendRequest request L))) = Some 1
  /\ map wire_id (stdin (child (run new_loop
        (map Send [mkRequest None (js "a") None; mkRequest None (js "b") None;
                   mkRequest None (js "c") None]))))
     = [IdNum 1; IdNum 2; IdNum 3].
Proof.
  cbv zeta.
  set (L := run new_loop _).
  set (request := mkRequest (Some (IdStr (js "abc"))) (js "ping") None).
  assert (Hwf : wf L) by apply run_wf, new_loop_wf.
  assert (Hk : killed (child L) = false) by (vm_compute; reflexivity).
  destruct (request_ids request Hwf Hk) as (Hhon & _ & _ & Hcount).
  split.
  - assert (Hg : Map.get (IdStr (js "abc")) (handlers (fst (sendRequest request L)))
                 = Some (snd (sendRequest request L)))
      by (apply (Hhon (IdStr (js "abc"))); reflexivity).
    rewrite Hg. vm_compute. reflexivity.
  - rewrite Hcount; [reflexivity|]. repeat constructor.
Defined.

(** C4.  The timer of a request that has completed is not cancelled and
    tests the id, not the handler.  The first request, sent under the id 1
    of its caller, is answered after one second.  A second request, sent
    after two seconds without an id, is given the id 1 by the counter, while
    nothing is pending under it.  At 30 seconds the timer of the first
    request removes the handler of the second one, 28 seconds after that was
    sent.  The second request then is not settled by a matching response
    that arrives at 31 seconds, before its own deadline, and is not rejected
    when its own timer runs: its promise stays unsettled, with or without
    that response.  The same happens to a second request that its caller
    sends under the id 1 again. *)
Theorem stale_timer_takes_the_handler_of_a_later_request :
  let first := mkRequest (Some (IdNum 1)) (js "tools/list") None in
  let L := run new_loop [Send first; Elapse 1000;
                         Stdout (js "{'jsonrpc':'2.0','id':1,'result':'first'}");
                         Elapse 1000] in
  let answered := [Elapse 28000; Elapse 1000;
                   Stdout (js "{'jsonrpc':'2.0','id':1,'result':'second'}");
                   Elapse 60000] in
  let unanswered := [Elapse 28000; Elapse 60000] in
  let second := mkRequest None (js "tools/call") None in
  let L1 := fst (sendRequest second L) in
  let p := snd (sendRequest second L) in
  let again := mkRequest (Some (IdNum 1)) (js "tools/call") None in
  let L2 := fst (sendRequest again L) in
  let q := snd (sendRequest again L) in
  killed (child L) = false
  /\ settlement_of 0 (settled L) = Some (Resolved (Some (JStr (js "first"))))
  /\ Map.has (IdNum 1) (handlers L) = false
  /\ Map.get (IdNum 1) (handlers L1) = Some p
  /\ Map.has (IdNum 1) (handlers (run L1 [Elapse 27999])) = true
  /\ Map.has (IdNum 1) (handlers (run L1 [Elapse 28000])) = false
  /\ settlement_of p (settled (run L1 answered)) = None
  /\ settlement_of p (settled (run L1 unanswered)) = None
  /\ (clock L + 30000 <= clock (run L1 unanswered))%N
  /\ Map.get (IdNum 1) (handlers L2) = Some q
  /\ settlement_of q (settled (run L2 answered)) = None
  /\ settlement_of q (settled (run L2 unanswered)) = None.
Proof. vm_compute. repeat split; congruence. Qed.

(** X23.  Take a request sent on a transport whose process is available,
    under an id for which no timer and no write callback of an earlier
    request is outstanding, and events that leave this id alone: no response
    under it is delivered, no other request is sent under it, its write
    does not fail.  Once 30 seconds have passed, the request is out of
    [responseHandlers] and its promise is rejected with the timeout error;
    the process is killed by nothing but a call of [close]; and any request
    whose response is reached in a chunk while that request is pending is
    settled by this response.  When instead the write of the request fails,
    the request is removed and its promise rejected at once with the write
    error. *)
Theorem timeout_rejects_only_its_request
    (L : Loop) (request : requestObj) (events : list event) :
  wf L -> killed (child L) = false ->
  let i := fst (next_request_id request (lastRequestId (transport L))) in
  let p := snd (sendRequest request L) in
  let L1 := fst (sendRequest request L) in
  fresh_id i L = true ->
  undisturbed i L1 events = true ->
  (clock L + 30000 <= clock (run L1 events))%N ->
  Map.has i (handlers (run L1 events)) = false
  /\ settlement_of p (settled (run L1 events)) = Some (Rejected timeout_error)
  /\ (killed (child (run L1 events)) = true -> In Close events)
  /\ (forall before data after pre response post j q,
        events = before ++ Stdout data :: after ->
        _parseJsonResponses data = pre ++ response :: post ->
        Forall (fun r => r <> JNull /\ response_key r <> Some j) pre ->
        response_key response = Some j ->
        Map.get j (handlers (run L1 before)) = Some q ->
        settlement_of q (settled (run L1 events)) = Some (settlement_for response))
  /\ (forall message,
        let failed := step L1 (WriteDone (length (writes L)) (Some message)) in
        Map.has i (handlers failed) = false
        /\ settlement_of p (settled failed)
           = Some (Rejected (Error (js "Failed to write to process: " ++ message)))).
Proof.
  intros Hwf Hk i p L1 Hfresh Hquiet Hlate.
  assert (Hwf1 : wf L1) by (apply sendRequest_wf, Hwf).
  assert (Hp : p = promises L).
  { unfold p, sendRequest; rewrite Hk.
    now destruct (next_request_id request (lastRequestId (transport L))). }
  assert (Harmed : armed i p (clock L + 30000) L1).
  { rewrite Hp. now apply sendRequest_armed. }
  assert (Hout : timed_out i p (run L1 events)).
  { destruct (@run_outcome i p (clock L + 30000)%N events L1 Hwf1 (or_introl Harmed) Hquiet)
      as [(_ & Hin & _)|Hd]; auto.
    apply (wf_timers (run_wf events Hwf1)) in Hin. destruct Hin as [Hlt _]. lia. }
  destruct Hout as (Hhas & Hset & _).
  split; [exact Hhas|]. split; [exact Hset|]. split; [|split].
  3:{ intros message. cbv zeta. unfold L1, p, i, sendRequest. rewrite Hk.
      destruct (next_request_id request (lastRequestId (transport L)))
        as [rid last]. cbn [fst snd step writes].
      rewrite nth_error_app2, Nat.sub_diag by lia. cbn [nth_error write_callback].
      split.
      - rewrite handlers_settle. unfold handlers; simpl.
        apply MapFacts.has_delete_same.
      - apply settle_unsettled. simpl. now apply settled_below. }
  - intros Hkilled. apply run_killed in Hkilled. destruct Hkilled as [Hk1|]; auto.
    exfalso. revert Hk1. unfold L1, sendRequest; rewrite Hk.
    destruct (next_request_id request (lastRequestId (transport L))); simpl.
    rewrite Hk; discriminate.
  - intros before data after pre response post j q -> Hframed Hpre Hkey Hg.
    rewrite run_app.
    change (run (run L1 before) (Stdout data :: after))
      with (run (_handleProcessOutput data (run L1 before)) after).
    apply settlement_final. unfold _handleProcessOutput. rewrite Hframed.
    apply (@dispatch_all_reaches j q response post pre); auto. now apply run_wf.
Qed.

(** Two requests under the ids 1 and 2: the second one is answered after ten
    seconds, the first one never; at thirty seconds the first promise is
    rejected with the timeout error and the second one stays resolved. *)
Lemma timeout_rejects_only_its_request_witness :
  let first := mkRequest None (js "tools/call") None in
  let second := mkRequest None (js "tools/list") None in
  let events := [Send second; Elapse 10000;
                 Stdout (js "{'jsonrpc':'2.0','id':2,'result':'two'}");
                 Elapse 20000] in
  let F := run (fst (sendRequest first new_loop)) events in
  Map.has (IdNum 1) (handlers F) = false
  /\ settlement_of 0 (settled F) = Some (Rejected timeout_error)
  /\ settlement_of 1 (settled F) = Some (Resolved (Some (JStr (js "two"))))
  /\ killed (child F) = false.
Proof.
  cbv zeta.
  set (first := mkRequest None (js "tools/call") None).
  set (second := mkRequest None (js "tools/list") None).
  set (events := [Send second; Elapse 10000;
                  Stdout (js "{'jsonrpc':'2.0','id':2,'result':'two'}");
                  Elapse 20000]).
  assert (Hk : killed (child new_loop) = false) by reflexivity.
  assert (Hfresh : fresh_id (fst (next_request_id first (lastRequestId (transport new_loop))))
                            new_loop = true) by (vm_compute; reflexivity).
  assert (Hquiet : undisturbed
                     (fst (next_request_id first (lastRequestId (transport new_loop))))
                     (fst (sendRequest first new_loop)) events = true)
    by (vm_compute; reflexivity).
  assert (Hlate : (clock new_loop + 30000
                   <= clock (run (fst (sendRequest first new_loop)) events))%N)
    by (vm_compute; discriminate).
  destruct (@timeout_rejects_only_its_request new_loop first events
              new_loop_wf Hk Hfresh Hquiet Hlate) as (Hhas & Hset & _ & Hother & _).
  split; [exact Hhas|]. split; [exact Hset|]. split; [|vm_compute; reflexivity].
  set (response := JObj [(js "jsonrpc", JStr (js "2.0")); (js "id", JNum 2 0);
                         (js "result", JStr (js "two"))]).
  apply (Hother [Send second; Elapse 10000]
                (js "{'jsonrpc':'2.0','id':2,'result':'two'}")
                [Elapse 20000] [] response [] (IdNum 2) 1);
    try (vm_compute; reflexivity).
  constructor.
Defined.

(* ================================================================== *)
(** * Properties of the supervisor and of the registry *)

(** C5.  Two calls of [getOrCreateClient] with the same identity and no
    teardown in between, the second made while the first awaits its spawn:
    the first call has looked up [activeClients] and [activeProcesses]
    before the [await] and fills them after it, so the second call finds
    neither entry.  Either call spawns a process and returns a connection of
    its own; the entries of the second call replace those of the first, and
    the process of the first call, which no map holds any more, is not
    killed by [cleanupClients]. *)
Theorem overlapping_calls_spawn_twice :
  let quiet := mkBehaviour None [] None in
  let (w1, s1) := getOrCreateClient_begin (js "node") [js "server.js"]
                    (Some (js "srv")) quiet empty_world in
  let (w2, s2) := getOrCreateClient_begin (js "node") [js "server.js"]
                    (Some (js "srv")) quiet w1 in
  let (w3, r1) := getOrCreateClient_resume (js "node") (Some (js "srv")) s1 w2 in
  let (w4, r2) := getOrCreateClient_resume (js "node") (Some (js "srv")) s2 w3 in
  length (procs w4) = 2
  /\ r1 = Ok (connection_over (js "srv") 0 0)
  /\ r2 = Ok (connection_over (js "srv") 1 1)
  /\ r1 <> r2
  /\ Map.get (js "srv") (activeClients w4) = Some (connection_over (js "srv") 1 1)
  /\ Map.get (js "srv") (activeProcesses w4) = Some 1
  /\ map terminated (procs w4) = [false; false]
  /\ map terminated (procs (fst (cleanupClients w4))) = [false; true].
Proof. vm_compute. repeat split; try reflexivity. discriminate. Qed.

(** X24.  Two calls of [getOrCreateClient] one after the other with the same
    identity (the key [serverId || serverCommand]) and no teardown in
    between: when the first call has returned a connection, the second call
    returns the same connection object, whatever command and arguments it is
    given, and changes nothing, so it spawns no process; the two calls
    together spawn exactly one process when neither map held the identity
    before. *)
Theorem get_or_create_twice
    (w w1 : World) (cmd : jsstring) (args : list jsstring)
    (id : option jsstring) (b : behaviour) (conn : connection) :
  getOrCreateClient cmd args id b w = (w1, Ok conn) ->
  forall cmd' args' id' b',
    clientKey_of cmd' id' = clientKey_of cmd id ->
    getOrCreateClient cmd' args' id' b' w1 = (w1, Ok conn)
    /\ (Map.get (clientKey_of cmd id) (activeClients w) = None ->
        Map.get (clientKey_of cmd id) (activeProcesses w) = None ->
        length (procs (fst (getOrCreateClient cmd' args' id' b' w1)))
        = S (length (procs w))).
Proof.
  intros Hfirst cmd' args' id' b' Hkey.
  pose proof (getOrCreateClient_stores _ _ _ _ _ Hfirst) as Hstored.
  rewrite <- Hkey in Hstored.
  rewrite (getOrCreateClient_cached cmd' args' id' b' w1 Hstored).
  split; [reflexivity|].
  intros Hc Hp. cbn [fst].
  rewrite (getOrCreateClient_spawns cmd args id b w Hc Hp) in Hfirst.
  destruct (spawnMCPProcess cmd args b w) as [w' [h|m]] eqn:Hs; [|discriminate].
  apply spawnMCPProcess_effect in Hs.
  destruct Hs as (_ & _ & _ & _ & [[[m Hm] _]|[_ Hprocs]]); [discriminate|].
  injection Hfirst as <- _. simpl. rewrite Hprocs, length_app. simpl; lia.
Qed.

Lemma get_or_create_twice_witness :
  let quiet := mkBehaviour None [] None in
  let first := getOrCreateClient (js "node") [js "server.js"] (Some (js "srv"))
                                 quiet empty_world in
  exists conn,
    snd first = Ok conn
    /\ getOrCreateClient (js "python") [js "other.py"] (Some (js "srv")) quiet (fst first)
       = (fst first, Ok conn)
    /\ length (procs (fst first)) = 1.
Proof.
  cbv zeta.
  set (quiet := mkBehaviour None [] None).
  destruct (getOrCreateClient (js "node") [js "server.js"] (Some (js "srv"))
                              quiet empty_world) as [w1 r] eqn:Hfirst.
  assert (Hr : exists conn, r = Ok conn /\ length (procs w1) = 1).
  { vm_compute in Hfirst. injection Hfirst as <- <-. eexists; split; reflexivity. }
  destruct Hr as (conn & -> & Hlen).
  exists conn. cbn [fst snd].
  destruct (@get_or_create_twice empty_world w1 (js "node") [js "server.js"]
              (Some (js "srv")) quiet conn Hfirst
              (js "python") [js "other.py"] (Some (js "srv")) quiet eq_refl)
    as [Hsecond _].
  auto.
Defined.

(** C6.  The call fails after [spawn] has created the child: the child
    writes a line holding ENOENT to its standard error within the grace
    window and goes on running.  The error reaches the caller and neither
    map holds the identity, but the child is neither killed nor stopped. *)
Theorem failed_startup_leaves_the_child_running :
  let b := mkBehaviour None [OnStderr (js "warn: ENOENT config.json, using defaults")] None in
  let r := getOrCreateClient (js "node") [js "server.js"] (Some (js "srv"))
                             b empty_world in
  snd r = Throw (js "Failed to create MCP process: Process startup error: warn: ENOENT config.json, using defaults")
  /\ activeClients (fst r) = []
  /\ activeProcesses (fst r) = []
  /\ procs (fst r) = [mkChild false false None []]
  /\ forallb terminated (procs (fst r)) = false.
Proof. vm_compute. repeat split; reflexivity. Qed.

(** Whenever a call fails after it has spawned a child, the child is left
    as the grace window left it: nothing kills it, it is terminated only if
    it has stopped by itself, and the maps are as before. *)
Lemma failed_call_never_kills cmd args id b w w1 message :
  cmd <> [] -> spawn_throws b = None ->
  Map.get (clientKey_of cmd id) (activeClients w) = None ->
  Map.get (clientKey_of cmd id) (activeProcesses w) = None ->
  getOrCreateClient cmd args id b w = (w1, Throw message) ->
  procs w1 = procs w ++ [spawned_child b]
  /\ killed (spawned_child b) = false
  /\ terminated (spawned_child b) = existsb has_stopped (grace_events b)
  /\ activeClients w1 = activeClients w
  /\ activeProcesses w1 = activeProcesses w.
Proof.
  intros Hcmd Hsp Hc Hp.
  rewrite (getOrCreateClient_spawns cmd args id b w Hc Hp).
  rewrite spawnMCPProcess_outcome; auto.
  destruct (first_failure (grace_events b)); [|discriminate].
  intros [= <- _]. simpl. auto.
Qed.

(** After a failed startup, the child that was spawned is in no map, so
    the teardown does not reach it either. *)
Lemma failed_startup_child_survives_cleanup :
  let b := mkBehaviour None [OnStderr (js "warn: ENOENT config.json, using defaults")] None in
  let w := fst (getOrCreateClient (js "node") [js "server.js"] (Some (js "srv"))
                                  b empty_world) in
  procs (fst (cleanupClients w)) = [mkChild false false None []].
Proof. vm_compute. reflexivity. Qed.

(** A child that exits with the code 0 inside the grace window, and a child
    that writes the words "Cannot find module" without the prefix the code
    looks for: the spawn resolves with the handle in both cases, in the
    first one with the handle of a process that has exited. *)
Lemma clean_exit_inside_grace_window_resolves :
  let exits := mkBehaviour None [OnExit (Some 0%Z)] None in
  let words := mkBehaviour None [OnStderr (js "Cannot find module ./server.js")] None in
  snd (spawnMCPProcess (js "node") [js "server.js"] exits empty_world) = Ok 0
  /\ map exited (procs (fst (spawnMCPProcess (js "node") [js "server.js"]
                                             exits empty_world))) = [true]
  /\ snd (spawnMCPProcess (js "node") [js "server.js"] words empty_world) = Ok 0.
Proof. vm_compute. repeat split; reflexivity. Qed.

(** C7 (amended).  The promise of [spawnMCPProcess] is resolved by nothing
    but the callback of the 500 ms timer, and it is resolved there with the
    process handle exactly when, before the timer, the process emitted no
    ['error'] event, did not exit with a code other than 0, and wrote no
    chunk to its standard error that contains [ENOENT], [command not found]
    or [Error: Cannot find module]; an exit with the code 0 or on a signal
    does not stand in the way.  Otherwise the promise is rejected by the
    first such event, with the error of the ['error'] event, with
    [Process exited with code N] or with [Process startup error: ] followed
    by the trimmed chunk, and [getOrCreateClient] rejects with that message
    after [Failed to create MCP process: ]. *)
Theorem startup_outcome
    (cmd : jsstring) (args : list jsstring) (id : option jsstring)
    (b : behaviour) (w : World) :
  cmd <> [] -> spawn_throws b = None ->
  Map.get (clientKey_of cmd id) (activeClients w) = None ->
  Map.get (clientKey_of cmd id) (activeProcesses w) = None ->
  spawn_settled (before_grace (grace_events b)) <> Some (Ok tt)
  /\ snd (spawnMCPProcess cmd args b w)
     = match first_failure (grace_events b) with
       | Some message => Throw message
       | None => Ok (length (procs w))
       end
  /\ (forall pre e post message,
        grace_events b = pre ++ e :: post ->
        startup_failure e = Some message ->
        exists m,
          first_failure (grace_events b) = Some m
          /\ snd (getOrCreateClient cmd args id b w)
             = Throw (js "Failed to create MCP process: " ++ m))
  /\ (forall output, is_fatal_stderr output = true ->
        startup_failure (OnStderr output)
        = Some (js "Process startup error: " ++ trim output))
  /\ (forall code, code <> 0%Z ->
        startup_failure (OnExit (Some code))
        = Some (js "Process exited with code " ++ Z_to_js code)).
Proof.
  intros Hcmd Hsp Hc Hp.
  split; [apply before_grace_unresolved|].
  split; [now rewrite spawnMCPProcess_outcome|].
  split; [|split].
  - intros pre e post message Hev He.
    destruct (@first_failure_app pre e post message He) as [m Hm]. rewrite <- Hev in Hm.
    exists m; split; [exact Hm|].
    rewrite (getOrCreateClient_spawns cmd args id b w Hc Hp).
    rewrite spawnMCPProcess_outcome, Hm; auto.
  - intros output Hf; simpl; now rewrite Hf.
  - intros code Hcode; simpl. destruct (Z.eqb_spec code 0); congruence.
Qed.

(** The child writes "command not found" and exits with the code 127. *)
Lemma startup_outcome_witness :
  snd (getOrCreateClient (js "nod") [js "server.js"] (Some (js "srv"))
         (mkBehaviour None [OnStderr (js "sh: nod: command not found");
                            OnExit (Some 127%Z)] None)
         empty_world)
  = Throw (js "Failed to create MCP process: Process startup error: sh: nod: command not found").
Proof.
  set (b := mkBehaviour None [OnStderr (js "sh: nod: command not found");
                              OnExit (Some 127%Z)] None).
  assert (Hall := @startup_outcome (js "nod") [js "server.js"] (Some (js "srv"))
                    b empty_world).
  destruct Hall as (_ & _ & Hreject & _);
    [discriminate|reflexivity|reflexivity|reflexivity|].
  assert (Hone := Hreject [] (OnStderr (js "sh: nod: command not found"))
                    [OnExit (Some 127%Z)]
                    (js "Process startup error: sh: nod: command not found")
                    eq_refl eq_refl).
  destruct Hone as (m & Hm & Hr).
  rewrite Hr. vm_compute in Hm. injection Hm as <-. vm_compute. reflexivity.
Defined.

(** C8.  [cleanupClients] never raises; it leaves both [activeClients] and
    [activeProcesses] empty; for every stored connection and every stored
    process, the process ends up terminated unless its [kill()] threw, in
    which case the error was caught and logged under the server id; a second
    call right after the first does not raise and changes nothing, and so
    does a call on an empty registry. *)
Theorem cleanup_is_best_effort (w : World) :
  let w' := fst (cleanupClients w) in
  snd (cleanupClients w) = Ok tt
  /\ activeClients w' = []
  /\ activeProcesses w' = []
  /\ (forall key conn, In (key, conn) (activeClients w) ->
        dealt_with key (process (conn_transport conn)) w w')
  /\ (forall key h, In (key, h) (activeProcesses w) -> dealt_with key h w w')
  /\ cleanupClients w' = (w', Ok tt)
  /\ cleanupClients empty_world = (empty_world, Ok tt).
Proof.
  cbv zeta. unfold cleanupClients, bind.
  destruct (close_transports_spec (activeClients w) w) as (w1 & -> & Hev1 & Hd1).
  unfold clear_activeClients. cbn [activeProcesses].
  set (w1c := mkWorld (procs w1) [] (activeProcesses w1) (objects w1) (console_error w1)).
  destruct (kill_processes_spec (activeProcesses w1) w1c) as (w2 & -> & Hev2 & Hd2).
  unfold clear_activeProcesses. cbn [fst snd activeClients activeProcesses].
  set (final := mkWorld (procs w2) (activeClients w2) [] (objects w2) (console_error w2)).
  assert (Hs12 : settles w1 final).
  { apply (@settles_same w1 w2 final); auto.
    apply (@settles_from w1 w1c w2); auto. apply Hev2. }
  destruct Hev1 as (Hc1 & Hp1 & _ & Hs1).
  destruct Hev2 as (Hc2 & _ & _ & _).
  split; [reflexivity|]. split; [exact Hc2|]. split; [reflexivity|].
  split; [|split; [|split]].
  - intros key conn Hin. eapply dealt_with_later; eauto.
  - intros key h Hin. rewrite <- Hp1 in Hin.
    apply (@dealt_with_evolves key h w w1 final Hs1).
    intros c Hn. destruct (Hd2 key h Hin c Hn) as (c' & Hn' & Hcases).
    exists c'; auto.
  - unfold final; rewrite Hc2. reflexivity.
  - reflexivity.
Qed.

(** Two servers share the teardown; the process of the first one cannot be
    killed: its error is logged, the other process is killed, both maps are
    empty and the call returns normally. *)
Lemma cleanup_is_best_effort_witness :
  let stubborn := mkBehaviour None [] (Some (js "kill EPERM")) in
  let quiet := mkBehaviour None [] None in
  let w1 := fst (getOrCreateClient (js "node") [js "a.js"] (Some (js "a")) stubborn
                                   empty_world) in
  let w2 := fst (getOrCreateClient (js "node") [js "b.js"] (Some (js "b")) quiet w1) in
  let w' := fst (cleanupClients w2) in
  snd (cleanupClients w2) = Ok tt
  /\ activeClients w' = [] /\ activeProcesses w' = []
  /\ (exists c', nth_error (procs w') 1 = Some c' /\ terminated c' = true)
  /\ In (js "a", js "kill EPERM") (console_error w').
Proof.
  cbv zeta.
  set (w2 := fst (getOrCreateClient (js "node") [js "b.js"] (Some (js "b")) _ _)).
  destruct (cleanup_is_best_effort w2) as (Hok & Hc & Hp & _ & Hprocs & _).
  split; [exact Hok|]. split; [exact Hc|]. split; [exact Hp|]. split.
  - destruct (Hprocs (js "b") 1) with (c := mkChild false false None [])
      as (c' & Hn & [Ht|(m & Hm & _)]).
    + vm_compute; auto.
    + vm_compute; reflexivity.
    + eauto.
    + discriminate Hm.
  - destruct (Hprocs (js "a") 0) with (c := mkChild false false (Some (js "kill EPERM")) [])
      as (c' & Hn & [Ht|(m & Hm & Hin)]).
    + vm_compute; auto.
    + vm_compute; reflexivity.
    + exfalso. revert Hn Ht. vm_compute. intros [= <-]; discriminate.
    + injection Hm as <-. exact Hin.
Defined.

(** C10.  When [getOrCreateClient] returns a connection for the call of
    [handleFetchMCPCapabilities], the call resolves with [error: null]; a
    [tools/list] or [prompts/list] request that is rejected gives the empty
    array in its place, so that when both are rejected the result is
    [{tools: [], prompts: [], error: null}] with the server id.  Given a
    payload object, the call resolves and does not reject, whatever happens
    then. *)
Theorem capabilities_never_reject
    (command : jsstring) (args : list jsstring) (serverId : option jsstring)
    (b : behaviour) (tools_reply prompts_reply : settlement)
    (w w1 : World) (conn : connection) :
  command <> [] ->
  getOrCreateClient command args serverId b w = (w1, Ok conn) ->
  (exists caps,
      handleFetchMCPCapabilities command args serverId b tools_reply prompts_reply w
      = (w1, Ok caps)
      /\ error caps = None
      /\ serverId_of caps = serverId
      /\ (forall e, tools_reply = Rejected e -> tools caps = [])
      /\ (forall e, prompts_reply = Rejected e -> prompts caps = [])
      /\ (forall e e', tools_reply = Rejected e -> prompts_reply = Rejected e' ->
            caps = mkCapabilities [] [] None serverId))
  /\ (forall command' args' serverId' b' t' p' w0,
        exists caps',
          snd (handleFetchMCPCapabilities command' args' serverId' b' t' p' w0)
          = Ok caps').
Proof.
  intros Hcmd Hconn. split.
  - unfold handleFetchMCPCapabilities, try_catch, bind.
    destruct command as [|c command]; [congruence|].
    rewrite Hconn. unfold ret.
    eexists; split; [reflexivity|]. cbn [error serverId_of tools prompts].
    assert (Hrej : forall name rep e, rep = Rejected e ->
                     fetch_list name (client conn) rep = []).
    { intros name rep e ->. unfold fetch_list, Client_request.
      destruct (isConnected (client conn)); [|reflexivity].
      destruct (client_transport (client conn)); reflexivity. }
    repeat split; eauto.
    intros e e' Ht Hp. now rewrite (Hrej _ _ _ Ht), (Hrej _ _ _ Hp).
  - intros command' args' serverId' b' t' p' w0.
    unfold handleFetchMCPCapabilities, try_catch, bind.
    destruct command' as [|c command']; [eexists; reflexivity|].
    destruct (getOrCreateClient (c :: command') args' serverId' b' w0) as [w2 [conn'|m]];
      eexists; reflexivity.
Qed.

(** A server that answers neither list method: both requests time out. *)
Lemma capabilities_never_reject_witness :
  snd (handleFetchMCPCapabilities (js "node") [js "server.js"] (Some (js "srv"))
         (mkBehaviour None [] None)
         (Rejected timeout_error) (Rejected timeout_error) empty_world)
  = Ok (mkCapabilities [] [] None (Some (js "srv"))).
Proof.
  set (b := mkBehaviour None [] None).
  destruct (getOrCreateClient (js "node") [js "server.js"] (Some (js "srv")) b empty_world)
    as [w1 r] eqn:Hfirst.
  assert (Hr : exists conn, r = Ok conn).
  { vm_compute in Hfirst. injection Hfirst as _ <-. eexists; reflexivity. }
  destruct Hr as (conn & ->).
  assert (Hcmd : js "node" <> []) by discriminate.
  destruct (@capabilities_never_reject (js "node") [js "server.js"] (Some (js "srv")) b
              (Rejected timeout_error) (Rejected timeout_error)
              empty_world w1 conn Hcmd Hfirst) as [(caps & Hrun & _ & _ & _ & _ & Hboth) _].
  rewrite Hrun. cbn [snd]. f_equal. eapply Hboth; reflexivity.
Defined.

(* ================================================================== *)
(** * Further properties of the two framers *)

(** X1.  A chunk that holds the texts of JSON objects one after the other,
    each followed by white space or by nothing, is framed by
    [_parseJsonResponses] into exactly these objects, in their order; an
    object text is one that opens with a brace and whose braces first
    balance at its end. *)
Theorem object_stream_is_framed (text : jsstring) (vs : list json) :
  object_stream text vs -> _parseJsonResponses text = vs.
Proof.
  intros Hs. destruct vs as [|v vs].
  - apply object_stream_spaces in Hs. now subst text.
  - destruct (object_stream_core Hs) as (core & ws & -> & Hws & Ht & _ & Hst & _);
      [easy|].
    apply parseJsonResponses_stream.
    now rewrite trim_trailing.
Qed.

Lemma object_stream_is_framed_witness :
  _parseJsonResponses
    (js "{'id':1,'result':{}}" ++ [32%N] ++ js "{'id':2,'result':[]}" ++ [10%N] ++ [])
  = [JObj [(js "id", JNum 1 0); (js "result", JObj [])];
     JObj [(js "id", JNum 2 0); (js "result", JArr [])]].
Proof.
  apply object_stream_is_framed.
  apply object_stream_cons; try (vm_compute; reflexivity).
  apply object_stream_cons; try (vm_compute; reflexivity).
  apply object_stream_nil.
Defined.

(** X2.  On such a chunk [parseJsonRpcResponse] returns what
    [_parseJsonResponses] returns, less the objects that have none of
    [jsonrpc: "2.0"], [id], [result] and [error]; when every object of the
    chunk has one of them the two framers return the same list. *)
Theorem framers_agree_on_object_streams (text : jsstring) (vs : list json) :
  object_stream text vs ->
  parseJsonRpcResponse text = filter is_rpc_response (_parseJsonResponses text)
  /\ (forallb is_rpc_response vs = true ->
      parseJsonRpcResponse text = _parseJsonResponses text).
Proof.
  intros Hs.
  assert (Hp : _parseJsonResponses text = vs).
  { destruct vs as [|v vs].
    - apply object_stream_spaces in Hs. now subst text.
    - destruct (object_stream_core Hs) as (core & ws & -> & Hws & Ht & _ & Hst & _);
        [easy|].
      apply parseJsonResponses_stream. now rewrite trim_trailing. }
  assert (Hf : parseJsonRpcResponse text = filter is_rpc_response vs).
  { destruct vs as [|v vs].
    - apply object_stream_spaces in Hs. now subst text.
    - destruct (object_stream_core Hs) as (core & ws & -> & Hws & Ht & _ & _ & Hfo);
        [easy|].
      unfold parseJsonRpcResponse.
      now rewrite trim_trailing, Hfo. }
  rewrite Hp. split; [exact Hf|]. intros Hall. rewrite Hf.
  clear Hs Hp Hf. induction vs as [|v vs IH]; [reflexivity|].
  simpl in *. apply andb_true_iff in Hall. destruct Hall as [-> Hall].
  now rewrite IH.
Qed.

Lemma framers_agree_on_object_streams_witness :
  parseJsonRpcResponse
    (js "{'id':1,'result':{}}" ++ [32%N] ++ js "{'progress':50}" ++ [10%N] ++ [])
  = filter is_rpc_response
      (_parseJsonResponses
         (js "{'id':1,'result':{}}" ++ [32%N] ++ js "{'progress':50}" ++ [10%N] ++ [])).
Proof.
  refine (proj1 (@framers_agree_on_object_streams _
                   [JObj [(js "id", JNum 1 0); (js "result", JObj [])];
                    JObj [(js "progress", JNum 50 0)]] _)).
  apply object_stream_cons; try (vm_compute; reflexivity).
  apply object_stream_cons; try (vm_compute; reflexivity).
  apply object_stream_nil.
Defined.

(** X3.  [findJsonObjects] reads what follows a text with as many opening
    as closing braces as if nothing stood before it: the objects found in
    [a ++ b] are those found in [a], then those found in [b]. *)
Theorem balanced_prefix_splits_the_scan (a b : jsstring) :
  count 123 a = count 125 a ->
  findJsonObjects (a ++ b) = findJsonObjects a ++ findJsonObjects b.
Proof.
  intros Hb. rewrite !findJsonObjects_scan, scan_objects_app.
  destruct (scan_state a 0 None) as [depth candidate] eqn:Hs.
  rewrite (scan_state_balanced _ Hb) in Hs. injection Hs as <- <-.
  reflexivity.
Qed.

Lemma balanced_prefix_splits_the_scan_witness :
  findJsonObjects (js "}x{ {'id':1} " ++ js "log line {'id':2}")
  = findJsonObjects (js "}x{ {'id':1} ") ++ findJsonObjects (js "log line {'id':2}").
Proof.
  apply balanced_prefix_splits_the_scan. vm_compute. reflexivity.
Defined.

(** X4.  Whatever the text, every value that [parseJsonRpcResponse] returns
    is an object, and it has the member [jsonrpc] with the value ["2.0"] or
    one of the members [id], [result] and [error]. *)
Theorem parseJsonRpcResponse_returns_rpc_objects (text : jsstring) (v : json) :
  In v (parseJsonRpcResponse text) ->
  exists ms,
    v = JObj ms
    /\ (lookup_member (js "jsonrpc") ms = Some (JStr (js "2.0"))
        \/ lookup_member (js "id") ms <> None
        \/ lookup_member (js "result") ms <> None
        \/ lookup_member (js "error") ms <> None).
Proof.
  unfold parseJsonRpcResponse. rewrite filter_In, findJsonObjects_scan.
  intros [Hin Hrpc].
  destruct (@scan_objects_objects (trim text) 0%Z None v) as [ms ->];
    [discriminate|exact Hin|].
  exists ms. split; [reflexivity|].
  unfold is_rpc_response in Hrpc. cbn [truthy andb member get_prop] in Hrpc.
  repeat rewrite orb_true_iff in Hrpc.
  destruct Hrpc as [[[H|H]|H]|H].
  - left. destruct (lookup_member (js "jsonrpc") ms) as [[|b|m e|neg|s|items|ms']|];
      try discriminate.
    destruct (jsstring_eqb_spec s (js "2.0")); [now subst|discriminate].
  - right; left. now destruct (lookup_member (js "id") ms).
  - right; right; left. now destruct (lookup_member (js "result") ms).
  - right; right; right. now destruct (lookup_member (js "error") ms).
Qed.

Lemma parseJsonRpcResponse_returns_rpc_objects_witness :
  exists ms,
    JObj [(js "method", JStr (js "ping")); (js "id", JNull)] = JObj ms
    /\ (lookup_member (js "jsonrpc") ms = Some (JStr (js "2.0"))
        \/ lookup_member (js "id") ms <> None
        \/ lookup_member (js "result") ms <> None
        \/ lookup_member (js "error") ms <> None).
Proof.
  apply (@parseJsonRpcResponse_returns_rpc_objects
           (js "noise {'method':'ping','id':null} [1,2] {'x':1}")).
  vm_compute. left. reflexivity.
Defined.

(** X5.  A closing brace that nothing has opened, at the start of a text,
    hides every object behind it that has no object nested in it: both
    framers return nothing, whatever follows the brace, as long as no two
    braces are open at once. *)
Theorem stray_closing_brace_hides_flat_objects (t : jsstring) :
  never_nested t ->
  parseJsonRpcResponse (125%N :: t) = []
  /\ _parseJsonResponses (125%N :: t) = [].
Proof.
  intros Hn.
  destruct (@trim_prefix 125%N t eq_refl) as [k Hk].
  assert (Hn' := never_nested_firstn k Hn).
  split.
  - unfold parseJsonRpcResponse. rewrite Hk, findJsonObjects_scan.
    cbn [scan_objects option_map]. change (125 =? 123)%N with false.
    change (125 =? 125)%N with true. cbv iota.
    change (0 - 1 =? 0)%Z with false. cbv iota.
    rewrite scan_objects_sunk; [reflexivity|].
    intros n. specialize (Hn' n). lia.
  - unfold _parseJsonResponses. rewrite Hk. cbn [parse_loop].
    rewrite parse_closing_brace. unfold find_end. cbn [scan_braces].
    change (125 =? 123)%N with false. change (125 =? 125)%N with true.
    cbv iota. change (Nat.eqb 0 1) with false. cbv iota.
    rewrite scan_braces_sunk; [reflexivity|].
    intros n. specialize (Hn' n). lia.
Qed.

Lemma stray_closing_brace_hides_flat_objects_witness :
  parseJsonRpcResponse (125%N :: js "{'id':1}")  = []
  /\ _parseJsonResponses (125%N :: js "{'id':1}") = [].
Proof.
  apply stray_closing_brace_hides_flat_objects.
  intros n. do 9 (destruct n as [|n]; [vm_compute; lia|]).
  vm_compute. lia.
Defined.

(** X6.  From a text without a closing brace [_parseJsonResponses] returns
    the value of the whole trimmed text when that is a JSON text, a number
    or a string or an array as well, and nothing otherwise;
    [parseJsonRpcResponse] returns nothing. *)
Theorem text_without_closing_brace (text : jsstring) :
  count 125 text = 0 ->
  _parseJsonResponses text
  = match JSON.parse (trim text) with Some v => [v] | None => [] end
  /\ parseJsonRpcResponse text = [].
Proof.
  intros Hc. apply count_trim in Hc. split.
  - unfold _parseJsonResponses. destruct (trim text) as [|x r] eqn:Ht;
      [reflexivity|].
    cbn [parse_loop]. destruct (JSON.parse (x :: r)); [reflexivity|].
    unfold find_end. now rewrite scan_braces_no_close.
  - unfold parseJsonRpcResponse.
    now rewrite findJsonObjects_scan, scan_objects_no_close.
Qed.

Lemma text_without_closing_brace_witness :
  _parseJsonResponses (js " [1, 'two'] ") = [JArr [JNum 1 0; JStr (js "two")]]
  /\ parseJsonRpcResponse (js " [1, 'two'] ") = [].
Proof.
  apply (@text_without_closing_brace (js " [1, 'two'] ")).
  vm_compute. reflexivity.
Defined.

(** X25.  Newline-delimited messages are framed one by one.  When every
    line of a chunk is the text of a JSON object, without white space around
    it and without a brace in any of its strings or member names, and a
    line feed ends each line, [_parseJsonResponses] returns the objects of
    the lines in their order. *)
Theorem newline_delimited_objects_are_framed
    (lines : list jsstring) (objects : list json) :
  Forall2 (fun line v =>
             hd_error line = Some 123%N /\ JSON.parse line = Some v
             /\ trim line = line /\ braceless v = true) lines objects ->
  _parseJsonResponses (concat (map (fun line => line ++ [10%N]) lines)) = objects.
Proof.
  intros Hlines. apply object_chunk_framed. exists [].
  eexists. split; [reflexivity|]. split; [reflexivity|].
  induction Hlines as [|line v lines objects (Hhd & Hp & Ht & Hb) _ IH].
  - constructor.
  - cbn [map concat]. rewrite <- app_assoc.
    apply object_stream_cons; auto.
    now apply braceless_object_balances with (v := v).
Qed.

Lemma newline_delimited_objects_are_framed_witness :
  _parseJsonResponses
    (concat (map (fun line => line ++ [10%N])
                 [js "{'jsonrpc':'2.0','id':1,'result':{'tools':[]}}";
                  js "{'jsonrpc':'2.0','method':'notifications/progress'}"]))
  = [JObj [(js "jsonrpc", JStr (js "2.0")); (js "id", JNum 1 0);
           (js "result", JObj [(js "tools", JArr [])])];
     JObj [(js "jsonrpc", JStr (js "2.0"));
           (js "method", JStr (js "notifications/progress"))]].
Proof.
  apply newline_delimited_objects_are_framed.
  repeat constructor; vm_compute; reflexivity.
Defined.
(* ================================================================== *)
(** * Further properties of the transport and of the client *)

(** X7.  When a second request is sent under the id of a request that is
    still pending, the handler of the first is replaced: the id now leads to
    the second promise, and the first can no longer be answered.  Whatever
    the child writes, whatever is sent and whether the transport is closed
    or not, the first promise stays unsettled for as long as no write fails
    and its own timer, 30 seconds after it was sent, has not run. *)
Theorem reused_id_orphans_the_pending_request
    (L : Loop) (i : rpc_id) (method1 method2 : jsstring)
    (params1 params2 : option json) (events : list event) :
  wf L -> killed (child L) = false -> id_truthy i = true ->
  let first := mkRequest (Some i) method1 params1 in
  let second := mkRequest (Some i) method2 params2 in
  let L1 := fst (sendRequest first L) in
  let p1 := snd (sendRequest first L) in
  let L2 := fst (sendRequest second L1) in
  let p2 := snd (sendRequest second L1) in
  Forall write_succeeds events ->
  (clock (run L2 events) < clock L + 30000)%N ->
  Map.get i (handlers L1) = Some p1
  /\ Map.get i (handlers L2) = Some p2
  /\ p1 <> p2
  /\ settlement_of p1 (settled (run L2 events)) = None
  /\ (forall k, ~ In (k, p1) (handlers (run L2 events))).
Proof.
  intros Hwf Hk Hi first second L1 p1 L2 p2 Hw Hc.
  assert (E1 : sendRequest first L
               = (mkLoop (mkTransport (process (transport L))
                            (Map.set i (promises L) (handlers L))
                            (lastRequestId (transport L)))
                         (stdin_write (i, method1, params1) (child L))
                         (clock L)
                         (timers L ++ [((clock L + 30000)%N, (i, promises L))])
                         (writes L ++ [(i, promises L)])
                         (settled L) (S (promises L)),
                  promises L)).
  { unfold sendRequest, next_request_id, first. simpl. now rewrite Hk, Hi. }
  assert (E2 : sendRequest second L1
               = (mkLoop (mkTransport (process (transport L1))
                            (Map.set i (promises L1) (handlers L1))
                            (lastRequestId (transport L1)))
                         (stdin_write (i, method2, params2) (child L1))
                         (clock L1)
                         (timers L1 ++ [((clock L1 + 30000)%N, (i, promises L1))])
                         (writes L1 ++ [(i, promises L1)])
                         (settled L1) (S (promises L1)),
                  promises L1)).
  { unfold sendRequest, next_request_id, second. simpl.
    assert (Hk1 : killed (child L1) = false)
      by (unfold L1; rewrite E1; simpl; exact Hk).
    now rewrite Hk1, Hi. }
  assert (Hp1 : p1 = promises L) by (unfold p1; now rewrite E1).
  assert (Hp2 : p2 = S (promises L))
    by (unfold p2; rewrite E2; unfold L1; rewrite E1; reflexivity).
  assert (Ho : orphaned p1 (clock L + 30000) L2).
  { unfold L2. rewrite E2. unfold L1. rewrite E1. rewrite Hp1.
    repeat split; simpl.
    - apply settled_below; auto.
    - lia.
    - intros k Hin. unfold handlers in Hin. simpl in Hin.
      destruct (rpc_id_eqb_spec k i) as [->|Hne].
      + apply set_replaces in Hin; [lia|].
        apply MapFacts.NoDup_keys_set, (wf_keys Hwf).
      + apply MapFacts.in_set in Hin. destruct Hin as [[Hki _]|Hin]; [easy|].
        apply MapFacts.in_set in Hin. destruct Hin as [[Hki _]|Hin]; [easy|].
        apply (wf_pending Hwf) in Hin. lia.
    - intros d' k Hin. apply in_app_or in Hin.
      destruct Hin as [Hin|[Hin|[]]].
      + apply in_app_or in Hin. destruct Hin as [Hin|[Hin|[]]].
        * apply (wf_timers Hwf) in Hin. destruct Hin as [_ [Hlt _]]. lia.
        * now injection Hin as <- _.
      + injection Hin as _ _ Hp. lia. }
  assert (Hrun := run_orphaned Ho Hw Hc).
  repeat split.
  - unfold L1. rewrite E1, Hp1. unfold handlers. simpl.
    apply MapFacts.get_set_same.
  - unfold L2. rewrite E2, Hp2. unfold handlers. simpl.
    unfold L1. rewrite E1. simpl. apply MapFacts.get_set_same.
  - lia.
  - apply Hrun.
  - apply Hrun.
Qed.

Lemma reused_id_orphans_the_pending_request_witness :
  let first := mkRequest (Some (IdNum 7)) (js "tools/list") None in
  let second := mkRequest (Some (IdNum 7)) (js "prompts/list") None in
  let answers := [WriteDone 0 None;
                  Stdout (js "{'jsonrpc':'2.0','id':7,'result':'a'}");
                  Elapse 20000;
                  Stdout (js "{'jsonrpc':'2.0','id':7,'result':'b'}");
                  Close] in
  let F := run (fst (sendRequest second (fst (sendRequest first new_loop)))) answers in
  settlement_of 0 (settled F) = None
  /\ settlement_of 1 (settled F) = Some (Resolved (Some (JStr (js "a")))).
Proof.
  split; [|vm_compute; reflexivity].
  refine (proj1 (proj2 (proj2 (proj2
    (@reused_id_orphans_the_pending_request new_loop (IdNum 7)
       (js "tools/list") (js "prompts/list") None None
       [WriteDone 0 None;
        Stdout (js "{'jsonrpc':'2.0','id':7,'result':'a'}");
        Elapse 20000;
        Stdout (js "{'jsonrpc':'2.0','id':7,'result':'b'}");
        Close] new_loop_wf eq_refl eq_refl _ _))))).
  - repeat constructor.
  - vm_compute. reflexivity.
Defined.

(** X8.  [close()] on a process that is running settles nothing: the
    handlers, the promises settled so far and the timers are as before, so
    the requests in flight stay pending until their timers run.  A request
    sent after it is rejected with [Process not available]; it is not
    written to the child, it gets no handler and no timer, and it takes no
    id from the counter. *)
Theorem close_leaves_pending_and_refuses_new (L : Loop) (request : requestObj) :
  wf L -> exited (child L) = false -> kill_error (child L) = None ->
  let L1 := step L Close in
  let L2 := fst (sendRequest request L1) in
  let p := snd (sendRequest request L1) in
  killed (child L1) = true
  /\ handlers L1 = handlers L /\ settled L1 = settled L /\ timers L1 = timers L
  /\ settlement_of p (settled L2)
     = Some (Rejected (Error (js "Process not available")))
  /\ stdin (child L2) = stdin (child L)
  /\ handlers L2 = handlers L /\ timers L2 = timers L
  /\ lastRequestId (transport L2) = lastRequestId (transport L).
Proof.
  intros Hwf Hex Hke L1 L2 p.
  assert (E1 : L1 = mkLoop (transport L)
                      (mkChild true false None (stdin (child L)))
                      (clock L) (timers L) (writes L) (settled L) (promises L)).
  { unfold L1. cbn [step]. unfold close_process, kill.
    destruct (child L) as [kd ex ke sin]. simpl in *. subst ex ke.
    destruct kd; [|reflexivity].
    destruct L as [t c cl tm wr st pr]. reflexivity. }
  assert (Hk1 : killed (child L1) = true) by (now rewrite E1).
  assert (E2 : sendRequest request L1
               = (settle (promises L1)
                    (Rejected (Error (js "Process not available")))
                    (mkLoop (transport L1) (child L1) (clock L1) (timers L1)
                            (writes L1) (settled L1) (S (promises L1))),
                  promises L1))
    by (unfold sendRequest; now rewrite Hk1).
  unfold L2, p. rewrite E2. cbn [fst snd].
  set (L0 := mkLoop (transport L1) (child L1) (clock L1) (timers L1)
                    (writes L1) (settled L1) (S (promises L1))).
  destruct (settle_fields (promises L1)
              (Rejected (Error (js "Process not available"))) L0)
    as (Htr & Hch & _ & Htm & _ & _).
  repeat split.
  - exact Hk1.
  - now rewrite E1.
  - now rewrite E1.
  - now rewrite E1.
  - apply settle_unsettled. unfold L0. simpl. rewrite E1. simpl.
    now apply settled_below.
  - rewrite Hch. unfold L0. simpl. now rewrite E1.
  - rewrite handlers_settle. unfold L0, handlers. simpl. now rewrite E1.
  - rewrite Htm. unfold L0. simpl. now rewrite E1.
  - rewrite Htr. unfold L0. simpl. now rewrite E1.
Qed.

Lemma close_leaves_pending_and_refuses_new_witness :
  let L := run new_loop [Send (mkRequest None (js "tools/list") None)] in
  let L1 := step L Close in
  Map.get (IdNum 1) (handlers L1) = Some 0
  /\ settled L1 = []
  /\ settlement_of 1 (settled (fst (sendRequest (mkRequest None (js "ping") None) L1)))
     = Some (Rejected (Error (js "Process not available")))
  /\ length (stdin (child (fst (sendRequest (mkRequest None (js "ping") None) L1)))) = 1.
Proof.
  assert (H := @close_leaves_pending_and_refuses_new
                 (run new_loop [Send (mkRequest None (js "tools/list") None)])
                 (mkRequest None (js "ping") None)
                 (run_wf _ new_loop_wf) eq_refl eq_refl).
  cbv zeta in H. destruct H as (_ & Hh & Hs & _ & Hp & Hin & _).
  cbv zeta. rewrite Hh, Hs, Hin. split; [vm_compute; reflexivity|].
  split; [vm_compute; reflexivity|].
  split; [exact Hp|vm_compute; reflexivity].
Defined.

(** X9.  After a [disconnect()] that went through, the client sends nothing
    any more: [request] and [callTool] reject with [Client not connected]
    and leave the transport as it is.  The disconnect itself settles none of
    the requests in flight, and it has killed the process of the transport
    unless that had stopped by itself. *)
Theorem disconnected_client_sends_nothing
    (c c' : Client) (L L' : Loop) :
  Client_disconnect c L = (L', Ok c') ->
  (forall requestObj,
      Client_request_on c' requestObj L' = (L', Throw (js "Client not connected")))
  /\ (forall name arguments now,
        Client_callTool c' name arguments now L'
        = (L', Throw (js "Client not connected")))
  /\ handlers L' = handlers L /\ settled L' = settled L
  /\ stdin (child L') = stdin (child L)
  /\ (client_transport c <> None -> exited (child L) = false ->
      killed (child L') = true).
Proof.
  unfold Client_disconnect. intros H.
  assert (Hc : isConnected c' = false).
  { destruct (client_transport c); [destruct (close_process (child L))|];
      try discriminate; now injection H as _ <-. }
  repeat split.
  - intros requestObj. unfold Client_request_on. now rewrite Hc.
  - intros name arguments now. unfold Client_callTool. now rewrite Hc.
  - destruct (client_transport c); [destruct (close_process (child L))|];
      try discriminate; now injection H as <- _.
  - destruct (client_transport c); [destruct (close_process (child L))|];
      try discriminate; now injection H as <- _.
  - destruct (client_transport c); [|now injection H as <- _].
    unfold close_process, kill in H.
    destruct (child L) as [kd ex ke sin]. simpl in *.
    destruct kd; [now injection H as <- _|].
    destruct ke; [discriminate|]. destruct ex; now injection H as <- _.
  - intros Ht Hex. destruct (client_transport c); [|easy].
    unfold close_process, kill in H.
    destruct (child L) as [kd ex ke sin]. simpl in *. subst ex.
    destruct kd; [now injection H as <- _|].
    destruct ke; [discriminate|]. now injection H as <- _.
Qed.

Lemma disconnected_client_sends_nothing_witness :
  let c := mkClient (js "mcp-client-srv") true (Some (new_transport 0)) in
  let L := run new_loop [Send (mkRequest None (js "tools/list") None)] in
  exists c' L',
    Client_disconnect c L = (L', Ok c')
    /\ Client_callTool c' (Some (JStr (js "echo"))) None 1700000000000 L'
       = (L', Throw (js "Client not connected"))
    /\ killed (child L') = true
    /\ settled L' = [].
Proof.
  eexists. eexists. split; [vm_compute; reflexivity|].
  match goal with
  | |- context [Client_callTool ?c' _ _ _ ?L'] =>
      assert (H := @disconnected_client_sends_nothing
                     (mkClient (js "mcp-client-srv") true (Some (new_transport 0)))
                     c'
                     (run new_loop [Send (mkRequest None (js "tools/list") None)])
                     L' eq_refl)
  end.
  destruct H as (_ & Hcall & _ & Hs & _ & Hk).
  split; [apply Hcall|]. split; [apply Hk; [discriminate|reflexivity]|].
  rewrite Hs. vm_compute. reflexivity.
Defined.

(** X17.  No request hangs when the ids are left to the counter.  Take a
    transport on which every outstanding timer and write callback belongs to
    an id that the counter has assigned, and a request without an id of its
    own, sent to a running process.  When the requests sent after it carry
    no id either, it is settled at the latest when 30 seconds have passed
    since it was sent, whatever happens meanwhile: responses in any order,
    failed writes, other requests, a close.  Its settlement then stays what
    it is. *)
Theorem counter_request_is_settled_in_time
    (L : Loop) (request : requestObj) (events : list event) :
  wf L -> killed (child L) = false -> ids_below L ->
  req_id request = None -> Forall counter_event events ->
  let L1 := fst (sendRequest request L) in
  let p := snd (sendRequest request L) in
  (clock L + 30000 <= clock (run L1 events))%N ->
  exists s,
    settlement_of p (settled (run L1 events)) = Some s
    /\ forall more, settlement_of p (settled (run L1 (events ++ more))) = Some s.
Proof.
  intros Hwf Hk Hb Hr Hall L1 p Hc.
  set (k := (lastRequestId (transport L) + 1)%Z).
  assert (Hi : fst (next_request_id request (lastRequestId (transport L)))
               = IdNum k)
    by (unfold next_request_id; now rewrite Hr).
  assert (Hfresh : fresh_id (IdNum k) L = true).
  { destruct Hb as (_ & Ht & Hw). unfold fresh_id.
    apply andb_true_intro; split; apply forallb_forall.
    - intros t Hin. destruct (Ht _ Hin) as (j & -> & Hle).
      simpl. apply negb_true_iff, Z.eqb_neq. unfold k. lia.
    - intros w Hin. destruct (Hw _ Hin) as (j & -> & Hle).
      simpl. apply negb_true_iff, Z.eqb_neq. unfold k. lia. }
  assert (Ha : armed (IdNum k) (promises L) (clock L + 30000) L1).
  { rewrite <- Hi. apply sendRequest_armed; auto. now rewrite Hi. }
  assert (Hp : p = promises L).
  { unfold p, sendRequest. rewrite Hk. now destruct (next_request_id _ _). }
  assert (Hk1 : (k <= lastRequestId (transport L1))%Z).
  { unfold L1, sendRequest, next_request_id. rewrite Hk, Hr. simpl.
    unfold k. lia. }
  assert (Hwf1 : wf L1) by (now apply sendRequest_wf).
  destruct (@run_armed_or_answered (promises L) (clock L + 30000)%N k events L1
              Hwf1 Hk1 Hall (or_introl Ha)) as [(_ & Hin & _)|[s Hs]].
  - apply (wf_timers (run_wf events Hwf1)) in Hin. lia.
  - exists s. rewrite Hp. split; [exact Hs|].
    intros more. rewrite run_app. now apply settlement_final.
Qed.

Lemma counter_request_is_settled_in_time_witness :
  let events := [Send (mkRequest None (js "prompts/list") None);
                 WriteDone 0 (Some (js "EPIPE"));
                 Stdout (js "{'jsonrpc':'2.0','id':2,'result':[]}");
                 Elapse 30000] in
  let L1 := fst (sendRequest (mkRequest None (js "tools/list") None) new_loop) in
  exists s, settlement_of 0 (settled (run L1 events)) = Some s.
Proof.
  cbv zeta.
  destruct (@counter_request_is_settled_in_time new_loop
              (mkRequest None (js "tools/list") None)
              [Send (mkRequest None (js "prompts/list") None);
               WriteDone 0 (Some (js "EPIPE"));
               Stdout (js "{'jsonrpc':'2.0','id':2,'result':[]}");
               Elapse 30000])
    as (s & Hs & _).
  - exact new_loop_wf.
  - reflexivity.
  - repeat split; simpl; try lia; intros x [].
  - reflexivity.
  - repeat constructor.
  - vm_compute. discriminate.
  - exists s. exact Hs.
Defined.

(* ================================================================== *)
(** * Further properties of the registry *)

(** X10.  The two maps of the bridge stay in agreement.  When every stored
    connection is a connected client over the very process that is stored
    under its key, and every stored process is one that was created, the
    same holds after a call of [getOrCreateClient], whether it succeeds or
    fails, after [handleFetchMCPCapabilities] and after [cleanupClients];
    and the connection that [getOrCreateClient] returns is over the process
    stored under its key. *)
Theorem registry_stays_consistent (w : World) :
  registry_ok w ->
  (forall cmd args id b,
      let r := getOrCreateClient cmd args id b w in
      registry_ok (fst r)
      /\ forall conn, snd r = Ok conn ->
           Map.get (clientKey_of cmd id) (activeProcesses (fst r))
           = Some (process (conn_transport conn))
           /\ process (conn_transport conn) < length (procs (fst r))
           /\ isConnected (client conn) = true
           /\ client_transport (client conn) = Some (conn_transport conn))
  /\ (forall command args serverId b tools_reply prompts_reply,
        registry_ok (fst (handleFetchMCPCapabilities command args serverId b
                            tools_reply prompts_reply w)))
  /\ registry_ok (fst (cleanupClients w)).
Proof.
  intros Hok. split; [|split].
  - intros cmd args id b r.
    assert (Hr : registry_ok (fst r))
      by (now apply registry_ok_getOrCreateClient).
    split; [exact Hr|]. intros conn Hconn.
    assert (Hst : Map.get (clientKey_of cmd id) (activeClients (fst r)) = Some conn).
    { apply (@getOrCreateClient_stores cmd args id b w).
      unfold r in *. destruct (getOrCreateClient cmd args id b w) as [w1 res].
      simpl in *. now subst res. }
    destruct Hr as [Hc Hp]. destruct (Hc _ _ Hst) as (Hg & Hi & Ht).
    repeat split; auto. now apply (Hp (clientKey_of cmd id)).
  - intros command args serverId b t p.
    rewrite handleFetchMCPCapabilities_world.
    destruct command; [exact Hok|]. now apply registry_ok_getOrCreateClient.
  - destruct (cleanupClients_result w) as (w' & -> & Ec & Ep & _).
    simpl. split; rewrite ?Ec, ?Ep; intros key x; discriminate.
Qed.

Lemma registry_stays_consistent_witness :
  let quiet := mkBehaviour None [] None in
  let noisy := mkBehaviour None [OnStderr (js "spawn ENOENT")] None in
  let w1 := fst (getOrCreateClient (js "node") [js "a.js"] (Some (js "a")) quiet
                                   empty_world) in
  registry_ok (fst (getOrCreateClient (js "node") [js "b.js"] (Some (js "b")) noisy w1)).
Proof.
  assert (H0 : registry_ok empty_world) by (split; intros key x; discriminate).
  assert (H1 := proj1 (proj1 (registry_stays_consistent H0)
                         (js "node") [js "a.js"] (Some (js "a"))
                         (mkBehaviour None [] None))).
  exact (proj1 (proj1 (registry_stays_consistent H1)
                  (js "node") [js "b.js"] (Some (js "b"))
                  (mkBehaviour None [OnStderr (js "spawn ENOENT")] None))).
Defined.

(** X11.  [cleanupClients] forgets every connection: the next call of
    [getOrCreateClient], for a key that was stored before or not, spawns a
    new process, not one of those that existed, and stores it and the
    connection over it. *)
Theorem cleanup_then_create_spawns_anew
    (w : World) (cmd : jsstring) (args : list jsstring) (id : option jsstring)
    (b : behaviour) :
  cmd <> [] -> spawn_throws b = None -> first_failure (grace_events b) = None ->
  let w1 := fst (cleanupClients w) in
  let r := getOrCreateClient cmd args id b w1 in
  exists conn,
    snd r = Ok conn
    /\ process (conn_transport conn) = length (procs w1)
    /\ length (procs w) <= process (conn_transport conn)
    /\ nth_error (procs (fst r)) (process (conn_transport conn))
       = Some (spawned_child b)
    /\ Map.get (clientKey_of cmd id) (activeClients (fst r)) = Some conn
    /\ Map.get (clientKey_of cmd id) (activeProcesses (fst r))
       = Some (length (procs w1)).
Proof.
  intros Hcmd Hsp Hff w1 r.
  destruct (cleanupClients_result w) as (w' & Hcl & Ec & Ep & _ & Hs).
  assert (Hw1 : w1 = w') by (unfold w1; now rewrite Hcl). clearbody w1. subst w'.
  unfold r. rewrite getOrCreateClient_spawns by (rewrite ?Ec, ?Ep; reflexivity).
  rewrite (@spawnMCPProcess_outcome cmd args b w1 Hcmd Hsp), Hff.
  eexists. split; [reflexivity|]. cbn [fst snd]. simpl.
  repeat split.
  - now apply settles_length.
  - rewrite nth_error_app2, Nat.sub_diag by lia. reflexivity.
  - apply MapFacts.get_set_same.
  - apply MapFacts.get_set_same.
Qed.

Lemma cleanup_then_create_spawns_anew_witness :
  let quiet := mkBehaviour None [] None in
  let w := fst (getOrCreateClient (js "node") [js "a.js"] (Some (js "a")) quiet
                                  empty_world) in
  let r := getOrCreateClient (js "node") [js "a.js"] (Some (js "a")) quiet
                             (fst (cleanupClients w)) in
  exists conn, snd r = Ok conn /\ process (conn_transport conn) = 1.
Proof.
  cbv zeta.
  destruct (@cleanup_then_create_spawns_anew
              (fst (getOrCreateClient (js "node") [js "a.js"] (Some (js "a"))
                      (mkBehaviour None [] None) empty_world))
              (js "node") [js "a.js"] (Some (js "a")) (mkBehaviour None [] None))
    as (conn & Hr & Hp & _); [discriminate|reflexivity|reflexivity|].
  exists conn. split; [exact Hr|]. rewrite Hp. vm_compute. reflexivity.
Defined.

(* ================================================================== *)
(** * Further properties of the main process *)

(** X12.  [decodeHTMLEntities] undoes the escaping of HTML text: a text in
    which every ampersand, angle bracket, double quote and apostrophe was
    replaced by its entity is decoded to the text itself.  The entities are
    replaced in one pass, so [&amp;lt;] comes out as [&lt;], not as an
    angle bracket. *)
Theorem decodeHTMLEntities_inverts_escaping (s : jsstring) :
  decodeHTMLEntities (Some (JStr (escape_html s))) = s.
Proof.
  unfold decodeHTMLEntities.
  rewrite (@replace_literals_untouched bold_tags (escape_html s));
    [apply decode_escaped|].
  intros c Hc. apply escape_html_no_bracket in Hc.
  assert (E : negb (60 =? c)%N = true)
    by (apply negb_true_iff, N.eqb_neq; congruence).
  apply forallb_forall. intros [pattern replacement] Hin.
  unfold bold_tags in Hin. cbn [In] in Hin.
  repeat (destruct Hin as [Hin|Hin]; [injection Hin as <- <-; exact E|]).
  destruct Hin.
Qed.

(** X13.  What [htmlToText] returns has no white space at its ends and no
    two characters of white space side by side, whatever the HTML. *)
Theorem htmlToText_is_single_spaced (html : jsstring) :
  tight (htmlToText html) /\ single_spaced (htmlToText html) = true.
Proof.
  unfold htmlToText. split; [apply trim_tight|].
  apply single_spaced_trim, squeeze_spaces_single.
Qed.

(** X14.  Given a configuration object, [handleMCPExecute] returns in every
    case: its result carries the id of the configuration and either an
    error and no output, or one item of output and no error.  Without a
    configuration it throws, since it reads the name before its [try], and
    leaves the module state as it is. *)
Theorem execute_returns_output_or_error
    (config : serverConfig) (userArgs : option (list jsstring)) (now : Z)
    (b : behaviour) (reply : requestObj -> result (option json)) (w : World) :
  (exists r,
      snd (handleMCPExecute (Some config) userArgs now b reply w) = Ok r
      /\ exec_serverId r = cfg_id config
      /\ ((exec_output r = None /\ exec_error r <> None)
          \/ (exists text, exec_output r = Some [text] /\ exec_error r = None)))
  /\ handleMCPExecute None userArgs now b reply w
     = (w, Throw (cannot_read (js "name"))).
Proof.
  split; [|reflexivity].
  unfold handleMCPExecute, try_catch, bind, throw, ret.
  destruct (cfg_command config) as [[|c r]|].
  - eexists. split; [reflexivity|]. simpl. split; [reflexivity|]. left.
    split; [reflexivity|discriminate].
  - destruct (getOrCreateClient (c :: r) (args_array (cfg_args config))
                (cfg_id config) b w) as [w1 [conn|m]].
    + destruct userArgs as [userArgs|].
      * destruct (Client_request_outcome _ _) as [result|m].
        -- eexists. split; [reflexivity|]. simpl. split; [reflexivity|].
           right. eauto.
        -- eexists. split; [reflexivity|]. simpl. split; [reflexivity|].
           left. split; [reflexivity|discriminate].
      * eexists. split; [reflexivity|]. simpl. split; [reflexivity|].
        left. split; [reflexivity|discriminate].
    + eexists. split; [reflexivity|]. simpl. split; [reflexivity|].
      left. split; [reflexivity|discriminate].
  - eexists. split; [reflexivity|]. simpl. split; [reflexivity|]. left.
    split; [reflexivity|discriminate].
Qed.

(** X15.  The error of [handleMCPExecute] names the step that failed.  With
    a command in the configuration and the two maps in agreement, the
    handler returns in the state in which [getOrCreateClient] left the
    bridge: with [Failed to connect to MCP server: ] before the message of
    [getOrCreateClient] when that failed; with [Tool execution error: ]
    before the message of the request when that was rejected, and the
    connection is still stored; with the formatted result otherwise. *)
Theorem execution_errors_name_the_step
    (config : serverConfig) (cmd : jsstring) (userArgs : list jsstring)
    (now : Z) (b : behaviour) (reply : requestObj -> result (option json))
    (w : World) :
  registry_ok w -> cfg_command config = Some cmd -> cmd <> [] ->
  let connect := getOrCreateClient cmd (args_array (cfg_args config))
                                   (cfg_id config) b w in
  let request := mkRequest None (js "tools/call")
                   (Some (callTool_params
                            (option_map JStr (hd_error userArgs))
                            (Some (format_arguments (hd_error userArgs)
                                                    (tl userArgs)))
                            now)) in
  let r := handleMCPExecute (Some config) (Some userArgs) now b reply w in
  fst r = fst connect
  /\ (forall m, snd connect = Throw m ->
        snd r = Ok (mkExecution None
                      (Some (js "Failed to connect to MCP server: " ++ m))
                      (cfg_id config)))
  /\ (forall conn m, snd connect = Ok conn -> reply request = Throw m ->
        snd r = Ok (mkExecution None (Some (js "Tool execution error: " ++ m))
                                (cfg_id config))
        /\ Map.get (clientKey_of cmd (cfg_id config)) (activeClients (fst r))
           = Some conn)
  /\ (forall conn result, snd connect = Ok conn -> reply request = Ok result ->
        snd r = Ok (mkExecution (Some [format_result result]) None
                                (cfg_id config))).
Proof.
  intros Hok Hc Hne connect request r.
  destruct (getOrCreateClient cmd (args_array (cfg_args config))
              (cfg_id config) b w) as [w1 [conn|m]] eqn:Hg.
  - assert (Hr := @handleMCPExecute_connected config cmd userArgs now b reply
                    w w1 conn Hc Hne Hg).
    fold request in Hr.
    assert (Hst := getOrCreateClient_stores _ _ _ _ _ Hg).
    assert (Hok1 : registry_ok w1).
    { replace w1 with (fst (getOrCreateClient cmd (args_array (cfg_args config))
                              (cfg_id config) b w)) by (now rewrite Hg).
      now apply registry_ok_getOrCreateClient. }
    destruct (proj1 Hok1 _ _ Hst) as (_ & Hi & Ht).
    assert (Hout : Client_request_outcome (client conn) (reply request)
                   = reply request)
      by (unfold Client_request_outcome; now rewrite Hi, Ht).
    rewrite Hout in Hr. unfold r, connect. rewrite Hr. cbn [fst snd].
    split; [reflexivity|]. split; [discriminate|]. split.
    + intros conn' m [= <-] Hm. rewrite Hm. auto.
    + intros conn' result [= <-] Hm. now rewrite Hm.
  - assert (Hr := @handleMCPExecute_unconnected config cmd (Some userArgs) now b
                    reply w w1 m Hc Hne Hg).
    unfold r, connect. rewrite Hr. cbn [fst snd].
    split; [reflexivity|]. split; [now intros m' [= <-]|].
    split; discriminate.
Qed.

Lemma execution_errors_name_the_step_witness :
  let config := mkServerConfig (Some (js "srv")) (Some (js "Files"))
                               (Some (js "nod")) (ArgsValue (js "server.js")) in
  let b := mkBehaviour None [OnStderr (js "sh: nod: command not found")] None in
  snd (handleMCPExecute (Some config) (Some [js "list"]) 0 b
                        (fun _ => Ok None) empty_world)
  = Ok (mkExecution None
          (Some (js "Failed to connect to MCP server: Failed to create MCP process: Process startup error: sh: nod: command not found"))
          (Some (js "srv"))).
Proof.
  assert (H0 : registry_ok empty_world) by (split; intros key x; discriminate).
  refine (proj1 (proj2 (@execution_errors_name_the_step
            (mkServerConfig (Some (js "srv")) (Some (js "Files"))
                            (Some (js "nod")) (ArgsValue (js "server.js")))
            (js "nod") [js "list"] 0%Z
            (mkBehaviour None [OnStderr (js "sh: nod: command not found")] None)
            (fun _ => Ok None) empty_world H0 eq_refl _)) _ _).
  - discriminate.
  - vm_compute. reflexivity.
Defined.

(** X16.  A tool is executed over the connection that the fetch of the
    capabilities has made.  After [handleFetchMCPCapabilities] has returned
    without error, [handleMCPExecute] for the same key spawns nothing and
    stores nothing: it leaves the module state as it is, whatever the
    command and the arguments of its configuration are. *)
Theorem execute_reuses_the_capabilities_connection
    (command : jsstring) (args : list jsstring) (serverId : option jsstring)
    (b b' : behaviour) (tools_reply prompts_reply : settlement)
    (w w1 : World) (caps : capabilities)
    (config : serverConfig) (cmd : jsstring) (userArgs : option (list jsstring))
    (now : Z) (reply : requestObj -> result (option json)) :
  handleFetchMCPCapabilities command args serverId b tools_reply prompts_reply w
  = (w1, Ok caps) ->
  error caps = None ->
  cfg_command config = Some cmd -> cmd <> [] ->
  clientKey_of cmd (cfg_id config) = clientKey_of command serverId ->
  fst (handleMCPExecute (Some config) userArgs now b' reply w1) = w1.
Proof.
  intros Hcaps Herr Hc Hne Hkey.
  destruct (capabilities_connected _ _ _ _ _ _ _ Hcaps Herr) as (_ & conn & Hg).
  apply getOrCreateClient_stores in Hg. rewrite <- Hkey in Hg.
  rewrite handleMCPExecute_world, Hc. destruct cmd as [|c r]; [congruence|].
  now rewrite (getOrCreateClient_cached (c :: r) (args_array (cfg_args config))
                 (cfg_id config) b' w1 Hg).
Qed.

Lemma execute_reuses_the_capabilities_connection_witness :
  let quiet := mkBehaviour None [] None in
  let broken := mkBehaviour (Some (js "spawn EACCES")) [] None in
  let w1 := fst (handleFetchMCPCapabilities (js "node") [js "server.js"]
                   (Some (js "srv")) quiet
                   (Resolved None) (Resolved None) empty_world) in
  let config := mkServerConfig (Some (js "srv")) (Some (js "Files"))
                               (Some (js "python")) ArgsMissing in
  fst (handleMCPExecute (Some config) (Some [js "list"]) 0 broken
                        (fun _ => Ok None) w1) = w1
  /\ length (procs w1) = 1.
Proof.
  split; [|vm_compute; reflexivity].
  apply (@execute_reuses_the_capabilities_connection
           (js "node") [js "server.js"] (Some (js "srv"))
           (mkBehaviour None [] None) (mkBehaviour (Some (js "spawn EACCES")) [] None)
           (Resolved None) (Resolved None) empty_world _
           (mkCapabilities [] [] None (Some (js "srv")))
           (mkServerConfig (Some (js "srv")) (Some (js "Files"))
                           (Some (js "python")) ArgsMissing)
           (js "python")).
  - vm_compute. reflexivity.
  - reflexivity.
  - reflexivity.
  - discriminate.
  - vm_compute. reflexivity.
Defined.

(* ================================================================== *)
(** * Further properties of the teardown of the main process *)

(** X18.  The main process never kills a process of the bridge.  Whatever
    calls of the two handlers [mcp:fetchCapabilities] and [mcp:execute] it
    has served, one after the other, no process that was spawned has been
    killed, and the listener of [will-quit] changes nothing:
    [cleanupServers] goes through [serverProcesses], which these handlers
    never fill, and not through the maps of the bridge. *)
Theorem main_process_kills_no_bridge_process (calls : list ipc_call) :
  let s := fold_left ipc_handle calls main_start in
  will_quit s = s
  /\ serverProcesses s = []
  /\ Forall (fun c => killed c = false) (procs (bridge (will_quit s))).
Proof.
  cbv zeta.
  assert (H : forall s0,
            serverProcesses s0 = [] ->
            Forall (fun c => killed c = false) (procs (bridge s0)) ->
            serverProcesses (fold_left ipc_handle calls s0) = []
            /\ Forall (fun c => killed c = false)
                      (procs (bridge (fold_left ipc_handle calls s0)))).
  { induction calls as [|call calls IH]; intros s0 Hs Hk; [auto|].
    cbn [fold_left]. apply IH.
    - destruct call; exact Hs.
    - destruct call as [command args serverId b t p|config userArgs now b reply];
        cbn [ipc_handle bridge].
      + rewrite handleFetchMCPCapabilities_world.
        destruct command; [exact Hk|].
        now apply getOrCreateClient_kills_nothing.
      + destruct config as [config|]; [|exact Hk].
        rewrite handleMCPExecute_world.
        destruct (cfg_command config) as [[|c r]|]; try exact Hk.
        now apply getOrCreateClient_kills_nothing. }
  destruct (H main_start eq_refl (Forall_nil _)) as [Hs Hk].
  assert (Hq : will_quit (fold_left ipc_handle calls main_start)
               = fold_left ipc_handle calls main_start).
  { unfold will_quit, cleanupServers. rewrite Hs. cbn [kill_servers].
    destruct (fold_left ipc_handle calls main_start) as [w sp].
    simpl in *. now subst sp. }
  rewrite Hq. auto.
Qed.

(** X19.  [cleanupServers] ends at the first [kill] that throws.  When the
    processes before an entry of [serverProcesses] can be killed and the
    process of this entry is alive and its [kill] throws, [cleanupServers]
    throws that error; the map keeps all its entries, and the processes
    behind this entry are as they were, alive if they were. *)
Theorem cleanupServers_stops_at_the_first_failure
    (s : MainState) (before after : list (jsstring * nat))
    (key : jsstring) (h : nat) (c : ChildProcess) (message : jsstring) :
  serverProcesses s = before ++ (key, h) :: after ->
  (forall k' h', In (k', h') before ->
     exists c', nth_error (procs (bridge s)) h' = Some c'
                /\ kill_error c' = None) ->
  nth_error (procs (bridge s)) h = Some c ->
  killed c = false -> kill_error c = Some message ->
  snd (cleanupServers s) = Throw message
  /\ serverProcesses (fst (cleanupServers s)) = serverProcesses s
  /\ (forall n, ~ In n (map snd before) ->
        nth_error (procs (bridge (fst (cleanupServers s)))) n
        = nth_error (procs (bridge s)) n).
Proof.
  intros Hsp Hb Hn Hk He.
  destruct (@kill_servers_stops before (bridge s) key h after c message
              Hb Hn Hk He) as [Hthrow Hframe].
  unfold cleanupServers. rewrite Hsp.
  destruct (kill_servers (before ++ (key, h) :: after) (bridge s))
    as [w r] eqn:Hrun.
  simpl in Hthrow, Hframe. subst r. simpl. auto.
Qed.

Lemma cleanupServers_stops_at_the_first_failure_witness :
  let quiet := mkBehaviour None [] None in
  let stubborn := mkBehaviour None [] (Some (js "kill EPERM")) in
  let s1 := fst (spawnMCPServer (js "a") (js "node") [js "a.js"] None quiet
                                main_start) in
  let s2 := fst (spawnMCPServer (js "b") (js "node") [js "b.js"] None stubborn s1) in
  let s3 := fst (spawnMCPServer (js "c") (js "node") [js "c.js"] None quiet s2) in
  snd (cleanupServers s3) = Throw (js "kill EPERM")
  /\ serverProcesses (fst (cleanupServers s3)) = serverProcesses s3
  /\ nth_error (procs (bridge (fst (cleanupServers s3)))) 2
     = Some (mkChild false false None []).
Proof.
  cbv zeta.
  set (s3 := fst (spawnMCPServer (js "c") _ _ _ _ _)).
  destruct (@cleanupServers_stops_at_the_first_failure s3
              [(js "a", 0)] [(js "c", 2)] (js "b") 1
              (mkChild false false (Some (js "kill EPERM")) [])
              (js "kill EPERM"))
    as (Ht & Hm & Hf).
  - vm_compute. reflexivity.
  - intros k' h' [[= <- <-]|[]]. eexists. split; vm_compute; reflexivity.
  - vm_compute. reflexivity.
  - reflexivity.
  - reflexivity.
  - split; [exact Ht|]. split; [exact Hm|].
    rewrite Hf; [vm_compute; reflexivity|].
    simpl. intros [E|[]]. discriminate.
Defined.

(** X20.  When no [kill] throws, [cleanupServers] comes to its end: it
    returns, the map is empty, every process that was in it has been killed
    or had stopped by itself, and the maps of the bridge are as they
    were. *)
Theorem cleanupServers_kills_every_server (s : MainState) :
  (forall key h, In (key, h) (serverProcesses s) ->
     exists c, nth_error (procs (bridge s)) h = Some c /\ kill_error c = None) ->
  let s' := fst (cleanupServers s) in
  snd (cleanupServers s) = Ok tt
  /\ serverProcesses s' = []
  /\ (forall key h, In (key, h) (serverProcesses s) ->
        exists c', nth_error (procs (bridge s')) h = Some c'
                   /\ terminated c' = true)
  /\ activeClients (bridge s') = activeClients (bridge s)
  /\ activeProcesses (bridge s') = activeProcesses (bridge s).
Proof.
  intros Hb. cbv zeta.
  assert (Hok := kill_servers_ok (serverProcesses s) (bridge s) Hb).
  unfold cleanupServers.
  destruct (kill_servers (serverProcesses s) (bridge s)) as [w r] eqn:Hrun.
  simpl in Hok. subst r. simpl.
  destruct (kill_servers_frame _ _ Hrun) as (Ec & Ep & _).
  repeat split; auto.
  intros key h Hin. destruct (Hb key h Hin) as (c & Hc & _).
  eapply kill_servers_done; eauto.
Qed.

Lemma cleanupServers_kills_every_server_witness :
  let quiet := mkBehaviour None [] None in
  let gone := mkBehaviour None [OnExit (Some 0%Z)] None in
  let s1 := fst (spawnMCPServer (js "a") (js "node") [js "a.js"] None quiet
                                main_start) in
  let s2 := fst (spawnMCPServer (js "b") (js "node") [js "b.js"] None gone s1) in
  snd (cleanupServers s2) = Ok tt
  /\ serverProcesses (fst (cleanupServers s2)) = []
  /\ map terminated (procs (bridge (fst (cleanupServers s2)))) = [true; true].
Proof.
  cbv zeta.
  set (s2 := fst (spawnMCPServer (js "b") _ _ _ _ _)).
  destruct (@cleanupServers_kills_every_server s2) as (Hok & Hm & _).
  - intros key h Hin. vm_compute in Hin.
    destruct Hin as [[= <- <-]|[[= <- <-]|[]]];
      eexists; split; vm_compute; reflexivity.
  - split; [exact Hok|]. split; [exact Hm|]. vm_compute. reflexivity.
Defined.

(* ================================================================== *)
(** * Further properties of the supervisor *)

(** X21.  The arguments that [spawnMCPProcess] hands to [spawn] are as many
    as it was given and in the same order; each is the given argument or a
    path at which the file system has a file, and an argument behind the
    first that holds no slash and no backslash is the given one.  A path
    that resolves to a directory is handed on as well: the check that
    throws on it is caught on the spot. *)
Theorem resolved_arguments_are_given_or_files
    (env : Env) (args : list jsstring) :
  length (resolvedArgs env args) = length args
  /\ Forall2 (fun arg resolved =>
                resolved = arg \/ fs env resolved = Present IsFile)
             args (resolvedArgs env args)
  /\ (forall i arg,
        nth_error args (S i) = Some arg -> looks_like_path arg = false ->
        nth_error (resolvedArgs env args) (S i) = Some arg)
  /\ (forall arg,
        resolveMCPPath env arg = Ok arg ->
        resolvedArgs env [arg] = [arg]).
Proof.
  unfold resolvedArgs. generalize 0 at 1 2 as k.
  split; [|split; [|split]].
  - revert k. induction args as [|a rest IH]; intros k; simpl; auto.
  - revert k. induction args as [|a rest IH]; intros k; simpl; constructor; auto.
    apply resolve_arg_result.
  - intros i arg Hn Hp. rewrite nth_error_resolve_args, Hn. simpl.
    now rewrite resolve_arg_plain.
  - intros arg Hr. simpl. f_equal. unfold resolve_arg.
    destruct arg as [|c r]; [reflexivity|]. rewrite Hr.
    destruct (Nat.eqb 0 0 || looks_like_path (c :: r)); [|reflexivity].
    destruct (isLikelyScript (c :: r)); [|reflexivity].
    destruct (directory_check env (c :: r)); reflexivity.
Qed.

(** X22.  Where [require] is not defined, as in an ES module, the call
    [require('os')] inside [resolveMCPPath] throws before any path is
    looked up, and [spawnMCPProcess] hands every argument to [spawn] as it
    was given. *)
Theorem without_require_nothing_is_resolved
    (env : Env) (args : list jsstring) (message : jsstring) :
  homedir env = Throw message ->
  resolvedArgs env args = args
  /\ (forall scriptPath,
        scriptPath <> [] -> looks_like_path scriptPath = true ->
        path_isAbsolute env scriptPath = false ->
        resolveMCPPath env scriptPath = Throw message).
Proof.
  intros Hh. split.
  - unfold resolvedArgs. generalize 0 as k.
    induction args as [|a rest IH]; intros k; simpl; [reflexivity|].
    now rewrite (resolve_arg_without_require env k a Hh), IH.
  - intros scriptPath Hne Hp Ha. unfold resolveMCPPath.
    destruct scriptPath as [|c r]; [congruence|].
    rewrite Hp, Ha, Hh. simpl. now destruct (isDev env).
Qed.

Lemma without_require_nothing_is_resolved_witness :
  let env := mkEnv true (fun _ => Present IsFile)
                   (starts_with (js "/"))
                   (fun parts => join (js "/") parts)
                   (fun p => p) (js "/work") (js "/app/electron")
                   (Throw (js "require is not defined"))
                   (js "/app") (js "/data") in
  resolvedArgs env [js "servers/files.js"; js "--root"; js "./data"]
  = [js "servers/files.js"; js "--root"; js "./data"].
Proof.
  apply (@without_require_nothing_is_resolved
           (mkEnv true (fun _ => Present IsFile)
                  (starts_with (js "/"))
                  (fun parts => join (js "/") parts)
                  (fun p => p) (js "/work") (js "/app/electron")
                  (Throw (js "require is not defined"))
                  (js "/app") (js "/data"))
           [js "servers/files.js"; js "--root"; js "./data"]
           (js "require is not defined")).
  reflexivity.
Defined.

